(** * zorolib: intrusive lists, hash lists and integer hashing

    A shallow embedding of [zoro/linux/list.h], [zoro/linux/hlist.h] and
    [zoro/linux/hash.h], and of the conversions of strings to integers of
    [module-string].

    - Pointers are integers ([Z]); [NULL] is [0] and the poison values are the
      constants of the headers.
    - The heap is a finite map from addresses to structures.  Reading or
      writing a field of an address that holds no structure is the C
      program's undefined behaviour; it is the fault [None] of the monad.
    - A C function with side effects is a computation of the state-and-fault
      monad [M]; the statements of its body are sequenced with [;;] and
      [x ← c; k] in the order of the source.
    - An iteration macro is a function of the loop body, with fuel for the
      number of iterations; a run that exhausts its fuel is [None].
    - The C library's [strtol] and [strtoul] are variables of a section: the
      properties of the conversions hold whatever they return. *)

From stdpp Require Import gmap list.
From Stdlib Require Import ZArith Lia Ascii.

Open Scope Z_scope.

(** ** The state-and-fault monad *)

Definition M (St A : Type) : Type := St → option (A * St).

#[global] Instance M_ret {St} : MRet (M St) := λ A a s, Some (a, s).

#[global] Instance M_bind {St} : MBind (M St) := λ A B k c s,
  match c s with
  | Some (a, s') => k a s'
  | None => None
  end.

(** The computation that faults. *)
Definition fault {St A} : M St A := λ _, None.

(** [wp c s Q]: from state [s] the computation [c] does not fault, and its
    result and final state satisfy [Q]. *)
Definition wp {St A} (c : M St A) (s : St) (Q : A → St → Prop) : Prop :=
  ∃ a s', c s = Some (a, s') ∧ Q a s'.

(** ** hash.h *)

Module Hash.

Definition GOLDEN_RATIO_32 : Z := 0x61C88647.
Definition GOLDEN_RATIO_64 : Z := 0x61C8864680B583EB.

(** Conversion to [uint32_t] and [uint64_t]: reduction modulo the word size. *)
Definition u32 (z : Z) : Z := z mod 2 ^ 32.
Definition u64 (z : Z) : Z := z mod 2 ^ 64.

(** [x >> n] on a [w]-bit unsigned operand.  A count outside [0, w) is
    undefined in C. *)
Definition shr (w x n : Z) : option Z :=
  if decide (0 ≤ n < w) then Some (Z.shiftr x n) else None.

(** [return (val * GOLDEN_RATIO_32);] in [uint32_t] arithmetic. *)
Definition __hash_32 (val : Z) : Z := u32 (val * GOLDEN_RATIO_32).

(** [return __hash_32(val) >> (32 - bits);]  [bits] is an [unsigned int], so
    [32 - bits] is computed modulo [2^32]. *)
Definition hash_32 (val bits : Z) : option Z :=
  shr 32 (__hash_32 val) (u32 (32 - bits)).

(** [hash_64] has two bodies, chosen by [BITS_PER_LONG]
    ([__SIZEOF_LONG__ * 8], fixed by the compiler); the value is an argument
    here.  The result is converted to the return type [uint32_t]. *)
Definition hash_64 (BITS_PER_LONG : Z) (val bits : Z) : option Z :=
  if decide (BITS_PER_LONG = 64) then
    r ← shr 64 (u64 (val * GOLDEN_RATIO_64)) (u32 (64 - bits)); Some (u32 r)
  else
    hash_32 (Z.lxor (u32 val) (__hash_32 (u32 (Z.shiftr val 32)))) bits.

End Hash.

(** ** list.h: circular doubly linked lists *)

Module DList.

Definition NULL : Z := 0.
Definition POISON_POINTER_DELTA : Z := 0.
Definition LIST_POISON1 : Z := 0x100 + POISON_POINTER_DELTA.
Definition LIST_POISON2 : Z := 0x122 + POISON_POINTER_DELTA.

(** [struct list_head { struct list_head *next, *prev; };] *)
Record list_head := mk_list_head { next : Z; prev : Z }.

(** The heap: the [list_head] structures by address. *)
Abbreviation mem := (gmap Z list_head).

(** [p->next], [p->next = v], [p->prev], [p->prev = v].  [READ_ONCE] and
    [WRITE_ONCE] are volatile accesses: plain reads and writes of the
    sequential program. *)
Definition get_next (p : Z) : M mem Z :=
  λ m, n ← m !! p; Some (next n, m).
Definition set_next (p v : Z) : M mem unit :=
  λ m, n ← m !! p; Some (tt, <[p := mk_list_head v (prev n)]> m).
Definition get_prev (p : Z) : M mem Z :=
  λ m, n ← m !! p; Some (prev n, m).
Definition set_prev (p v : Z) : M mem unit :=
  λ m, n ← m !! p; Some (tt, <[p := mk_list_head (next n) v]> m).

Definition INIT_LIST_HEAD (list : Z) : M mem unit :=
  set_next list list ;;
  set_prev list list.

Definition __list_add (new prev next : Z) : M mem unit :=
  set_prev next new ;;
  set_next new next ;;
  set_prev new prev ;;
  set_next prev new.

Definition list_add (new head : Z) : M mem unit :=
  n ← get_next head;
  __list_add new head n.

Definition list_add_tail (new head : Z) : M mem unit :=
  p ← get_prev head;
  __list_add new p head.

Definition __list_del (prev next : Z) : M mem unit :=
  set_prev next prev ;;
  set_next prev next.

Definition __list_del_clearprev (entry : Z) : M mem unit :=
  p ← get_prev entry;
  n ← get_next entry;
  __list_del p n ;;
  set_prev entry NULL.

Definition __list_del_entry (entry : Z) : M mem unit :=
  p ← get_prev entry;
  n ← get_next entry;
  __list_del p n.

Definition list_del (entry : Z) : M mem unit :=
  __list_del_entry entry ;;
  set_next entry LIST_POISON1 ;;
  set_prev entry LIST_POISON2.

Definition list_replace (old new : Z) : M mem unit :=
  n ← get_next old;
  set_next new n ;;
  nn ← get_next new;
  set_prev nn new ;;
  p ← get_prev old;
  set_prev new p ;;
  np ← get_prev new;
  set_next np new.

Definition list_replace_init (old new : Z) : M mem unit :=
  list_replace old new ;;
  INIT_LIST_HEAD old.

Definition list_swap (entry1 entry2 : Z) : M mem unit :=
  pos ← get_prev entry2;
  list_del entry2 ;;
  list_replace entry1 entry2 ;;
  list_add entry1 (if decide (pos = entry1) then entry2 else pos).

Definition list_del_init (entry : Z) : M mem unit :=
  __list_del_entry entry ;;
  INIT_LIST_HEAD entry.

Definition list_move (list head : Z) : M mem unit :=
  __list_del_entry list ;;
  list_add list head.

Definition list_move_tail (list head : Z) : M mem unit :=
  __list_del_entry list ;;
  list_add_tail list head.

Definition list_bulk_move_tail (head first last : Z) : M mem unit :=
  fp ← get_prev first;
  ln ← get_next last;
  set_next fp ln ;;
  ln ← get_next last;
  fp ← get_prev first;
  set_prev ln fp ;;
  hp ← get_prev head;
  set_next hp first ;;
  hp ← get_prev head;
  set_prev first hp ;;
  set_next last head ;;
  set_prev head last.

Definition list_is_first (list head : Z) : M mem bool :=
  p ← get_prev list;
  mret (bool_decide (p = head)).

Definition list_is_last (list head : Z) : M mem bool :=
  n ← get_next list;
  mret (bool_decide (n = head)).

Definition list_empty (head : Z) : M mem bool :=
  n ← get_next head;
  mret (bool_decide (n = head)).

Definition list_del_init_careful (entry : Z) : M mem unit :=
  __list_del_entry entry ;;
  set_prev entry entry ;;
  set_next entry entry.

Definition list_empty_careful (head : Z) : M mem bool :=
  n ← get_next head;
  if bool_decide (n = head) then
    p ← get_prev head;
    mret (bool_decide (n = p))
  else mret false.

Definition list_rotate_left (head : Z) : M mem unit :=
  e ← list_empty head;
  if (e : bool) then mret tt
  else
    first ← get_next head;
    list_move_tail first head.

Definition list_rotate_to_front (list head : Z) : M mem unit :=
  list_move_tail head list.

(** [!list_empty(head) && (head->next == head->prev)] *)
Definition list_is_singular (head : Z) : M mem bool :=
  e ← list_empty head;
  if (e : bool) then mret false
  else
    n ← get_next head;
    p ← get_prev head;
    mret (bool_decide (n = p)).

Definition __list_cut_position (list head entry : Z) : M mem unit :=
  new_first ← get_next entry;
  hn ← get_next head;
  set_next list hn ;;
  ln ← get_next list;
  set_prev ln list ;;
  set_prev list entry ;;
  set_next entry list ;;
  set_next head new_first ;;
  set_prev new_first head.

Definition list_cut_position (list head entry : Z) : M mem unit :=
  e ← list_empty head;
  if (e : bool) then mret tt
  else
    s ← list_is_singular head;
    skip ← (if (s : bool) then
              hn ← get_next head;
              mret (bool_decide (hn ≠ entry) && bool_decide (head ≠ entry))
            else mret false) : M mem bool;
    if (skip : bool) then mret tt
    else if decide (entry = head) then INIT_LIST_HEAD list
    else __list_cut_position list head entry.

Definition list_cut_before (list head entry : Z) : M mem unit :=
  hn ← get_next head;
  if decide (hn = entry) then INIT_LIST_HEAD list
  else
    hn ← get_next head;
    set_next list hn ;;
    ln ← get_next list;
    set_prev ln list ;;
    ep ← get_prev entry;
    set_prev list ep ;;
    lp ← get_prev list;
    set_next lp list ;;
    set_next head entry ;;
    set_prev entry head.

Definition __list_splice (list prev next : Z) : M mem unit :=
  first ← get_next list;
  last ← get_prev list;
  set_prev first prev ;;
  set_next prev first ;;
  set_next last next ;;
  set_prev next last.

Definition list_splice (list head : Z) : M mem unit :=
  e ← list_empty list;
  if (e : bool) then mret tt
  else
    hn ← get_next head;
    __list_splice list head hn.

Definition list_splice_tail (list head : Z) : M mem unit :=
  e ← list_empty list;
  if (e : bool) then mret tt
  else
    hp ← get_prev head;
    __list_splice list hp head.

Definition list_splice_init (list head : Z) : M mem unit :=
  e ← list_empty list;
  if (e : bool) then mret tt
  else
    hn ← get_next head;
    __list_splice list head hn ;;
    INIT_LIST_HEAD list.

Definition list_splice_tail_init (list head : Z) : M mem unit :=
  e ← list_empty list;
  if (e : bool) then mret tt
  else
    hp ← get_prev head;
    __list_splice list hp head ;;
    INIT_LIST_HEAD list.

(** [list_for_each(pos, head) body]:
    [for (pos = head->next; pos != head; pos = pos->next)], unrolled at most
    [fuel] times; the result is the trace of the cursor [pos]. *)
Fixpoint list_for_each_from (fuel : nat) (body : Z → M mem unit)
    (head pos : Z) : M mem (list Z) :=
  match fuel with
  | O => fault
  | S fuel =>
      if decide (pos = head) then mret []
      else
        body pos ;;
        n ← get_next pos;
        visited ← list_for_each_from fuel body head n;
        mret (pos :: visited)
  end.

Definition list_for_each (fuel : nat) (body : Z → M mem unit)
    (head : Z) : M mem (list Z) :=
  pos ← get_next head;
  list_for_each_from fuel body head pos.

(** [list_for_each_safe(pos, n, head) body]:
    [for (pos = head->next, n = pos->next; pos != head; pos = n, n = pos->next)].
    The loop is unrolled at most [fuel] times and faults when the fuel runs
    out.  The result is the trace of the loop: the values of the cursor [pos]
    the body was run on, in order. *)
Fixpoint list_for_each_safe_from (fuel : nat) (body : Z → M mem unit)
    (head pos n : Z) : M mem (list Z) :=
  match fuel with
  | O => fault
  | S fuel =>
      if decide (pos = head) then mret []
      else
        body pos ;;
        n' ← get_next n;
        visited ← list_for_each_safe_from fuel body head n n';
        mret (pos :: visited)
  end.

Definition list_for_each_safe (fuel : nat) (body : Z → M mem unit)
    (head : Z) : M mem (list Z) :=
  pos ← get_next head;
  n ← get_next pos;
  list_for_each_safe_from fuel body head pos n.

(** [container_of(ptr, type, member)], with [off = offsetof(type, member)],
    and its inverse [&pos->member]. *)
Definition container_of (off ptr : Z) : Z := ptr - off.
Definition member_of (off pos : Z) : Z := pos + off.

(** [list_for_each_entry_safe(pos, n, head, member) body]: the cursors are
    pointers to the containing structures,
    [for (pos = list_first_entry(head), n = list_next_entry(pos);
          &pos->member != head; pos = n, n = list_next_entry(n))]. *)
Fixpoint list_for_each_entry_safe_from (fuel : nat) (off : Z)
    (body : Z → M mem unit) (head pos n : Z) : M mem (list Z) :=
  match fuel with
  | O => fault
  | S fuel =>
      if decide (member_of off pos = head) then mret []
      else
        body pos ;;
        nn ← get_next (member_of off n);
        visited ← list_for_each_entry_safe_from fuel off body head n
                    (container_of off nn);
        mret (pos :: visited)
  end.

Definition list_for_each_entry_safe (fuel : nat) (off : Z)
    (body : Z → M mem unit) (head : Z) : M mem (list Z) :=
  first ← get_next head;
  nn ← get_next (member_of off (container_of off first));
  list_for_each_entry_safe_from fuel off body head
    (container_of off first) (container_of off nn).

(** *** Well-formed lists *)

(** The fields of the structure at an address, if there is one. *)
Definition nxt (m : mem) (a : Z) : option Z := next <$> m !! a.
Definition prv (m : mem) (a : Z) : option Z := prev <$> m !! a.

(** [a] and [b] are neighbours: [a->next == b] and [b->prev == a]. *)
Definition link (m : mem) (a b : Z) : Prop :=
  nxt m a = Some b ∧ prv m b = Some a.

(** Every two consecutive nodes of [xs] are neighbours. *)
Fixpoint seg (m : mem) (xs : list Z) : Prop :=
  match xs with
  | a :: (b :: _) as r => link m a b ∧ seg m r
  | _ => True
  end.

(** [dlist m h l]: [h] is the head of a well-formed list whose entries are,
    in iteration order, [l]: the nodes [h, l1, ..., lk] are distinct and
    [h, l1, ..., lk, h] are consecutive neighbours.  The empty list is the
    head linked to itself. *)
Definition dlist (m : mem) (h : Z) (l : list Z) : Prop :=
  NoDup (h :: l) ∧ seg m (h :: l ++ [h]).

(** A circular chain without a distinguished head. *)
Definition ring (m : mem) (R : list Z) : Prop :=
  NoDup R ∧ seg m R ∧ ∀ a b, last R = Some a → head R = Some b → link m a b.

(** [n] is reachable from [h] by following [next] pointers. *)
Inductive reachable (m : mem) (h : Z) : Z → Prop :=
  | reachable_refl : reachable m h h
  | reachable_next a b : reachable m h a → nxt m a = Some b → reachable m h b.

(** The reciprocal linkage at a node: [n->next->prev == n] and
    [n->prev->next == n]. *)
Definition reciprocal (m : mem) (n : Z) : Prop :=
  (∃ b, nxt m n = Some b ∧ prv m b = Some n)
  ∧ (∃ a, prv m n = Some a ∧ nxt m a = Some n).

(** The heaps agree outside the addresses in [S], and hold structures at the
    same addresses. *)
Definition frame (m m' : mem) (S : list Z) : Prop :=
  dom m' = dom m ∧ ∀ a, a ∉ S → m' !! a = m !! a.

(** The heap after a successful store in a field. *)
Definition upd_next (p v : Z) (m : mem) : mem :=
  alter (λ n, mk_list_head v (prev n)) p m.
Definition upd_prev (p v : Z) (m : mem) : mem :=
  alter (λ n, mk_list_head (next n) v) p m.

(** The four splices. *)
Definition splice_variant (tail init : bool) : Z → Z → M mem unit :=
  match tail, init with
  | false, false => list_splice
  | false, true => list_splice_init
  | true, false => list_splice_tail
  | true, true => list_splice_tail_init
  end.






(** *** Concrete heaps

    The list with head [1] and entries [2; 3], the node [4] outside any
    list, the list with head [5] and entry [6], and an uninitialised
    structure at [7]. *)
Definition ex_mem : mem :=
  list_to_map
    [(1, mk_list_head 2 3); (2, mk_list_head 3 1); (3, mk_list_head 1 2);
     (4, mk_list_head 0 0); (5, mk_list_head 6 6); (6, mk_list_head 5 5);
     (7, mk_list_head 9 8)].

(** The empty list with head [1], and the list with head [2] and entry
    [3]. *)
Definition ex_empty : mem :=
  list_to_map
    [(1, mk_list_head 1 1); (2, mk_list_head 3 3); (3, mk_list_head 2 2)].

(** The list with head [1] and entry [2], and the empty list with head [3]. *)
Definition ex_two : mem :=
  list_to_map
    [(1, mk_list_head 2 2); (2, mk_list_head 1 1); (3, mk_list_head 3 3)].

End DList.

(** ** hlist.h: lists with a single-pointer head *)

Module HList.

Definition NULL : Z := 0.
Definition LIST_POISON1 : Z := DList.LIST_POISON1.
Definition LIST_POISON2 : Z := DList.LIST_POISON2.

(** A [struct hlist_node **]: the null pointer or another integer cast to
    the type ([Raw]), the address [&h->first] of the pointer in a head, or
    the address [&n->next] of the pointer in a node. *)
Inductive pptr :=
  | Raw (a : Z)
  | FirstOf (h : Z)
  | NextOf (n : Z).

#[global] Instance pptr_eq_dec : EqDecision pptr.
Proof. solve_decision. Defined.

(** [struct hlist_head { struct hlist_node *first; };] *)
Record hlist_head := mk_hlist_head { first : Z }.

(** [struct hlist_node { struct hlist_node *next, **pprev; };] *)
Record hlist_node := mk_hlist_node { next : Z; pprev : pptr }.

(** The heap: the heads and the nodes by address. *)
Record hmem := mk_hmem {
  heads : gmap Z hlist_head;
  nodes : gmap Z hlist_node
}.

Definition get_first (h : Z) : M hmem Z :=
  λ m, x ← heads m !! h; Some (first x, m).
Definition set_first (h v : Z) : M hmem unit :=
  λ m, x ← heads m !! h;
       Some (tt, mk_hmem (<[h := mk_hlist_head v]> (heads m)) (nodes m)).
Definition get_next (n : Z) : M hmem Z :=
  λ m, x ← nodes m !! n; Some (next x, m).
Definition set_next (n v : Z) : M hmem unit :=
  λ m, x ← nodes m !! n;
       Some (tt, mk_hmem (heads m) (<[n := mk_hlist_node v (pprev x)]> (nodes m))).
Definition get_pprev (n : Z) : M hmem pptr :=
  λ m, x ← nodes m !! n; Some (pprev x, m).
Definition set_pprev (n : Z) (v : pptr) : M hmem unit :=
  λ m, x ← nodes m !! n;
       Some (tt, mk_hmem (heads m) (<[n := mk_hlist_node (next x) v]> (nodes m))).

(** [*p = v] for [p] a [struct hlist_node **]: a store in the field [p]
    points to; undefined through a pointer that is no field address. *)
Definition store_slot (p : pptr) (v : Z) : M hmem unit :=
  match p with
  | FirstOf h => set_first h v
  | NextOf n => set_next n v
  | Raw _ => fault
  end.

Definition INIT_HLIST_HEAD (ptr : Z) : M hmem unit :=
  set_first ptr NULL.

Definition INIT_HLIST_NODE (h : Z) : M hmem unit :=
  set_next h NULL ;;
  set_pprev h (Raw NULL).

Definition hlist_unhashed (h : Z) : M hmem bool :=
  p ← get_pprev h;
  mret (bool_decide (p = Raw NULL)).

Definition hlist_unhashed_lockless (h : Z) : M hmem bool :=
  p ← get_pprev h;
  mret (bool_decide (p = Raw NULL)).

Definition hlist_empty (h : Z) : M hmem bool :=
  f ← get_first h;
  mret (bool_decide (f = NULL)).

Definition __hlist_del (n : Z) : M hmem unit :=
  next ← get_next n;
  pprev ← get_pprev n;
  store_slot pprev next ;;
  if decide (next ≠ NULL) then set_pprev next pprev else mret tt.

Definition hlist_del (n : Z) : M hmem unit :=
  __hlist_del n ;;
  set_next n LIST_POISON1 ;;
  set_pprev n (Raw LIST_POISON2).

Definition hlist_del_init (n : Z) : M hmem unit :=
  u ← hlist_unhashed n;
  if (u : bool) then mret tt
  else
    __hlist_del n ;;
    INIT_HLIST_NODE n.

Definition hlist_add_head (n h : Z) : M hmem unit :=
  first ← get_first h;
  set_next n first ;;
  (if decide (first ≠ NULL) then set_pprev first (NextOf n) else mret tt) ;;
  set_first h n ;;
  set_pprev n (FirstOf h).

Definition hlist_add_before (n next : Z) : M hmem unit :=
  np ← get_pprev next;
  set_pprev n np ;;
  set_next n next ;;
  set_pprev next (NextOf n) ;;
  p ← get_pprev n;
  store_slot p n.

Definition hlist_add_behind (n prev : Z) : M hmem unit :=
  pn ← get_next prev;
  set_next n pn ;;
  set_next prev n ;;
  set_pprev n (NextOf prev) ;;
  nn ← get_next n;
  if decide (nn ≠ NULL) then
    nn ← get_next n;
    set_pprev nn (NextOf n)
  else mret tt.

Definition hlist_add_fake (n : Z) : M hmem unit :=
  set_pprev n (NextOf n).

Definition hlist_fake (h : Z) : M hmem bool :=
  p ← get_pprev h;
  mret (bool_decide (p = NextOf h)).

(** [!n->next && n->pprev == &h->first] *)
Definition hlist_is_singular_node (n h : Z) : M hmem bool :=
  nx ← get_next n;
  if decide (nx = NULL) then
    p ← get_pprev n;
    mret (bool_decide (p = FirstOf h))
  else mret false.

Definition hlist_move_list (old new : Z) : M hmem unit :=
  f ← get_first old;
  set_first new f ;;
  nf ← get_first new;
  (if decide (nf ≠ NULL) then
     nf ← get_first new;
     set_pprev nf (FirstOf new)
   else mret tt) ;;
  set_first old NULL.

(** *** Well-formed hash lists *)

(** [*p] for a [struct hlist_node **]: the pointer in the field [p] points
    to. *)
Definition load_slot (m : hmem) (p : pptr) : option Z :=
  match p with
  | FirstOf h => first <$> heads m !! h
  | NextOf n => next <$> nodes m !! n
  | Raw _ => None
  end.

(** [n->pprev], if there is a node at [n]. *)
Definition ppv (m : hmem) (n : Z) : option pptr := pprev <$> nodes m !! n.

(** The nodes [l] are chained from the pointer field [s]: [s] points to the
    first, whose [pprev] is [s]; its [next] field points to the second,
    whose [pprev] is the address of that field; and so on.  The [next] field
    of the last node is left open. *)
Fixpoint hlinks (m : hmem) (s : pptr) (l : list Z) : Prop :=
  match l with
  | [] => True
  | n :: r =>
      n ≠ NULL ∧ load_slot m s = Some n ∧ ppv m n = Some s
      ∧ hlinks m (NextOf n) r
  end.

(** The pointer field after the nodes [l] chained from [s]. *)
Definition last_slot (s : pptr) (l : list Z) : pptr :=
  match last l with
  | Some n => NextOf n
  | None => s
  end.

(** [hlist m h l]: the list rooted at the head [h] holds the distinct nodes
    [l], in order, and ends with a null pointer. *)
Definition hlist (m : hmem) (h : Z) (l : list Z) : Prop :=
  NoDup l ∧ hlinks m (FirstOf h) l
  ∧ load_slot m (last_slot (FirstOf h) l) = Some NULL.

(** [n] is a node of the list rooted at [h]: it is reached from [h->first]
    through [next] pointers before the null pointer. *)
Inductive in_hlist (m : hmem) (h : Z) : Z → Prop :=
  | in_hlist_first n :
      load_slot m (FirstOf h) = Some n → n ≠ NULL → in_hlist m h n
  | in_hlist_next a n :
      in_hlist m h a → load_slot m (NextOf a) = Some n → n ≠ NULL →
      in_hlist m h n.

(** The invariant at a node: [*(n->pprev) == n], and
    [n->next->pprev == &n->next] when [n->next] is not null. *)
Definition node_inv (m : hmem) (n : Z) : Prop :=
  (∃ p, ppv m n = Some p ∧ load_slot m p = Some n)
  ∧ ∃ nx, load_slot m (NextOf n) = Some nx
          ∧ (nx ≠ NULL → ppv m nx = Some (NextOf n)).

Definition hlist_invariant (m : hmem) (h : Z) : Prop :=
  ∃ l, hlist m h l ∧ ∀ n, in_hlist m h n → n ∈ l ∧ node_inv m n.

(** The heap after a successful store. *)
Definition upd_slot (p : pptr) (v : Z) (m : hmem) : hmem :=
  match p with
  | FirstOf h => mk_hmem (alter (λ _, mk_hlist_head v) h (heads m)) (nodes m)
  | NextOf n =>
      mk_hmem (heads m) (alter (λ x, mk_hlist_node v (pprev x)) n (nodes m))
  | Raw _ => m
  end.
Definition upd_pprev (n : Z) (v : pptr) (m : hmem) : hmem :=
  mk_hmem (heads m) (alter (λ x, mk_hlist_node (next x) v) n (nodes m)).

(** The pointer [p] is the address of a field of a structure of the heap. *)
Definition valid (m : hmem) (p : pptr) : Prop := is_Some (load_slot m p).

(** The operations the invariant is stated for, with their arguments. *)
Inductive hlist_op :=
  | INIT_HLIST_HEAD_op (ptr : Z)
  | INIT_HLIST_NODE_op (h : Z)
  | hlist_add_head_op (n h : Z)
  | hlist_add_before_op (n next : Z)
  | hlist_add_behind_op (n prev : Z)
  | hlist_del_op (n : Z)
  | hlist_del_init_op (n : Z)
  | hlist_move_list_op (old new : Z).

Definition run_hlist_op (o : hlist_op) : M hmem unit :=
  match o with
  | INIT_HLIST_HEAD_op ptr => INIT_HLIST_HEAD ptr
  | INIT_HLIST_NODE_op h => INIT_HLIST_NODE h
  | hlist_add_head_op n h => hlist_add_head n h
  | hlist_add_before_op n next => hlist_add_before n next
  | hlist_add_behind_op n prev => hlist_add_behind n prev
  | hlist_del_op n => hlist_del n
  | hlist_del_init_op n => hlist_del_init n
  | hlist_move_list_op old new => hlist_move_list old new
  end.

(** The documented preconditions of an operation, for the list rooted at
    [h] with nodes [l]: a node to insert or to initialise is a non-null
    allocated node outside the list, a node to remove or to insert next to
    is a node of the list, a head is allocated.  Only an operation on two
    heads asks for a second head [h2]. *)
Inductive hlist_op_pre (m : hmem) (h : Z) (l : list Z) : hlist_op → Prop :=
  | hpre_init_head : hlist_op_pre m h l (INIT_HLIST_HEAD_op h)
  | hpre_init_head_other h2 :
      h2 ≠ h → valid m (FirstOf h2) →
      hlist_op_pre m h l (INIT_HLIST_HEAD_op h2)
  | hpre_init_node n :
      n ∉ l → valid m (NextOf n) → hlist_op_pre m h l (INIT_HLIST_NODE_op n)
  | hpre_add_head n :
      n ∉ l → n ≠ NULL → valid m (NextOf n) →
      hlist_op_pre m h l (hlist_add_head_op n h)
  | hpre_add_before n nx :
      nx ∈ l → n ∉ l → n ≠ NULL → valid m (NextOf n) →
      hlist_op_pre m h l (hlist_add_before_op n nx)
  | hpre_add_behind n pv :
      pv ∈ l → n ∉ l → n ≠ NULL → valid m (NextOf n) →
      hlist_op_pre m h l (hlist_add_behind_op n pv)
  | hpre_del n : n ∈ l → hlist_op_pre m h l (hlist_del_op n)
  | hpre_del_init n : n ∈ l → hlist_op_pre m h l (hlist_del_init_op n)
  | hpre_del_init_unhashed n :
      ppv m n = Some (Raw NULL) →
      hlist_op_pre m h l (hlist_del_init_op n)
  | hpre_move_list_from h2 :
      h2 ≠ h → valid m (FirstOf h2) →
      hlist_op_pre m h l (hlist_move_list_op h h2)
  | hpre_move_list_to h2 l2 :
      h2 ≠ h → hlist m h2 l2 →
      hlist_op_pre m h l (hlist_move_list_op h2 h).

(** *** A concrete heap

    The list rooted at the head [1] with the nodes [10; 20; 30], the empty
    list rooted at the head [2], and the unhashed node [40]. *)
Definition ex_hmem : hmem :=
  mk_hmem
    (list_to_map [(1, mk_hlist_head 10); (2, mk_hlist_head NULL)])
    (list_to_map
       [(10, mk_hlist_node 20 (FirstOf 1)); (20, mk_hlist_node 30 (NextOf 10));
        (30, mk_hlist_node NULL (NextOf 20));
        (40, mk_hlist_node NULL (Raw NULL))]).

End HList.

(** ** hash.h: hashing of pointers *)

Module HashPtr.
Import Hash.

(** [hash_long(val, bits)]: [hash_32(val, bits)] when [BITS_PER_LONG == 32],
    [hash_64(val, bits)] when [BITS_PER_LONG == 64]. *)
Definition hash_long (BITS_PER_LONG val bits : Z) : option Z :=
  if decide (BITS_PER_LONG = 32) then hash_32 val bits
  else hash_64 BITS_PER_LONG val bits.

(** [(unsigned long)ptr]: the address as an integer of [BITS_PER_LONG]
    bits. *)
Definition ulong (BITS_PER_LONG z : Z) : Z := z mod 2 ^ BITS_PER_LONG.

(** [return hash_long((unsigned long)ptr, bits);] *)
Definition hash_ptr (BITS_PER_LONG ptr bits : Z) : option Z :=
  hash_long BITS_PER_LONG (ulong BITS_PER_LONG ptr) bits.

(** [fold32_ptr]: [val ^= (val >> 32)] with a 64-bit [long] only, then the
    conversion to [uint32_t]. *)
Definition fold32_ptr (BITS_PER_LONG ptr : Z) : Z :=
  let val := ulong BITS_PER_LONG ptr in
  let val := if decide (BITS_PER_LONG = 64)
             then Z.lxor val (Z.shiftr val 32) else val in
  u32 val.

End HashPtr.

(** ** list.h: entries and the remaining iteration macros *)

Module DListIter.
Import DList.

(** [list_for_each_continue(pos, head) body]:
    [for (pos = pos->next; pos != (head); pos = pos->next)]. *)
Definition list_for_each_continue (fuel : nat) (body : Z → M mem unit)
    (head pos : Z) : M mem (list Z) :=
  n ← get_next pos;
  list_for_each_from fuel body head n.

(** [list_for_each_prev(pos, head) body]:
    [for (pos = (head)->prev; pos != (head); pos = pos->prev)]. *)
Fixpoint list_for_each_prev_from (fuel : nat) (body : Z → M mem unit)
    (head pos : Z) : M mem (list Z) :=
  match fuel with
  | O => fault
  | S fuel =>
      if decide (pos = head) then mret []
      else
        body pos ;;
        p ← get_prev pos;
        visited ← list_for_each_prev_from fuel body head p;
        mret (pos :: visited)
  end.

Definition list_for_each_prev (fuel : nat) (body : Z → M mem unit)
    (head : Z) : M mem (list Z) :=
  pos ← get_prev head;
  list_for_each_prev_from fuel body head pos.

(** [list_for_each_prev_safe(pos, n, head) body]:
    [for (pos = (head)->prev, n = pos->prev; pos != (head);
          pos = n, n = pos->prev)]. *)
Fixpoint list_for_each_prev_safe_from (fuel : nat) (body : Z → M mem unit)
    (head pos n : Z) : M mem (list Z) :=
  match fuel with
  | O => fault
  | S fuel =>
      if decide (pos = head) then mret []
      else
        body pos ;;
        n' ← get_prev n;
        visited ← list_for_each_prev_safe_from fuel body head n n';
        mret (pos :: visited)
  end.

Definition list_for_each_prev_safe (fuel : nat) (body : Z → M mem unit)
    (head : Z) : M mem (list Z) :=
  pos ← get_prev head;
  n ← get_prev pos;
  list_for_each_prev_safe_from fuel body head pos n.

(** [list_entry(ptr, type, member)], with [off = offsetof(type, member)]. *)
Definition list_entry (off ptr : Z) : Z := container_of off ptr.

(** [list_first_entry(ptr, type, member)] and
    [list_last_entry(ptr, type, member)]. *)
Definition list_first_entry (off ptr : Z) : M mem Z :=
  n ← get_next ptr;
  mret (list_entry off n).

Definition list_last_entry (off ptr : Z) : M mem Z :=
  p ← get_prev ptr;
  mret (list_entry off p).

(** [list_first_entry_or_null(ptr, type, member)]:
    [pos__ != head__ ? list_entry(pos__, type, member) : NULL]. *)
Definition list_first_entry_or_null (off ptr : Z) : M mem Z :=
  pos ← get_next ptr;
  mret (if decide (pos ≠ ptr) then list_entry off pos else NULL).

(** [list_next_entry(pos, member)] and [list_prev_entry(pos, member)]. *)
Definition list_next_entry (off pos : Z) : M mem Z :=
  n ← get_next (member_of off pos);
  mret (list_entry off n).

Definition list_prev_entry (off pos : Z) : M mem Z :=
  p ← get_prev (member_of off pos);
  mret (list_entry off p).

(** [list_entry_is_head(pos, head, member)]: [&pos->member == (head)]. *)
Definition list_entry_is_head (off pos head : Z) : bool :=
  bool_decide (member_of off pos = head).

(** [list_for_each_entry_from(pos, head, member) body]:
    [for (; !list_entry_is_head(pos, head, member);
          pos = list_next_entry(pos, member))]. *)
Fixpoint list_for_each_entry_from (fuel : nat) (off : Z)
    (body : Z → M mem unit) (head pos : Z) : M mem (list Z) :=
  match fuel with
  | O => fault
  | S fuel =>
      if list_entry_is_head off pos head then mret []
      else
        body pos ;;
        n ← list_next_entry off pos;
        visited ← list_for_each_entry_from fuel off body head n;
        mret (pos :: visited)
  end.

(** [list_for_each_entry(pos, head, member) body]: the same loop, from
    [pos = list_first_entry(head, typeof( *pos), member)]. *)
Definition list_for_each_entry (fuel : nat) (off : Z)
    (body : Z → M mem unit) (head : Z) : M mem (list Z) :=
  pos ← list_first_entry off head;
  list_for_each_entry_from fuel off body head pos.

(** [list_for_each_entry_continue(pos, head, member) body]: the same loop,
    from [pos = list_next_entry(pos, member)]. *)
Definition list_for_each_entry_continue (fuel : nat) (off : Z)
    (body : Z → M mem unit) (head pos : Z) : M mem (list Z) :=
  n ← list_next_entry off pos;
  list_for_each_entry_from fuel off body head n.

(** [list_for_each_entry_from_reverse(pos, head, member) body]:
    [for (; !list_entry_is_head(pos, head, member);
          pos = list_prev_entry(pos, member))]. *)
Fixpoint list_for_each_entry_from_reverse (fuel : nat) (off : Z)
    (body : Z → M mem unit) (head pos : Z) : M mem (list Z) :=
  match fuel with
  | O => fault
  | S fuel =>
      if list_entry_is_head off pos head then mret []
      else
        body pos ;;
        p ← list_prev_entry off pos;
        visited ← list_for_each_entry_from_reverse fuel off body head p;
        mret (pos :: visited)
  end.

(** [list_for_each_entry_reverse(pos, head, member) body]: the same loop,
    from [pos = list_last_entry(head, typeof( *pos), member)]. *)
Definition list_for_each_entry_reverse (fuel : nat) (off : Z)
    (body : Z → M mem unit) (head : Z) : M mem (list Z) :=
  pos ← list_last_entry off head;
  list_for_each_entry_from_reverse fuel off body head pos.

(** [list_for_each_entry_continue_reverse(pos, head, member) body]: the same
    loop, from [pos = list_prev_entry(pos, member)]. *)
Definition list_for_each_entry_continue_reverse (fuel : nat) (off : Z)
    (body : Z → M mem unit) (head pos : Z) : M mem (list Z) :=
  p ← list_prev_entry off pos;
  list_for_each_entry_from_reverse fuel off body head p.

(** [list_for_each_entry_safe_reverse(pos, n, head, member) body]:
    [for (pos = list_last_entry(head, typeof( *pos), member),
              n = list_prev_entry(pos, member);
          !list_entry_is_head(pos, head, member);
          pos = n, n = list_prev_entry(n, member))]. *)
Fixpoint list_for_each_entry_safe_reverse_from (fuel : nat) (off : Z)
    (body : Z → M mem unit) (head pos n : Z) : M mem (list Z) :=
  match fuel with
  | O => fault
  | S fuel =>
      if list_entry_is_head off pos head then mret []
      else
        body pos ;;
        n' ← list_prev_entry off n;
        visited ← list_for_each_entry_safe_reverse_from fuel off body head
                    n n';
        mret (pos :: visited)
  end.

Definition list_for_each_entry_safe_reverse (fuel : nat) (off : Z)
    (body : Z → M mem unit) (head : Z) : M mem (list Z) :=
  pos ← list_last_entry off head;
  n ← list_prev_entry off pos;
  list_for_each_entry_safe_reverse_from fuel off body head pos n.

End DListIter.

(** ** hlist.h: the iteration macros *)

Module HListIter.
Import HList.

(** [hlist_for_each(pos, head) body]:
    [for (pos = (head)->first; pos ; pos = pos->next)], unrolled at most
    [fuel] times; the result is the trace of the cursor [pos]. *)
Fixpoint hlist_for_each_from (fuel : nat) (body : Z → M hmem unit)
    (pos : Z) : M hmem (list Z) :=
  match fuel with
  | O => fault
  | S fuel =>
      if decide (pos ≠ NULL) then
        body pos ;;
        n ← get_next pos;
        visited ← hlist_for_each_from fuel body n;
        mret (pos :: visited)
      else mret []
  end.

Definition hlist_for_each (fuel : nat) (body : Z → M hmem unit)
    (head : Z) : M hmem (list Z) :=
  pos ← get_first head;
  hlist_for_each_from fuel body pos.

(** [hlist_for_each_safe(pos, n, head) body]:
    [for (pos = (head)->first; pos && ({ n = pos->next; 1; }); pos = n)]:
    the successor is read in the loop test, before the body runs. *)
Fixpoint hlist_for_each_safe_from (fuel : nat) (body : Z → M hmem unit)
    (pos : Z) : M hmem (list Z) :=
  match fuel with
  | O => fault
  | S fuel =>
      if decide (pos ≠ NULL) then
        n ← get_next pos;
        body pos ;;
        visited ← hlist_for_each_safe_from fuel body n;
        mret (pos :: visited)
      else mret []
  end.

Definition hlist_for_each_safe (fuel : nat) (body : Z → M hmem unit)
    (head : Z) : M hmem (list Z) :=
  pos ← get_first head;
  hlist_for_each_safe_from fuel body pos.

(** [hlist_entry(ptr, type, member)] and
    [hlist_entry_safe(ptr, type, member)]:
    [____ptr ? hlist_entry(____ptr, type, member) : NULL]. *)
Definition hlist_entry (off ptr : Z) : Z := DList.container_of off ptr.

Definition hlist_entry_safe (off ptr : Z) : Z :=
  if decide (ptr ≠ NULL) then hlist_entry off ptr else NULL.

(** [hlist_for_each_entry_from(pos, member) body]:
    [for (; pos;
          pos = hlist_entry_safe((pos)->member.next, typeof( *(pos)), member))]. *)
Fixpoint hlist_for_each_entry_from (fuel : nat) (off : Z)
    (body : Z → M hmem unit) (pos : Z) : M hmem (list Z) :=
  match fuel with
  | O => fault
  | S fuel =>
      if decide (pos ≠ NULL) then
        body pos ;;
        n ← get_next (DList.member_of off pos);
        visited ← hlist_for_each_entry_from fuel off body
                    (hlist_entry_safe off n);
        mret (pos :: visited)
      else mret []
  end.

(** [hlist_for_each_entry(pos, head, member) body]: the same loop, from
    [pos = hlist_entry_safe((head)->first, typeof( *(pos)), member)]. *)
Definition hlist_for_each_entry (fuel : nat) (off : Z)
    (body : Z → M hmem unit) (head : Z) : M hmem (list Z) :=
  f ← get_first head;
  hlist_for_each_entry_from fuel off body (hlist_entry_safe off f).

(** [hlist_for_each_entry_continue(pos, member) body]: the same loop, from
    [pos = hlist_entry_safe((pos)->member.next, typeof( *(pos)), member)]. *)
Definition hlist_for_each_entry_continue (fuel : nat) (off : Z)
    (body : Z → M hmem unit) (pos : Z) : M hmem (list Z) :=
  n ← get_next (DList.member_of off pos);
  hlist_for_each_entry_from fuel off body (hlist_entry_safe off n).

(** [hlist_for_each_entry_safe(pos, n, head, member) body]:
    [for (pos = hlist_entry_safe((head)->first, typeof( *pos), member);
          pos && ({ n = pos->member.next; 1; });
          pos = hlist_entry_safe(n, typeof( *pos), member))]. *)
Fixpoint hlist_for_each_entry_safe_from (fuel : nat) (off : Z)
    (body : Z → M hmem unit) (pos : Z) : M hmem (list Z) :=
  match fuel with
  | O => fault
  | S fuel =>
      if decide (pos ≠ NULL) then
        n ← get_next (DList.member_of off pos);
        body pos ;;
        visited ← hlist_for_each_entry_safe_from fuel off body
                    (hlist_entry_safe off n);
        mret (pos :: visited)
      else mret []
  end.

Definition hlist_for_each_entry_safe (fuel : nat) (off : Z)
    (body : Z → M hmem unit) (head : Z) : M hmem (list Z) :=
  f ← get_first head;
  hlist_for_each_entry_safe_from fuel off body (hlist_entry_safe off f).

End HListIter.

(** ** module-string: conversions of strings to integers *)

Module ZoroStr.

(** A C string: its characters before the terminating null. *)
Definition cstring := list ascii.

Definition ERANGE : Z := 34.

(** The limits of [int], [short] and their unsigned versions. *)
Definition INT_MAX : Z := 2 ^ 31 - 1.
Definition INT_MIN : Z := - 2 ^ 31.
Definition UINT_MAX : Z := 2 ^ 32 - 1.
Definition SHRT_MAX : Z := 2 ^ 15 - 1.
Definition SHRT_MIN : Z := - 2 ^ 15.
Definition USHRT_MAX : Z := 2 ^ 16 - 1.
Definition UCHAR_MAX : Z := 2 ^ 8 - 1.

(** Conversion to a signed or an unsigned type of [w] bits. *)
Definition to_signed (w z : Z) : Z := (z + 2 ^ (w - 1)) mod 2 ^ w - 2 ^ (w - 1).
Definition to_unsigned (w z : Z) : Z := z mod 2 ^ w.

(** The objects of the caller a conversion writes besides [*res]: [errno]
    and, when [endptr] is not null, [*endptr]. *)
Record cstate := mk_cstate { errno : Z; endp : cstring }.

(** The result of a conversion: the value returned and the value stored in
    [*res], if one is stored. *)
Definition conv := (Z * option Z)%type.

Section Conversions.

(** The width of [long] and the signedness of [char]. *)
Variable BITS_PER_LONG : Z.
Variable char_is_signed : bool.

Definition LONG_MAX : Z := 2 ^ (BITS_PER_LONG - 1) - 1.
Definition LONG_MIN : Z := - 2 ^ (BITS_PER_LONG - 1).
Definition ULONG_MAX : Z := 2 ^ BITS_PER_LONG - 1.
Definition CHAR_MAX : Z := if char_is_signed then 2 ^ 7 - 1 else 2 ^ 8 - 1.
Definition CHAR_MIN : Z := if char_is_signed then - 2 ^ 7 else 0.

(** The C library: [strtol(s, &end, 0)] and [strtoul(s, &end, 0)] give the
    converted value, the rest [end] of the string, and the error number they
    store in [errno] if they store one. *)
Variable strtol : cstring → Z * cstring * option Z.
Variable strtoul : cstring → Z * cstring * option Z.

(** [errno = 0;] *)
Definition clear_errno : M cstate unit :=
  λ st, Some (tt, mk_cstate 0 (endp st)).

(** [tmp = strtol(s, &end, 0);] and [tmp = strtoul(s, &end, 0);] *)
Definition call_strtol (s : cstring) : M cstate (Z * cstring) :=
  λ st, let '(tmp, e, err) := strtol s in
        Some ((tmp, e), mk_cstate (default (errno st) err) (endp st)).

Definition call_strtoul (s : cstring) : M cstate (Z * cstring) :=
  λ st, let '(tmp, e, err) := strtoul s in
        Some ((tmp, e), mk_cstate (default (errno st) err) (endp st)).

Definition get_errno : M cstate Z := λ st, Some (errno st, st).

(** [( *endptr) = end;] *)
Definition set_endptr (e : cstring) : M cstate unit :=
  λ st, Some (tt, mk_cstate (errno st) e).

(** [s] is [None] for a null pointer; [res] and [endptr] tell whether the
    pointers are not null. *)
Definition __zorostr_strtol (s : option cstring) (res endptr : bool)
    : M cstate conv :=
  match s with
  | None => mret (-1, None)
  | Some s =>
      if negb res || bool_decide (s = []) then mret (-1, None)
      else
        clear_errno ;;
        '(tmp, e) ← call_strtol s;
        err ← get_errno;
        if bool_decide (err = ERANGE)
           && (bool_decide (tmp = LONG_MAX) || bool_decide (tmp = LONG_MIN))
           || bool_decide (err ≠ 0) && bool_decide (tmp = 0)
        then mret (-1, None)
        else if negb endptr then
          if bool_decide (e ≠ []) then mret (-1, None)
          else mret (0, Some tmp)
        else
          set_endptr e ;;
          mret (0, Some tmp)
  end.

Definition __zorostr_strtoul (s : option cstring) (res endptr : bool)
    : M cstate conv :=
  match s with
  | None => mret (-1, None)
  | Some s =>
      if negb res || bool_decide (s = [])
         || bool_decide (head s = Some "-"%char)
      then mret (-1, None)
      else
        clear_errno ;;
        '(tmp, e) ← call_strtoul s;
        err ← get_errno;
        if bool_decide (err = ERANGE) && bool_decide (tmp = ULONG_MAX)
           || bool_decide (err ≠ 0) && bool_decide (tmp = 0)
        then mret (-1, None)
        else if negb endptr then
          if bool_decide (e ≠ []) then mret (-1, None)
          else mret (0, Some tmp)
        else
          set_endptr e ;;
          mret (0, Some tmp)
  end.

(** The value of the local [tmp] after a call that returned [0]; the read of
    a [tmp] that was not written is undefined. *)
Definition read_tmp (tmp : option Z) : M cstate Z :=
  match tmp with
  | Some v => mret v
  | None => fault
  end.

Definition __zorostr_strtoi (s : option cstring) (res endptr : bool)
    : M cstate conv :=
  if bool_decide (s = None) || negb res then mret (-1, None)
  else
    '(r, tmp) ← __zorostr_strtol s true endptr;
    if bool_decide (r ≠ 0) then mret (-1, None)
    else
      tmp ← read_tmp tmp;
      if bool_decide (tmp > INT_MAX) || bool_decide (tmp < INT_MIN)
      then mret (-1, None)
      else mret (0, Some (to_signed 32 tmp)).

Definition __zorostr_strtoui (s : option cstring) (res endptr : bool)
    : M cstate conv :=
  if bool_decide (s = None) || negb res then mret (-1, None)
  else
    '(r, tmp) ← __zorostr_strtoul s true endptr;
    if bool_decide (r ≠ 0) then mret (-1, None)
    else
      tmp ← read_tmp tmp;
      if bool_decide (tmp > UINT_MAX) then mret (-1, None)
      else mret (0, Some (to_unsigned 32 tmp)).

Definition __zorostr_strtos (s : option cstring) (res endptr : bool)
    : M cstate conv :=
  if bool_decide (s = None) || negb res then mret (-1, None)
  else
    '(r, tmp) ← __zorostr_strtol s true endptr;
    if bool_decide (r ≠ 0) then mret (-1, None)
    else
      tmp ← read_tmp tmp;
      if bool_decide (tmp > SHRT_MAX) || bool_decide (tmp < SHRT_MIN)
      then mret (-1, None)
      else mret (0, Some (to_signed 16 tmp)).

Definition __zorostr_strtous (s : option cstring) (res endptr : bool)
    : M cstate conv :=
  if bool_decide (s = None) || negb res then mret (-1, None)
  else
    '(r, tmp) ← __zorostr_strtoul s true endptr;
    if bool_decide (r ≠ 0) then mret (-1, None)
    else
      tmp ← read_tmp tmp;
      if bool_decide (tmp > USHRT_MAX) then mret (-1, None)
      else mret (0, Some (to_unsigned 16 tmp)).

Definition __zorostr_strtoc (s : option cstring) (res endptr : bool)
    : M cstate conv :=
  if bool_decide (s = None) || negb res then mret (-1, None)
  else
    '(r, tmp) ← __zorostr_strtol s true endptr;
    if bool_decide (r ≠ 0) then mret (-1, None)
    else
      tmp ← read_tmp tmp;
      if bool_decide (tmp > CHAR_MAX) || bool_decide (tmp < CHAR_MIN)
      then mret (-1, None)
      else mret (0, Some (if char_is_signed then to_signed 8 tmp
                          else to_unsigned 8 tmp)).

Definition __zorostr_strtouc (s : option cstring) (res endptr : bool)
    : M cstate conv :=
  if bool_decide (s = None) || negb res then mret (-1, None)
  else
    '(r, tmp) ← __zorostr_strtoul s true endptr;
    if bool_decide (r ≠ 0) then mret (-1, None)
    else
      tmp ← read_tmp tmp;
      if bool_decide (tmp > UCHAR_MAX) then mret (-1, None)
      else mret (0, Some (to_unsigned 8 tmp)).

(** [zorostr_strtol(_s, _res)] and the like: [endptr] is [NULL]. *)
Definition zorostr_strtol s res := __zorostr_strtol s res false.
Definition zorostr_strtoul s res := __zorostr_strtoul s res false.
Definition zorostr_strtoi s res := __zorostr_strtoi s res false.
Definition zorostr_strtoui s res := __zorostr_strtoui s res false.

End Conversions.

(** What a run of a wide conversion can be: a refusal before the call of
    the library, a refusal after it, or a success. *)
Definition early (s : option cstring) (res : bool) : Prop :=
  s = None ∨ s = Some [] ∨ res = false.

(** A conversion to a narrower type, by its bounds and its cast. *)
Definition narrowing (wide : option cstring → bool → bool → M cstate conv)
    (out_of_range : Z → bool) (cast : Z → Z)
    (s : option cstring) (res endptr : bool) : M cstate conv :=
  if bool_decide (s = None) || negb res then mret (-1, None)
  else
    '(r, tmp) ← wide s true endptr;
    if bool_decide (r ≠ 0) then mret (-1, None)
    else
      tmp ← read_tmp tmp;
      if out_of_range tmp then mret (-1, None)
      else mret (0, Some (cast tmp)).

(** A library function for examples: it converts every string to [7] and
    consumes it whole. *)
Definition ex_strtoul : cstring → Z * cstring * option Z :=
  λ _, (7, [], None).

End ZoroStr.

(** ** Reasoning about computations *)

Lemma wp_bind {St A B} (c : M St A) (k : A → M St B) s Q :
  wp c s (λ a s', wp (k a) s' Q) → wp (c ≫= k) s Q.
Proof.
  intros (a & s' & Hc & b & s'' & Hk & HQ). exists b, s''. split; [|done].
  unfold mbind, M_bind. by rewrite Hc.
Qed.

Lemma wp_ret {St A} (a : A) (s : St) Q : Q a s → wp (mret a) s Q.
Proof. intros HQ. by exists a, s. Qed.

Lemma wp_mono {St A} (c : M St A) s (Q Q' : A → St → Prop) :
  wp c s Q → (∀ a s', Q a s' → Q' a s') → wp c s Q'.
Proof. intros (a & s' & Hc & HQ) HQQ'. exists a, s'. eauto. Qed.

Lemma wp_run {St A} (c : M St A) s Q :
  wp c s Q → ∃ a s', c s = Some (a, s') ∧ Q a s'.
Proof. done. Qed.

Lemma wp_inv {St A} (c : M St A) s a s' (Q : A → St → Prop) :
  c s = Some (a, s') → wp c s Q → Q a s'.
Proof. intros Hc (a' & s'' & Hc' & HQ). congruence. Qed.

Lemma bind_inv {St A B} (c : M St A) (k : A → M St B) s b s'' :
  (c ≫= k) s = Some (b, s'') →
  ∃ a s', c s = Some (a, s') ∧ k a s' = Some (b, s'').
Proof.
  unfold mbind, M_bind. destruct (c s) as [[a s']|]; [eauto|done].
Qed.

(** ** Proofs about hash.h *)

Module HashSpec.
Import Hash.

Lemma shr_bound (w x n : Z) :
  0 ≤ x < 2 ^ w → 0 ≤ n ≤ w → 0 ≤ Z.shiftr x n < 2 ^ (w - n).
Proof.
  intros [Hx0 Hx] [Hn0 Hn]. rewrite Z.shiftr_div_pow2 by lia.
  split; [apply Z.div_pos; lia|].
  apply Z.div_lt_upper_bound; [lia|].
  rewrite <- Z.pow_add_r by lia. replace (n + (w - n)) with w by lia. done.
Qed.

(** C10: on [1 <= bits <= 32], [hash_32 val bits] is the product
    [val * 0x61C88647] reduced modulo [2^32] and shifted right by
    [32 - bits], a value below [2^bits]; [hash_64 val bits] is defined and
    below [2^bits] with either body (a 64-bit or a 32-bit [long]). *)
Theorem hash_bits_bound (val bits : Z) :
  1 ≤ bits ≤ 32 →
  (0 ≤ val < 2 ^ 32 →
     hash_32 val bits
       = Some (Z.shiftr ((val * 0x61C88647) mod 2 ^ 32) (32 - bits))
     ∧ ∃ r, hash_32 val bits = Some r ∧ 0 ≤ r < 2 ^ bits)
  ∧ (0 ≤ val < 2 ^ 64 →
     ∀ BITS_PER_LONG, BITS_PER_LONG = 32 ∨ BITS_PER_LONG = 64 →
     ∃ r, hash_64 BITS_PER_LONG val bits = Some r ∧ 0 ≤ r < 2 ^ bits).
Proof.
  intros Hb.
  assert (H32 : ∀ v, ∃ r, hash_32 v bits = Some r ∧ 0 ≤ r < 2 ^ bits
                     ∧ r = Z.shiftr ((v * 0x61C88647) mod 2 ^ 32) (32 - bits)).
  { intros v. unfold hash_32, shr, __hash_32, u32, GOLDEN_RATIO_32.
    rewrite (Z.mod_small (32 - bits)) by lia.
    rewrite decide_True by lia. eexists; split; [done|]. split; [|done].
    pose proof (shr_bound 32 ((v * 1640531527) mod 2 ^ 32) (32 - bits)) as Hs.
    replace (32 - (32 - bits)) with bits in Hs by lia.
    apply Hs; [apply Z.mod_pos_bound; lia | lia]. }
  split.
  - intros _. destruct (H32 val) as (r & Hr & Hlt & ->). eauto.
  - intros Hv bpl [-> | ->]; unfold hash_64.
    + rewrite decide_False by lia.
      destruct (H32 (Z.lxor (u32 val) (__hash_32 (u32 (Z.shiftr val 32)))))
        as (r & Hr & Hlt & _). eauto.
    + rewrite decide_True by done. unfold shr, u64.
      replace (u32 (64 - bits)) with (64 - bits)
        by (unfold u32; rewrite Z.mod_small; lia).
      rewrite decide_True by lia. simpl.
      pose proof (shr_bound 64 ((val * GOLDEN_RATIO_64) mod 2 ^ 64) (64 - bits))
        as Hs.
      replace (64 - (64 - bits)) with bits in Hs by lia.
      destruct Hs as [Hs0 Hs1]; [apply Z.mod_pos_bound; lia | lia |].
      assert (2 ^ bits ≤ 2 ^ 32) by (apply Z.pow_le_mono_r; lia).
      eexists; split; [done|]. unfold u32. rewrite Z.mod_small by lia. lia.
Qed.

Lemma hash_bits_bound_witness :
  1 ≤ 8 ≤ 32
  ∧ ((0 ≤ 12345 < 2 ^ 32 →
        hash_32 12345 8
          = Some (Z.shiftr ((12345 * 0x61C88647) mod 2 ^ 32) (32 - 8))
        ∧ ∃ r, hash_32 12345 8 = Some r ∧ 0 ≤ r < 2 ^ 8)
     ∧ (0 ≤ 12345 < 2 ^ 64 →
        ∀ BITS_PER_LONG, BITS_PER_LONG = 32 ∨ BITS_PER_LONG = 64 →
        ∃ r, hash_64 BITS_PER_LONG 12345 8 = Some r ∧ 0 ≤ r < 2 ^ 8)).
Proof. split; [lia | apply (hash_bits_bound 12345 8); lia]. Defined.

End HashSpec.

(** ** Proofs about list.h *)

Module DListSpec.
Import DList.

(** *** Field accesses *)

Lemma nxt_Some_alloc m a b : nxt m a = Some b → a ∈ dom m.
Proof.
  unfold nxt. intros H. apply elem_of_dom. by destruct (m !! a).
Qed.

Lemma prv_Some_alloc m a b : prv m a = Some b → a ∈ dom m.
Proof.
  unfold prv. intros H. apply elem_of_dom. by destruct (m !! a).
Qed.

Lemma dom_upd_next p v m : dom (upd_next p v m) = dom m.
Proof. apply dom_alter_L. Qed.

Lemma dom_upd_prev p v m : dom (upd_prev p v m) = dom m.
Proof. apply dom_alter_L. Qed.

Lemma nxt_upd_next p v m a :
  p ∈ dom m →
  nxt (upd_next p v m) a = if decide (a = p) then Some v else nxt m a.
Proof.
  intros [n Hn]%elem_of_dom. unfold nxt, upd_next. case_decide as Hd.
  - subst. by rewrite lookup_alter_eq, Hn.
  - by rewrite lookup_alter_ne.
Qed.

Lemma prv_upd_next p v m a : prv (upd_next p v m) a = prv m a.
Proof.
  unfold prv, upd_next. destruct (decide (a = p)) as [->|Hd].
  - rewrite lookup_alter_eq. by destruct (m !! p).
  - by rewrite lookup_alter_ne.
Qed.

Lemma prv_upd_prev p v m a :
  p ∈ dom m →
  prv (upd_prev p v m) a = if decide (a = p) then Some v else prv m a.
Proof.
  intros [n Hn]%elem_of_dom. unfold prv, upd_prev. case_decide as Hd.
  - subst. by rewrite lookup_alter_eq, Hn.
  - by rewrite lookup_alter_ne.
Qed.

Lemma nxt_upd_prev p v m a : nxt (upd_prev p v m) a = nxt m a.
Proof.
  unfold nxt, upd_prev. destruct (decide (a = p)) as [->|Hd].
  - rewrite lookup_alter_eq. by destruct (m !! p).
  - by rewrite lookup_alter_ne.
Qed.

Lemma lookup_upd_next_ne p v m a : a ≠ p → upd_next p v m !! a = m !! a.
Proof. intros. unfold upd_next. by rewrite lookup_alter_ne. Qed.

Lemma lookup_upd_prev_ne p v m a : a ≠ p → upd_prev p v m !! a = m !! a.
Proof. intros. unfold upd_prev. by rewrite lookup_alter_ne. Qed.

(** A structure is determined by its two fields. *)
Lemma lookup_fields m m' a :
  nxt m' a = nxt m a → prv m' a = prv m a → m' !! a = m !! a.
Proof.
  unfold nxt, prv. destruct (m' !! a) as [[]|], (m !! a) as [[]|]; simpl; congruence.
Qed.

Lemma mem_fields_eq (m m' : mem) :
  (∀ a, nxt m' a = nxt m a) → (∀ a, prv m' a = prv m a) → m' = m.
Proof. intros Hn Hp. apply map_eq. intros a. by apply lookup_fields. Qed.

Lemma wp_get_next p v m Q : nxt m p = Some v → Q v m → wp (get_next p) m Q.
Proof.
  unfold nxt. intros Hp HQ. exists v, m. split; [|done]. unfold get_next.
  destruct (m !! p); simplify_eq/=. done.
Qed.

Lemma wp_get_prev p v m Q : prv m p = Some v → Q v m → wp (get_prev p) m Q.
Proof.
  unfold prv. intros Hp HQ. exists v, m. split; [|done]. unfold get_prev.
  destruct (m !! p); simplify_eq/=. done.
Qed.

Lemma wp_set_next p v m Q :
  p ∈ dom m → Q tt (upd_next p v m) → wp (set_next p v) m Q.
Proof.
  intros [n Hn]%elem_of_dom HQ. exists tt, (upd_next p v m). split; [|done].
  unfold set_next, upd_next. rewrite Hn. simpl. do 2 f_equal.
  apply map_eq. intros a. destruct (decide (a = p)) as [->|].
  - by rewrite lookup_insert_eq, lookup_alter_eq, Hn.
  - by rewrite lookup_insert_ne, lookup_alter_ne.
Qed.

Lemma wp_set_prev p v m Q :
  p ∈ dom m → Q tt (upd_prev p v m) → wp (set_prev p v) m Q.
Proof.
  intros [n Hn]%elem_of_dom HQ. exists tt, (upd_prev p v m). split; [|done].
  unfold set_prev, upd_prev. rewrite Hn. simpl. do 2 f_equal.
  apply map_eq. intros a. destruct (decide (a = p)) as [->|].
  - by rewrite lookup_insert_eq, lookup_alter_eq, Hn.
  - by rewrite lookup_insert_ne, lookup_alter_ne.
Qed.


(** *** Chains of neighbours *)

Lemma seg_cons m a b r : seg m (a :: b :: r) ↔ link m a b ∧ seg m (b :: r).
Proof. done. Qed.

Lemma seg_tail m a r : seg m (a :: r) → seg m r.
Proof. destruct r; [done|]. by intros [_ ?]. Qed.

Lemma seg_app m xs ys :
  seg m (xs ++ ys) ↔
  seg m xs ∧ seg m ys ∧ ∀ a b, last xs = Some a → head ys = Some b → link m a b.
Proof.
  induction xs as [|x [|x' xs] IH]; simpl in *.
  - naive_solver.
  - destruct ys as [|y ys]; simpl; [naive_solver|].
    split; [intros [? ?]; split_and!; [done..|naive_solver]|].
    intros (_ & ? & H). split; [|done]. by apply H.
  - rewrite IH. naive_solver.
Qed.

Lemma seg_head_link m a r b : seg m (a :: r) → head r = Some b → link m a b.
Proof. destruct r; intros; simplify_eq/=. naive_solver. Qed.

Lemma seg_cons_head m a r b :
  head r = Some b → link m a b → seg m r → seg m (a :: r).
Proof. destruct r; intros; simplify_eq/=; done. Qed.

Lemma seg_frame m m' xs :
  NoDup xs → seg m xs →
  (∀ a, a ∈ xs → last xs ≠ Some a → nxt m' a = nxt m a) →
  (∀ a, a ∈ xs → head xs ≠ Some a → prv m' a = prv m a) →
  seg m' xs.
Proof.
  induction xs as [|x [|x' xs] IH]; [done..|].
  intros [Hx Hnd]%NoDup_cons [[Hn Hp] Hs] Hfn Hfp.
  split.
  - split.
    + rewrite Hfn; [done|set_solver|]. rewrite last_cons_cons.
      intros Hl%last_Some_elem_of. set_solver.
    + rewrite Hfp; [done|set_solver|]. simpl. set_solver.
  - apply IH; [done..| |].
    + intros a Ha Hl. apply Hfn; [set_solver|]. by rewrite last_cons_cons.
    + intros a Ha Hh. apply Hfp; [set_solver|]. simpl. intros ?. set_solver.
Qed.

Lemma seg_frame_all m m' xs :
  seg m xs → (∀ a, a ∈ xs → m' !! a = m !! a) → seg m' xs.
Proof.
  intros Hs Heq.
  assert (Hl : ∀ a b, a ∈ xs → b ∈ xs → link m a b → link m' a b).
  { intros a b Ha Hb [? ?]. unfold link, nxt, prv. rewrite !Heq by done. done. }
  induction xs as [|x [|x' xs] IH]; [done..|].
  destruct Hs as [Hxx Hs]. split.
  - apply Hl; [set_solver..|done].
  - apply IH; [done|set_solver|]. intros. apply Hl; set_solver.
Qed.

(** *** Rings *)

Lemma dlist_ring m h l : dlist m h l ↔ ring m (h :: l).
Proof.
  unfold dlist, ring. rewrite (app_comm_cons l [h] h), seg_app. simpl.
  split.
  - intros (? & ? & _ & H). split_and!; [done..|]. intros; simplify_eq. eauto.
  - intros (? & ? & H). split_and!; [done..|]. intros; simplify_eq. eauto.
Qed.

Lemma ring_rotate m xs ys : ring m (xs ++ ys) → ring m (ys ++ xs).
Proof.
  intros (Hnd & Hs & Hc). apply seg_app in Hs as (Hx & Hy & Hxy).
  split_and!.
  - eapply NoDup_Permutation_proper; [|done]. apply Permutation_app_comm.
  - apply seg_app. split_and!; [done..|]. intros a b Ha Hb. apply Hc.
    + destruct ys; [done|]. by rewrite last_app_cons.
    + by destruct xs.
  - destruct xs as [|x xs]; [by rewrite app_nil_r in *|].
    destruct ys as [|y ys]; [by rewrite app_nil_r in *|].
    rewrite last_app_cons. simpl. intros a b Ha ?; simplify_eq. by apply Hxy.
Qed.

Lemma ring_frame m m' R :
  ring m R → (∀ a, a ∈ R → m' !! a = m !! a) → ring m' R.
Proof.
  intros (Hnd & Hs & Hc) Heq. split_and!; [done|by eapply seg_frame_all|].
  intros a b Ha Hb. destruct (Hc a b) as [? ?]; [done..|].
  apply last_Some_elem_of in Ha. apply head_Some_elem_of in Hb.
  unfold link, nxt, prv. by rewrite !Heq.
Qed.

Lemma ring_nil m : ring m [].
Proof. split_and!; [apply NoDup_nil_2|done..]. Qed.

Lemma ring_singleton m a : ring m [a] ↔ link m a a.
Proof.
  unfold ring. simpl. split.
  - intros (_ & _ & H). by apply H.
  - intros H. split_and!; [apply NoDup_singleton|done|]. by intros; simplify_eq.
Qed.



(** *** Symbolic execution *)

Ltac solve_alloc :=
  repeat first [ rewrite dom_upd_next | rewrite dom_upd_prev ];
  first [ assumption
        | eapply nxt_Some_alloc; eassumption
        | eapply prv_Some_alloc; eassumption ].

Ltac msimpl :=
  repeat first
    [ rewrite nxt_upd_prev | rewrite prv_upd_next
    | rewrite dom_upd_next | rewrite dom_upd_prev
    | rewrite nxt_upd_next by solve_alloc
    | rewrite prv_upd_prev by solve_alloc ].

Ltac mdec :=
  repeat first
    [ rewrite decide_True by (done || congruence)
    | rewrite decide_False by (done || congruence) ].

Ltac mread := msimpl; mdec; first [ eassumption | reflexivity ].

Ltac mstep :=
  lazymatch goal with
  | |- wp (_ ≫= _) _ _ => apply wp_bind
  | |- wp (mret _) _ _ => apply wp_ret
  | |- wp (get_next _) _ _ => eapply wp_get_next; [mread|]
  | |- wp (get_prev _) _ _ => eapply wp_get_prev; [mread|]
  | |- wp (set_next _ _) _ _ => apply wp_set_next; [solve_alloc|]
  | |- wp (set_prev _ _) _ _ => apply wp_set_prev; [solve_alloc|]
  end.

Ltac msteps := repeat mstep.

(** The frame of a sequence of stores. *)
Ltac mframe :=
  split; [by msimpl|];
  let a := fresh "a" in let Ha := fresh "Ha" in
  intros a Ha; apply lookup_fields; msimpl;
  repeat (rewrite decide_False; [|set_solver]); done.

(** A field of a node that no store of the sequence has written. *)
Ltac mother :=
  msimpl; rewrite ?decide_False by (first [done | congruence | set_solver]);
  done.

(** *** The single operations on rings *)

Lemma wp___list_add new p q R m Q :
  ring m R → last R = Some p → head R = Some q → new ∉ R → new ∈ dom m →
  (∀ m', ring m' (R ++ [new]) → frame m m' (new :: R) → Q tt m') →
  wp (__list_add new p q) m Q.
Proof.
  intros (Hnd & Hs & Hc) Hp Hq Hnew Hal HQ.
  destruct (Hc p q) as [Hpq Hqp]; [done..|].
  pose proof (last_Some_elem_of _ _ Hp) as HpR.
  pose proof (head_Some_elem_of _ _ Hq) as HqR.
  assert (new ≠ p) by set_solver. assert (new ≠ q) by set_solver.
  unfold __list_add. msteps. apply HQ.
  - split_and!.
    + apply NoDup_app. split_and!; [done|set_solver|apply NoDup_singleton].
    + apply seg_app. split_and!; [|done|].
      * eapply seg_frame; [done..| |]; intros a Ha Hne; mother.
      * intros a b ? ?; simplify_eq/=. split; mread.
    + rewrite last_snoc. intros a b ? Hb; simplify_eq.
      assert (b = q) as -> by (destruct R; simplify_eq/=; done).
      split; mread.
  - mframe.
Qed.


Lemma wp_INIT_LIST_HEAD x m Q :
  x ∈ dom m →
  (∀ m', ring m' [x] → frame m m' [x] → Q tt m') →
  wp (INIT_LIST_HEAD x) m Q.
Proof.
  intros Hal HQ. unfold INIT_LIST_HEAD. msteps. apply HQ.
  - apply ring_singleton. split; mread.
  - mframe.
Qed.

Lemma ring_cons_fields m x R p q :
  ring m (x :: R) → last R = Some p → head R = Some q →
  nxt m x = Some q ∧ prv m x = Some p ∧ nxt m p = Some x ∧ prv m q = Some x.
Proof.
  intros (Hnd & Hs & Hc) Hp Hq.
  destruct (seg_head_link _ _ _ _ Hs Hq) as [? ?].
  destruct (Hc p x) as [? ?]; [|done|done].
  destruct R; [done|]. by rewrite last_cons_cons.
Qed.

Lemma ring_nonempty_ends (R : list Z) :
  R ≠ [] → ∃ p q, last R = Some p ∧ head R = Some q.
Proof.
  intros HR. destruct R as [|q R]; [done|].
  destruct (last (q :: R)) as [p|] eqn:Hl; [eauto|].
  by apply last_None in Hl.
Qed.

Lemma wp___list_del_entry x R m Q :
  ring m (x :: R) →
  (∀ m', ring m' R → frame m m' R → Q tt m') →
  wp (__list_del_entry x) m Q.
Proof.
  intros Hr HQ. destruct (decide (R = [])) as [->|HR].
  - apply ring_singleton in Hr as [Hn Hp].
    unfold __list_del_entry, __list_del. msteps. apply HQ; [apply ring_nil|].
    split; [by msimpl|]. intros a _. apply lookup_fields; msimpl.
    + case_decide; by subst.
    + case_decide; by subst.
  - destruct (ring_nonempty_ends R HR) as (p & q & Hp & Hq).
    destruct (ring_cons_fields _ _ _ _ _ Hr Hp Hq) as (Hxq & Hxp & Hpx & Hqx).
    destruct Hr as (Hnd & Hs & Hc). apply NoDup_cons in Hnd as [HxR Hnd].
    pose proof (last_Some_elem_of _ _ Hp) as HpR.
    pose proof (head_Some_elem_of _ _ Hq) as HqR.
    unfold __list_del_entry, __list_del. msteps. apply HQ.
    + split_and!; [done| |].
      * eapply seg_frame; [done|by eapply seg_tail| |]; intros a Ha Hne; mother.
      * intros a b ? ?; simplify_eq. split; mread.
    + mframe.
Qed.

Lemma wp_list_replace old new R m Q :
  ring m (old :: R) → new ∉ old :: R → new ∈ dom m →
  (∀ m', ring m' (new :: R) → frame m m' (new :: old :: R) → Q tt m') →
  wp (list_replace old new) m Q.
Proof.
  intros Hr Hnew Hal HQ. assert (new ≠ old) by set_solver.
  destruct (decide (R = [])) as [->|HR].
  - apply ring_singleton in Hr as [Hn Hp].
    unfold list_replace. msteps. apply HQ.
    + apply ring_singleton. split; mread.
    + mframe.
  - destruct (ring_nonempty_ends R HR) as (p & q & Hp & Hq).
    destruct (ring_cons_fields _ _ _ _ _ Hr Hp Hq) as (Hxq & Hxp & Hpx & Hqx).
    destruct Hr as (Hnd & Hs & Hc). apply NoDup_cons in Hnd as [HxR Hnd].
    pose proof (last_Some_elem_of _ _ Hp) as HpR.
    pose proof (head_Some_elem_of _ _ Hq) as HqR.
    assert (old ≠ q) by set_solver. assert (old ≠ p) by set_solver.
    assert (new ≠ q) by set_solver. assert (new ≠ p) by set_solver.
    unfold list_replace. msteps. apply HQ.
    + split_and!.
      * apply NoDup_cons. split; [set_solver|done].
      * eapply seg_cons_head; [done|split; mread|].
        eapply seg_frame; [done|by eapply seg_tail| |]; intros a Ha Hne; mother.
      * intros a b Ha ?; simplify_eq/=.
        assert (a = p) as -> by (destruct R; simplify_eq/=; congruence).
        split; mread.
    + mframe.
Qed.


Lemma last_app_nonempty {A} (xs ys : list A) :
  ys ≠ [] → last (xs ++ ys) = last ys.
Proof. destruct ys; [done|]. intros _. by rewrite last_app_cons. Qed.

Lemma head_app_nonempty {A} (xs ys : list A) :
  xs ≠ [] → head (xs ++ ys) = head xs.
Proof. by destruct xs. Qed.

Lemma wp___list_splice s p n A B m Q :
  ring m (s :: A) → A ≠ [] → ring m B →
  last B = Some p → head B = Some n →
  (∀ a, a ∈ s :: A → a ∉ B) →
  (∀ m', ring m' (B ++ A) → frame m m' (A ++ B) → Q tt m') →
  wp (__list_splice s p n) m Q.
Proof.
  intros HrA HA (HndB & HsB & HcB) Hprev Hnext Hdisj HQ.
  destruct (ring_nonempty_ends A HA) as (la & fi & Hlast & Hfirst).
  destruct (ring_cons_fields _ _ _ _ _ HrA Hlast Hfirst)
    as (Hlf & Hll & _ & _).
  destruct HrA as (HndA & HsA & HcA). apply NoDup_cons in HndA as [HlA HndA].
  destruct (HcB p n) as [Hpn Hnp]; [done..|].
  pose proof (last_Some_elem_of _ _ Hlast).
  pose proof (head_Some_elem_of _ _ Hfirst).
  pose proof (last_Some_elem_of _ _ Hprev).
  pose proof (head_Some_elem_of _ _ Hnext).
  assert (fi ≠ p) by set_solver. assert (fi ≠ n) by set_solver.
  assert (la ≠ p) by set_solver. assert (la ≠ n) by set_solver.
  assert (is_Some (nxt m la) ∧ is_Some (prv m fi)) as [[? ?] [? ?]].
  { destruct (HcA la s) as [? _]; [by rewrite last_cons, Hlast|done|].
    destruct (seg_head_link _ _ _ _ HsA Hfirst) as [_ ?]. eauto. }
  unfold __list_splice. msteps. apply HQ.
  - split_and!.
    + apply NoDup_app. split_and!; [done|set_solver|done].
    + apply seg_app. split_and!.
      * eapply seg_frame; [done..| |]; intros a Ha Hne; mother.
      * eapply seg_frame; [done|by eapply seg_tail| |];
          intros a Ha Hne; mother.
      * intros a b ? ?; simplify_eq. split; mread.
    + rewrite last_app_nonempty by done. intros a b ? Hb; simplify_eq.
      assert (b = n) as ->.
      { destruct B; simplify_eq/=; done. }
      split; mread.
  - mframe.
Qed.

(** The heap after the six stores of a cut: the nodes [X] of [h] pass to
    [d]. *)
Lemma cut_heap d h e X Y m :
  ring m (h :: X ++ Y) → last X = Some e →
  d ∉ h :: X ++ Y → d ∈ dom m →
  ∃ first new_first,
    head X = Some first ∧ head (Y ++ [h]) = Some new_first ∧
    nxt m h = Some first ∧ prv m first = Some h ∧
    nxt m e = Some new_first ∧ prv m new_first = Some e ∧
    first ≠ new_first ∧ d ≠ first ∧ d ≠ e ∧ h ≠ e ∧ e ≠ new_first ∧
    ∀ m',
      m' = upd_prev new_first h (upd_next h new_first (upd_next e d
             (upd_prev d e (upd_prev first d (upd_next d first m))))) →
      ring m' (d :: X) ∧ ring m' (h :: Y) ∧ frame m m' (d :: h :: X ++ Y).
Proof.
  intros Hr Hentry Hlist Hal.
  assert (X ≠ []) as HX by (by intros ->).
  destruct (head X) as [first|] eqn:Hfirst; [|by destruct X].
  apply (ring_rotate _ [h]) in Hr as Hr'.
  rewrite <- app_assoc in Hr'. apply (ring_rotate _ X) in Hr'.
  destruct (head (Y ++ [h])) as [new_first|] eqn:Hnf; [|by destruct Y].
  destruct Hr as (Hnd & Hs & Hc). destruct Hr' as (_ & Hs' & _).
  apply seg_app in Hs' as (HsY & HsX & Hj).
  destruct (seg_head_link m h (X ++ Y) first) as [Hhf Hfh]; [done| |].
  { by rewrite head_app_nonempty. }
  apply (seg_app m (h :: X) Y) in Hs as Hs2. destruct Hs2 as (_ & _ & Hj2).
  assert (link m e new_first) as [Hen Hne].
  { destruct Y as [|y Y].
    - simpl in Hnf; simplify_eq. apply Hc; [|done].
      by rewrite app_nil_r, last_cons, Hentry.
    - simpl in Hnf; simplify_eq. apply Hj2; [|done].
      by rewrite last_cons, Hentry. }
  apply NoDup_cons in Hnd as [HhXY Hnd].
  apply NoDup_app in Hnd as (HndX & HXY & HndY).
  pose proof (last_Some_elem_of _ _ Hentry).
  pose proof (head_Some_elem_of _ _ Hfirst).
  pose proof (head_Some_elem_of _ _ Hnf) as HnfY.
  assert (d ≠ h) by set_solver. assert (d ≠ e) by set_solver.
  assert (d ≠ first) by set_solver. assert (d ≠ new_first) by set_solver.
  assert (h ≠ e) by set_solver. assert (h ≠ first) by set_solver.
  assert (e ≠ new_first) by set_solver.
  assert (first ≠ new_first) by set_solver.
  exists first, new_first. split_and!; [done..|]. intros m' ->. split_and!.
  - split_and!.
    + apply NoDup_cons. split; [set_solver|done].
    + eapply seg_cons_head; [exact Hfirst|split; mread|].
      eapply seg_frame; [done|exact HsX| |]; intros a Ha Hne'; mother.
    + rewrite last_cons, Hentry. intros a b ? ?; simplify_eq/=. split; mread.
  - split_and!.
    + apply NoDup_cons. split; [set_solver|done].
    + destruct Y as [|y Y]; [done|]. simpl in Hnf; simplify_eq.
      split; [split; mread|].
      eapply seg_frame; [done|by apply seg_app in HsY as (? & _)| |];
        intros a Ha Hne'; mother.
    + intros a b Ha ?; simplify_eq/=. destruct Y as [|y Y].
      * simpl in *; simplify_eq. split; mread.
      * simpl in Hnf; simplify_eq. rewrite last_cons_cons in Ha.
        destruct (Hc a b) as [? ?]; [|done|].
        { rewrite last_cons, last_app_nonempty by done. by rewrite Ha. }
        pose proof (last_Some_elem_of _ _ Ha).
        split; mother.
  - mframe.
Qed.

Lemma wp___list_cut_position d h e X Y m Q :
  ring m (h :: X ++ Y) → last X = Some e →
  d ∉ h :: X ++ Y → d ∈ dom m →
  (∀ m', ring m' (d :: X) → ring m' (h :: Y) →
         frame m m' (d :: h :: X ++ Y) → Q tt m') →
  wp (__list_cut_position d h e) m Q.
Proof.
  intros Hr Hentry Hlist Hal HQ.
  destruct (cut_heap _ _ _ _ _ _ Hr Hentry Hlist Hal)
    as (first & new_first & ? & ? & ? & ? & ? & ? & ? & ? & ? & ? & ? & Hm').
  unfold __list_cut_position. msteps.
  edestruct Hm' as (? & ? & ?); [done|]. by apply HQ.
Qed.

Lemma wp_list_cut_before_ring d h e X Y m Q :
  ring m (h :: X ++ Y) → head (Y ++ [h]) = Some e →
  d ∉ h :: X ++ Y → d ∈ dom m →
  (∀ m', ring m' (d :: X) → ring m' (h :: Y) →
         frame m m' (d :: h :: X ++ Y) → Q tt m') →
  wp (list_cut_before d h e) m Q.
Proof.
  intros Hr He Hd Hal HQ. destruct (decide (X = [])) as [->|HX].
  - simpl in *. destruct Hr as (Hnd & Hs & Hc).
    assert (nxt m h = Some e) as Hhe.
    { destruct Y; simplify_eq/=; [by apply Hc|]. by destruct Hs as [[? ?] ?]. }
    unfold list_cut_before. mstep. mstep. rewrite decide_True by done.
    apply wp_INIT_LIST_HEAD; [done|]. intros m' Hr' [Hdom Hfr]. apply HQ.
    + done.
    + eapply ring_frame; [done|]. intros a Ha. apply Hfr. set_solver.
    + split; [done|]. intros a Ha. apply Hfr. set_solver.
  - destruct (ring_nonempty_ends X HX) as (la & ? & Hla & _).
    destruct (cut_heap _ _ _ _ _ _ Hr Hla Hd Hal)
      as (first & new_first & ? & ? & ? & ? & ? & ? & ? & ? & ? & ? & ? & Hm').
    simplify_eq. assert (d ≠ h) by set_solver.
    unfold list_cut_before. mstep. mstep. rewrite decide_False by done.
    msteps. edestruct Hm' as (? & ? & ?); [done|]. by apply HQ.
Qed.

Lemma wp_list_bulk_move_tail_ring h fi la X F Y m Q :
  ring m (h :: X ++ F ++ Y) → head F = Some fi → last F = Some la →
  (∀ m', ring m' (h :: X ++ Y ++ F) → frame m m' (h :: X ++ F ++ Y) →
         Q tt m') →
  wp (list_bulk_move_tail h fi la) m Q.
Proof.
  intros Hr Hfi Hla HQ.
  assert (F ≠ []) as HF by (by intros ->).
  destruct (last (h :: X)) as [fp|] eqn:Hfp; [|by apply last_None in Hfp].
  destruct (head (Y ++ [h])) as [ln|] eqn:Hln; [|by destruct Y].
  pose proof Hr as (Hnd & Hs & Hc).
  rewrite app_comm_cons in Hs.
  apply seg_app in Hs as (HsP & HsFY & HjP).
  apply seg_app in HsFY as (HsF & HsY & HjF).
  destruct (HjP fp fi) as [Hfpfi Hfifp]; [done|by rewrite head_app_nonempty|].
  apply NoDup_cons in Hnd as [HhXFY Hnd'].
  apply NoDup_app in Hnd' as (HndX & HXFY & Hnd').
  apply NoDup_app in Hnd' as (HndF & HFY & HndY).
  pose proof (last_Some_elem_of _ _ Hfp) as Hfp_in.
  pose proof (head_Some_elem_of _ _ Hfi).
  pose proof (last_Some_elem_of _ _ Hla).
  destruct (decide (Y = [])) as [->|HY].
  - simpl in Hln. simplify_eq. rewrite app_nil_r in *.
    destruct (Hc la ln) as [Hlah Hhla]; [|done|].
    { by rewrite last_cons, last_app_nonempty, Hla. }
    assert (ln ≠ la) by set_solver. assert (ln ≠ fi) by set_solver.
    assert (fp ≠ la) by set_solver. assert (fp ≠ fi) by set_solver.
    unfold list_bulk_move_tail. msteps.
    match goal with |- Q () ?m1 => assert (m1 = m) as -> end.
    { apply mem_fields_eq; intros a; msimpl;
        repeat case_decide; subst; congruence. }
    apply HQ; [done|]. by split.
  - destruct (last Y) as [hp|] eqn:Hhp; [|by apply last_None in Hhp].
    rewrite head_app_nonempty in Hln by done.
    destruct (HjF la ln) as [Hlaln Hlnla]; [done..|].
    destruct (Hc hp h) as [Hhph Hhhp]; [|done|].
    { by rewrite last_cons, !last_app_nonempty, Hhp by (by destruct F, Y). }
    pose proof (head_Some_elem_of _ _ Hln).
    pose proof (last_Some_elem_of _ _ Hhp).
    assert (fp ≠ la) by set_solver. assert (fp ≠ fi) by set_solver.
    assert (fp ≠ hp) by set_solver. assert (fp ≠ ln) by set_solver.
    assert (h ≠ la) by set_solver. assert (h ≠ fi) by set_solver.
    assert (h ≠ hp) by set_solver. assert (h ≠ ln) by set_solver.
    assert (hp ≠ la) by set_solver. assert (hp ≠ fi) by set_solver.
    assert (ln ≠ la) by set_solver. assert (ln ≠ fi) by set_solver.
    unfold list_bulk_move_tail. msteps. apply HQ.
    + split_and!.
      * apply NoDup_cons. split; [set_solver|].
        apply NoDup_app. split_and!; [done|set_solver|].
        apply NoDup_app. split_and!; [done|set_solver|done].
      * rewrite app_comm_cons. apply seg_app. split_and!.
        -- eapply seg_frame; [by apply NoDup_cons; set_solver|done| |];
             intros a Ha Hne; mother.
        -- apply seg_app. split_and!.
           ++ eapply seg_frame; [done..| |]; intros a Ha Hne; mother.
           ++ eapply seg_frame; [done..| |]; intros a Ha Hne; mother.
           ++ intros a b ? ?; simplify_eq. split; mread.
        -- rewrite head_app_nonempty by done.
           intros a b ? ?; simplify_eq. split; mread.
      * rewrite last_cons, !last_app_nonempty, Hla by (by destruct F, Y).
        intros a b ? ?; simplify_eq/=. split; mread.
    + mframe.
Qed.


Lemma frame_dom m m' S a : frame m m' S → a ∈ dom m → a ∈ dom m'.
Proof. intros [-> _]. done. Qed.

Lemma frame_weaken m m' S S' : frame m m' S → S ⊆ S' → frame m m' S'.
Proof. intros [? Hf] HS. split; [done|]. intros a Ha. apply Hf. set_solver. Qed.

Lemma frame_trans m m' m'' S S' S'' :
  frame m m' S → frame m' m'' S' → S ⊆ S'' → S' ⊆ S'' → frame m m'' S''.
Proof.
  intros [Hd Hf] [Hd' Hf'] HS HS'. split; [congruence|].
  intros a Ha. rewrite Hf', Hf; [done|set_solver..].
Qed.

Lemma frame_refl m S : frame m m S.
Proof. by split. Qed.

Lemma ring_frame_disjoint m m' S R :
  ring m R → frame m m' S → (∀ a, a ∈ R → a ∉ S) → ring m' R.
Proof. intros Hr [_ Hf] Hd. eapply ring_frame; [done|]. intros a Ha. eauto. Qed.

Lemma ring_last_next m R p q :
  ring m R → last R = Some p → head R = Some q → nxt m p = Some q.
Proof. intros (_ & _ & Hc) Hp Hq. by destruct (Hc p q). Qed.

Lemma ring_head_prev m R p q :
  ring m R → last R = Some p → head R = Some q → prv m q = Some p.
Proof. intros (_ & _ & Hc) Hp Hq. by destruct (Hc p q). Qed.

Lemma ring_alloc m R a : ring m R → a ∈ R → a ∈ dom m.
Proof.
  intros Hr Ha. apply list_elem_of_split in Ha as (xs & ys & ->).
  apply (ring_rotate _ xs) in Hr. simpl in Hr.
  destruct (last (a :: ys ++ xs)) as [p|] eqn:Hp; [|by apply last_None in Hp].
  eapply prv_Some_alloc, ring_head_prev; done.
Qed.

(** The frame of a sequence of operations, from the frames of its steps. *)
Ltac mframes :=
  repeat match goal with H : frame _ _ _ |- _ => destruct H as [? ?] end;
  split; [congruence|];
  let c := fresh "c" in let Hc := fresh "Hc" in
  intros c Hc;
  repeat match goal with
         | H : ∀ a, a ∉ _ → ?m' !! a = _ |- ?m' !! _ = _ =>
             rewrite H by set_solver
         end;
  done.

(** *** The list operations on rings *)

Lemma wp_list_add_ring new ref R m Q :
  ring m R → last R = Some ref → new ∉ R → new ∈ dom m →
  (∀ m', ring m' (R ++ [new]) → frame m m' (new :: R) → Q tt m') →
  wp (list_add new ref) m Q.
Proof.
  intros Hr Hl Hnew Hal HQ.
  destruct (head R) as [q|] eqn:Hq; [|by destruct R].
  unfold list_add. mstep. eapply wp_get_next; [by eapply ring_last_next|].
  by eapply wp___list_add.
Qed.

Lemma wp_list_add_tail_ring new ref R m Q :
  ring m R → head R = Some ref → new ∉ R → new ∈ dom m →
  (∀ m', ring m' (R ++ [new]) → frame m m' (new :: R) → Q tt m') →
  wp (list_add_tail new ref) m Q.
Proof.
  intros Hr Hh Hnew Hal HQ.
  destruct (last R) as [p|] eqn:Hp; [|by apply last_None in Hp; subst].
  unfold list_add_tail. mstep. eapply wp_get_prev; [by eapply ring_head_prev|].
  by eapply wp___list_add.
Qed.

Lemma ring_cons_alloc m x R : ring m (x :: R) → x ∈ dom m.
Proof. intros Hr. eapply ring_alloc; [done|set_solver]. Qed.

Lemma wp_list_del_ring x R m Q :
  ring m (x :: R) →
  (∀ m', ring m' R →
         m' !! x = Some (mk_list_head LIST_POISON1 LIST_POISON2) →
         frame m m' (x :: R) → Q tt m') →
  wp (list_del x) m Q.
Proof.
  intros Hr HQ. pose proof (ring_cons_alloc _ _ _ Hr) as Hal.
  pose proof Hr as (Hnd & _). apply NoDup_cons in Hnd as [HxR _].
  unfold list_del. mstep. eapply wp___list_del_entry; [done|].
  intros m1 Hr1 Hf1. pose proof (frame_dom _ _ _ _ Hf1 Hal).
  msteps. apply HQ.
  - eapply ring_frame; [done|]. intros a Ha.
    rewrite lookup_upd_prev_ne, lookup_upd_next_ne by set_solver. done.
  - unfold upd_prev, upd_next. rewrite lookup_alter_eq, lookup_alter_eq.
    apply elem_of_dom in H as [n ->]. done.
  - destruct Hf1 as [Hd1 Hf1]. split; [by msimpl|]. intros a Ha.
    rewrite lookup_upd_prev_ne, lookup_upd_next_ne by set_solver.
    apply Hf1. set_solver.
Qed.

Lemma wp_list_del_init_ring x R m Q :
  ring m (x :: R) →
  (∀ m', ring m' R → ring m' [x] → frame m m' (x :: R) → Q tt m') →
  wp (list_del_init x) m Q.
Proof.
  intros Hr HQ. pose proof (ring_cons_alloc _ _ _ Hr) as Hal.
  pose proof Hr as (Hnd & _). apply NoDup_cons in Hnd as [HxR _].
  unfold list_del_init. mstep. eapply wp___list_del_entry; [done|].
  intros m1 Hr1 Hf1. pose proof (frame_dom _ _ _ _ Hf1 Hal).
  apply wp_INIT_LIST_HEAD; [done|]. intros m2 Hr2 Hf2. apply HQ.
  - eapply ring_frame_disjoint; [done..|]. set_solver.
  - done.
  - mframes.
Qed.

Lemma wp_list_move_ring x ref R1 R2 m Q :
  ring m (x :: R1 ++ R2) → last R1 = Some ref →
  (∀ m', ring m' (R1 ++ x :: R2) → frame m m' (x :: R1 ++ R2) → Q tt m') →
  wp (list_move x ref) m Q.
Proof.
  intros Hr Hl HQ. pose proof (ring_cons_alloc _ _ _ Hr) as Hal.
  pose proof Hr as (Hnd & _). apply NoDup_cons in Hnd as [HxR _].
  assert (R1 ≠ []) by (by intros ->).
  unfold list_move. mstep. eapply wp___list_del_entry; [done|].
  intros m1 Hr1 Hf1. pose proof (frame_dom _ _ _ _ Hf1 Hal).
  apply ring_rotate in Hr1.
  eapply wp_list_add_ring; [done| |set_solver|done|].
  { by rewrite last_app_nonempty. }
  intros m2 Hr2 Hf2. apply HQ.
  - rewrite <- app_assoc in Hr2. apply ring_rotate in Hr2.
    by rewrite <- app_assoc in Hr2.
  - mframes.
Qed.

Lemma wp_list_move_ring2 x ref R R' m Q :
  ring m (x :: R) → ring m R' → last R' = Some ref →
  (∀ a, a ∈ x :: R → a ∉ R') →
  (∀ m', ring m' R → ring m' (R' ++ [x]) → frame m m' (x :: R ++ R') →
         Q tt m') →
  wp (list_move x ref) m Q.
Proof.
  intros Hr Hr' Hl Hdisj HQ. pose proof (ring_cons_alloc _ _ _ Hr) as Hal.
  pose proof Hr as (Hnd & _). apply NoDup_cons in Hnd as [HxR _].
  unfold list_move. mstep. eapply wp___list_del_entry; [done|].
  intros m1 Hr1 Hf1. pose proof (frame_dom _ _ _ _ Hf1 Hal).
  eapply wp_list_add_ring; [|done|set_solver|done|].
  { eapply ring_frame_disjoint; [done..|]. set_solver. }
  intros m2 Hr2 Hf2. apply HQ.
  - eapply ring_frame_disjoint; [done..|]. set_solver.
  - done.
  - mframes.
Qed.

Lemma wp_list_move_tail_ring x ref R1 R2 m Q :
  ring m (x :: R1 ++ R2) → head R2 = Some ref →
  (∀ m', ring m' (R1 ++ x :: R2) → frame m m' (x :: R1 ++ R2) → Q tt m') →
  wp (list_move_tail x ref) m Q.
Proof.
  intros Hr Hl HQ. pose proof (ring_cons_alloc _ _ _ Hr) as Hal.
  pose proof Hr as (Hnd & _). apply NoDup_cons in Hnd as [HxR _].
  assert (R2 ≠ []) by (by intros ->).
  unfold list_move_tail. mstep. eapply wp___list_del_entry; [done|].
  intros m1 Hr1 Hf1. pose proof (frame_dom _ _ _ _ Hf1 Hal).
  apply ring_rotate in Hr1.
  eapply wp_list_add_tail_ring; [done| |set_solver|done|].
  { by rewrite head_app_nonempty. }
  intros m2 Hr2 Hf2. apply HQ.
  - rewrite <- app_assoc in Hr2. apply ring_rotate in Hr2.
    by rewrite <- app_assoc in Hr2.
  - mframes.
Qed.

Lemma wp_list_move_tail_ring2 x ref R R' m Q :
  ring m (x :: R) → ring m R' → head R' = Some ref →
  (∀ a, a ∈ x :: R → a ∉ R') →
  (∀ m', ring m' R → ring m' (R' ++ [x]) → frame m m' (x :: R ++ R') →
         Q tt m') →
  wp (list_move_tail x ref) m Q.
Proof.
  intros Hr Hr' Hl Hdisj HQ. pose proof (ring_cons_alloc _ _ _ Hr) as Hal.
  pose proof Hr as (Hnd & _). apply NoDup_cons in Hnd as [HxR _].
  unfold list_move_tail. mstep. eapply wp___list_del_entry; [done|].
  intros m1 Hr1 Hf1. pose proof (frame_dom _ _ _ _ Hf1 Hal).
  eapply wp_list_add_tail_ring; [|done|set_solver|done|].
  { eapply ring_frame_disjoint; [done..|]. set_solver. }
  intros m2 Hr2 Hf2. apply HQ.
  - eapply ring_frame_disjoint; [done..|]. set_solver.
  - done.
  - mframes.
Qed.


Lemma wp_list_swap_ring a b X Y m Q :
  ring m (a :: X ++ b :: Y) →
  (∀ m', ring m' (b :: X ++ a :: Y) → frame m m' (a :: X ++ b :: Y) →
         Q tt m') →
  wp (list_swap a b) m Q.
Proof.
  intros Hr HQ. pose proof Hr as (Hnd & _).
  apply NoDup_cons in Hnd as [HaR Hnd].
  apply NoDup_app in Hnd as (HndX & HXbY & [HbY HndY]%NoDup_cons).
  apply (ring_rotate _ (a :: X)) in Hr as Hrb. simpl in Hrb.
  destruct (last (a :: X)) as [pos|] eqn:Hpos; [|by apply last_None in Hpos].
  assert (prv m b = Some pos) as Hbp.
  { eapply (ring_head_prev _ (b :: Y ++ a :: X)); [done| |done].
    by rewrite last_cons, last_app_nonempty, Hpos. }
  unfold list_swap. mstep. mstep.
  mstep. eapply wp_list_del_ring; [done|]. intros m1 Hr1 Hb1 Hf1.
  apply ring_rotate in Hr1. simpl in Hr1.
  mstep. eapply wp_list_replace; [done|set_solver| |].
  { apply elem_of_dom. eauto. }
  intros m2 Hr2 Hf2.
  assert ((if decide (pos = a) then b else pos) = default b (last X)) as ->.
  { destruct X as [|x X] using rev_ind.
    - simpl in *; simplify_eq. by rewrite decide_True.
    - rewrite last_cons, last_snoc in Hpos. simplify_eq.
      rewrite last_snoc. simpl. rewrite decide_False; [done|set_solver]. }
  apply (ring_rotate _ (b :: X)) in Hr2.
  eapply wp_list_add_ring; [done| |set_solver| |].
  { rewrite last_app_nonempty, last_cons by done. by destruct (last X). }
  { eapply frame_dom; [done|]. eapply frame_dom; [done|].
    eapply ring_cons_alloc; done. }
  intros m3 Hr3 Hf3. apply HQ.
  - rewrite <- app_assoc in Hr3. apply ring_rotate in Hr3.
    by rewrite <- !app_assoc in Hr3.
  - mframes.
Qed.

Lemma wp_list_swap_ring2 a b X Y m Q :
  ring m (a :: X) → ring m (b :: Y) → Y ≠ [] →
  (∀ c, c ∈ a :: X → c ∉ b :: Y) →
  (∀ m', ring m' (b :: X) → ring m' (a :: Y) →
         frame m m' (a :: X ++ b :: Y) → Q tt m') →
  wp (list_swap a b) m Q.
Proof.
  intros Hra Hrb HY Hdisj HQ.
  pose proof Hra as (Hnda & _). apply NoDup_cons in Hnda as [HaX Hnda].
  pose proof Hrb as (Hndb & _). apply NoDup_cons in Hndb as [HbY Hndb].
  destruct (last Y) as [pos|] eqn:Hpos; [|by apply last_None in Hpos].
  pose proof (last_Some_elem_of _ _ Hpos).
  assert (prv m b = Some pos) as Hbp.
  { eapply (ring_head_prev _ (b :: Y)); [done| |done].
    by rewrite last_cons, Hpos. }
  unfold list_swap. mstep. mstep.
  mstep. eapply wp_list_del_ring; [done|]. intros m1 Hr1 Hb1 Hf1.
  mstep. eapply wp_list_replace.
  { eapply ring_frame_disjoint; [exact Hra|done|]. set_solver. }
  { set_solver. }
  { apply elem_of_dom. eauto. }
  intros m2 Hr2 Hf2.
  rewrite decide_False by set_solver.
  eapply wp_list_add_ring; [|done| | |].
  { eapply ring_frame_disjoint; [exact Hr1|done|]. set_solver. }
  { set_solver. }
  { eapply frame_dom; [done|]. eapply frame_dom; [done|].
    eapply ring_cons_alloc; done. }
  intros m3 Hr3 Hf3. apply HQ.
  - eapply ring_frame_disjoint; [done..|]. set_solver.
  - by apply (ring_rotate _ Y [a]).
  - mframes.
Qed.


(** *** Lists with a head *)

Lemma dlist_rot m h l1 l2 : dlist m h (l1 ++ l2) ↔ ring m (l2 ++ h :: l1).
Proof.
  rewrite dlist_ring. split; intros Hr.
  - by apply (ring_rotate _ (h :: l1) l2).
  - by apply (ring_rotate _ l2 (h :: l1)).
Qed.

Lemma dlist_snoc_ring m h l : dlist m h l ↔ ring m (l ++ [h]).
Proof. by rewrite <- (dlist_rot m h [] l). Qed.


Lemma dlist_next_head m h l q :
  dlist m h l → head (l ++ [h]) = Some q → nxt m h = Some q.
Proof.
  intros [_ Hs] Hq. by destruct (seg_head_link _ _ _ _ Hs Hq).
Qed.

Lemma dlist_prev_head m h l p :
  dlist m h l → last (h :: l) = Some p → prv m h = Some p.
Proof.
  rewrite dlist_ring. intros Hr Hp. by eapply ring_head_prev.
Qed.

Lemma dlist_nil m h : dlist m h [] ↔ nxt m h = Some h ∧ prv m h = Some h.
Proof. rewrite dlist_ring. apply ring_singleton. Qed.

Lemma dlist_frame m m' S h l :
  dlist m h l → frame m m' S → (∀ a, a ∈ h :: l → a ∉ S) → dlist m' h l.
Proof. rewrite !dlist_ring. apply ring_frame_disjoint. Qed.

Lemma wp_list_empty m h l Q :
  dlist m h l → Q (bool_decide (l = [])) m → wp (list_empty h) m Q.
Proof.
  intros Hd HQ. pose proof Hd as [Hnd _].
  destruct (head (l ++ [h])) as [q|] eqn:Hq; [|by destruct l].
  unfold list_empty. mstep. eapply wp_get_next; [by eapply dlist_next_head|].
  mstep. destruct l as [|x l]; simpl in Hq; simplify_eq.
  - rewrite bool_decide_eq_true_2 in HQ by done.
    by rewrite bool_decide_eq_true_2.
  - apply NoDup_cons in Hnd as [? _].
    rewrite bool_decide_eq_false_2 in HQ by done.
    rewrite bool_decide_eq_false_2; [done|set_solver].
Qed.

(** C3: for a well-formed list [h] (empty or not) and a node [n] outside
    it, [list_add(n, h); list_del(n)] runs without fault and leaves every
    structure other than [n] exactly as it was, so [h] is the same list with
    the same links; [n] ends poisoned. *)
Theorem list_add_del_roundtrip m h l n :
  dlist m h l → n ∈ dom m → n ∉ h :: l →
  ∃ m', (list_add n h ;; list_del n) m = Some (tt, m')
        ∧ m' = <[n := mk_list_head LIST_POISON1 LIST_POISON2]> m
        ∧ (∀ a, a ≠ n → m' !! a = m !! a)
        ∧ dlist m' h l.
Proof.
  intros Hd Hal Hn.
  destruct (head (l ++ [h])) as [q|] eqn:Hq; [|by destruct l].
  pose proof (dlist_next_head _ _ _ _ Hd Hq) as Hhq.
  assert (prv m q = Some h) as Hqh.
  { destruct Hd as [_ Hs]. by destruct (seg_head_link _ _ _ _ Hs Hq). }
  assert (n ≠ h) by set_solver.
  assert (n ≠ q).
  { apply head_Some_elem_of in Hq. set_solver. }
  assert (wp (list_add n h ;; list_del n) m
            (λ _ m', m' = <[n := mk_list_head LIST_POISON1 LIST_POISON2]> m))
    as (? & m' & Hrun & ->).
  { unfold list_add, __list_add, list_del, __list_del_entry, __list_del.
    msteps. apply map_eq. intros a. destruct (decide (a = n)) as [->|].
    - rewrite lookup_insert_eq. unfold upd_prev at 1.
      rewrite lookup_alter_eq. unfold upd_next at 1.
      rewrite lookup_alter_eq.
      match goal with |- _ <$> (_ <$> ?x) = _ =>
        assert (is_Some x) as [? ->]; [|done] end.
      apply elem_of_dom. by msimpl.
    - rewrite lookup_insert_ne by done. apply lookup_fields; msimpl.
      + rewrite decide_False by done. case_decide; [by subst|].
        by rewrite decide_False.
      + rewrite decide_False by done. case_decide; [by subst|].
        by rewrite decide_False. }
  destruct x. eexists; split_and!; [done..| |].
  - intros a Ha. by rewrite lookup_insert_ne.
  - eapply dlist_frame; [done| |].
    + instantiate (1 := [n]). split.
      * rewrite dom_insert_L. set_solver.
      * intros a Ha. rewrite lookup_insert_ne; [done|set_solver].
    + set_solver.
Qed.

(** *** Iteration *)

Lemma ring_has_next m R a : ring m R → a ∈ R → ∃ b, nxt m a = Some b.
Proof.
  intros Hr Ha. apply list_elem_of_split in Ha as (xs & ys & ->).
  rewrite (cons_middle a xs ys), app_assoc in Hr.
  apply (ring_rotate _ (xs ++ [a]) ys) in Hr.
  destruct (head (ys ++ xs ++ [a])) as [q|] eqn:Hq; [|by destruct ys, xs].
  exists q. eapply ring_last_next; [done| |done].
  by rewrite app_assoc, last_snoc.
Qed.

Lemma dlist_next_mid m h l1 x l2 q :
  dlist m h (l1 ++ x :: l2) → head (l2 ++ [h]) = Some q → nxt m x = Some q.
Proof.
  intros (_ & Hs & _)%dlist_rot Hq. simpl in Hs.
  apply seg_head_link with (b := q) in Hs as [? _]; [done|].
  by destruct l2.
Qed.

Lemma dlist_next_cons m h x l q :
  dlist m h (x :: l) → head (l ++ [h]) = Some q → nxt m x = Some q.
Proof.
  intros [_ Hs] Hq. apply seg_tail in Hs.
  by destruct (seg_head_link _ _ _ _ Hs Hq).
Qed.

Lemma list_for_each_from_spec m h l1 l2 fuel pos :
  dlist m h (l1 ++ l2) → head (l2 ++ [h]) = Some pos →
  (length l2 < fuel)%nat →
  list_for_each_from fuel (λ _, mret tt) h pos m = Some (l2, m).
Proof.
  revert l1 fuel pos. induction l2 as [|x l2 IH]; intros l1 fuel pos Hd Hp Hf.
  - simpl in Hp. simplify_eq. destruct fuel; [lia|]. simpl.
    by rewrite decide_True.
  - simpl in Hp. simplify_eq. destruct fuel; [simpl in Hf; lia|].
    pose proof Hd as [Hnd _]. apply NoDup_cons in Hnd as [Hh _].
    destruct (head (l2 ++ [h])) as [q|] eqn:Hq; [|by destruct l2].
    pose proof (dlist_next_mid _ _ _ _ _ _ Hd Hq) as Hn.
    simpl. rewrite decide_False by set_solver.
    unfold mbind, M_bind, mret, M_ret, get_next. unfold nxt in Hn.
    destruct (m !! pos) as [np|]; simplify_eq/=.
    rewrite (IH (l1 ++ [pos])); [done| |done|simpl in Hf; lia].
    by rewrite <- app_assoc.
Qed.

(** Iterating over a well-formed list visits its entries in order. *)
Lemma list_for_each_spec m h l fuel :
  dlist m h l → (length l < fuel)%nat →
  list_for_each fuel (λ _, mret tt) h m = Some (l, m).
Proof.
  intros Hd Hf. destruct (head (l ++ [h])) as [q|] eqn:Hq; [|by destruct l].
  pose proof (dlist_next_head _ _ _ _ Hd Hq) as Hn.
  unfold list_for_each, mbind, M_bind, get_next. unfold nxt in Hn.
  destruct (m !! h) as [nh|]; simplify_eq/=.
  by apply (list_for_each_from_spec m h []).
Qed.

(** *** Splicing *)

Lemma wp_list_empty_ring m x R Q :
  ring m (x :: R) → Q (bool_decide (R = [])) m → wp (list_empty x) m Q.
Proof. intros Hr%dlist_ring. by apply wp_list_empty. Qed.

Lemma wp_list_splice_ring (tail init : bool) src ref A B m Q :
  ring m (src :: A) → A ≠ [] → ring m B →
  (if tail then head B = Some ref else last B = Some ref) →
  (∀ c, c ∈ src :: A → c ∉ B) →
  (∀ m', ring m' (B ++ A) →
         (if init then ring m' [src] else m' !! src = m !! src) →
         frame m m' (src :: A ++ B) → Q tt m') →
  wp (splice_variant tail init src ref) m Q.
Proof.
  intros Hra HA Hrb Href Hdisj HQ.
  pose proof Hra as [[HsA _]%NoDup_cons _].
  pose proof (ring_cons_alloc _ _ _ Hra) as Hal.
  assert (∃ p q, last B = Some p ∧ head B = Some q
                 ∧ nxt m p = Some q ∧ prv m q = Some p
                 ∧ (if tail then q = ref else p = ref))
    as (p & q & Hp & Hq & Hpq & Hqp & Hpqref).
  { destruct tail.
    - destruct (last B) as [p|] eqn:Hp; [|by apply last_None in Hp; subst].
      exists p, ref. split_and!; [done..| | |done].
      + by eapply ring_last_next.
      + by eapply ring_head_prev.
    - destruct (head B) as [q|] eqn:Hq; [|by destruct B].
      exists ref, q. split_and!; [done..| | |done].
      + by eapply ring_last_next.
      + by eapply ring_head_prev. }
  assert (Hsp : ∀ Q',
    (∀ m', ring m' (B ++ A) → m' !! src = m !! src →
           frame m m' (A ++ B) → Q' tt m') →
    wp (__list_splice src p q) m Q').
  { intros Q' HQ'. eapply (wp___list_splice _ _ _ A B); [done..|].
    intros m' Hr Hf. apply HQ'; [done| |done].
    destruct Hf as [_ Hf]. apply Hf.
    intros [?|?]%elem_of_app; [done|]. eapply Hdisj; [|done]. set_solver. }
  assert (Hinit : ∀ m1, ring m1 (B ++ A) → frame m m1 (A ++ B) →
            (∀ m', ring m' (B ++ A) → ring m' [src] →
                   frame m m' (src :: A ++ B) → Q tt m') →
            wp (INIT_LIST_HEAD src) m1 Q).
  { intros m1 Hr1 Hf1 HQ'.
    apply wp_INIT_LIST_HEAD; [by eapply frame_dom|].
    intros m2 Hr2 Hf2. apply HQ'; [|done|mframes].
    eapply ring_frame_disjoint; [done..|].
    intros c [?|?]%elem_of_app ?; [eapply Hdisj; [|done]|]; set_solver. }
  assert (Hplain : ∀ m1, ring m1 (B ++ A) → m1 !! src = m !! src →
            frame m m1 (A ++ B) →
            (∀ m', ring m' (B ++ A) → m' !! src = m !! src →
                   frame m m' (src :: A ++ B) → Q tt m') →
            Q tt m1).
  { intros m1 Hr1 Hs1 Hf1 HQ'. apply HQ'; [done..|].
    eapply frame_weaken; [done|set_solver]. }
  destruct tail, init; simpl; subst;
    unfold list_splice, list_splice_init, list_splice_tail,
      list_splice_tail_init;
    (mstep; eapply wp_list_empty_ring; [done|];
     rewrite bool_decide_eq_false_2 by done).
  - mstep. eapply wp_get_prev; [done|]. mstep. apply Hsp.
    intros m1 ? ? ?. by apply (Hinit m1).
  - mstep. eapply wp_get_prev; [done|]. apply Hsp.
    intros m1 ? ? ?. by apply (Hplain m1).
  - mstep. eapply wp_get_next; [done|]. mstep. apply Hsp.
    intros m1 ? ? ?. by apply (Hinit m1).
  - mstep. eapply wp_get_next; [done|]. apply Hsp.
    intros m1 ? ? ?. by apply (Hplain m1).
Qed.

Lemma wp_list_splice_gen (init : bool) a b la lb m Q :
  dlist m a la → dlist m b lb → la ≠ [] →
  (∀ c, c ∈ a :: la → c ∉ b :: lb) →
  (∀ m', dlist m' b (la ++ lb) →
         (if init then dlist m' a [] else m' !! a = m !! a) →
         frame m m' (a :: la ++ b :: lb) → Q tt m') →
  wp (if init then list_splice_init a b else list_splice a b) m Q.
Proof.
  intros Ha Hb Hla Hdisj HQ.
  assert (wp (splice_variant false init a b) m Q) as Hwp; [|by destruct init].
  eapply (wp_list_splice_ring false init a b la (lb ++ [b]));
    [by apply dlist_ring|done|by apply dlist_snoc_ring|by rewrite last_snoc| |].
  { intros c Hc Hc'. apply (Hdisj c); set_solver. }
  intros m' Hr Ha' Hf. apply HQ.
  - apply dlist_rot. by rewrite <- app_assoc in Hr.
  - destruct init; [by apply dlist_ring|done].
  - eapply frame_weaken; [done|set_solver].
Qed.

Lemma wp_list_splice_tail_gen (init : bool) a b la lb m Q :
  dlist m a la → dlist m b lb → la ≠ [] →
  (∀ c, c ∈ a :: la → c ∉ b :: lb) →
  (∀ m', dlist m' b (lb ++ la) →
         (if init then dlist m' a [] else m' !! a = m !! a) →
         frame m m' (a :: la ++ b :: lb) → Q tt m') →
  wp (if init then list_splice_tail_init a b else list_splice_tail a b) m Q.
Proof.
  intros Ha Hb Hla Hdisj HQ.
  assert (wp (splice_variant true init a b) m Q) as Hwp; [|by destruct init].
  eapply (wp_list_splice_ring true init a b la (b :: lb));
    [by apply dlist_ring|done|by apply dlist_ring|done|done|].
  intros m' Hr Ha' Hf. apply HQ.
  - by apply dlist_ring.
  - destruct init; [by apply dlist_ring|done].
  - done.
Qed.

Lemma list_splice_empty_noop a m :
  dlist m a [] → ∀ b,
  list_splice a b m = Some (tt, m) ∧ list_splice_tail a b m = Some (tt, m)
  ∧ list_splice_init a b m = Some (tt, m)
  ∧ list_splice_tail_init a b m = Some (tt, m).
Proof.
  intros Ha b.
  assert (list_empty a m = Some (true, m)) as He.
  { destruct (wp_list_empty m a [] (λ r m', r = true ∧ m' = m) Ha)
      as (? & ? & -> & -> & ->); done. }
  unfold list_splice, list_splice_tail, list_splice_init,
    list_splice_tail_init, mbind, M_bind. by rewrite He.
Qed.


(** C4: for disjoint well-formed lists [a] (entries [la]) and [b] (entries
    [lb]) with [la] not empty, the front splices [list_splice] and
    [list_splice_init] make [b] the list [la ++ lb], and the tail splices
    make it [lb ++ la]: that is the order in which [list_for_each] visits
    [b] afterwards.  The plain variants leave the structure of the head [a]
    as it was, so [a] does not test empty; the [_init] variants leave [a] an
    empty list.  When [la] is empty the four variants return without a store:
    the heap is the same. *)
Theorem list_splice_correct m a la b lb :
  dlist m a la → dlist m b lb → (∀ c, c ∈ a :: la → c ∉ b :: lb) →
  (la ≠ [] →
     (∃ m', list_splice a b m = Some (tt, m') ∧ dlist m' b (la ++ lb)
            ∧ (∀ fuel, (length (la ++ lb) < fuel)%nat →
                 list_for_each fuel (λ _, mret tt) b m'
                 = Some (la ++ lb, m'))
            ∧ m' !! a = m !! a ∧ list_empty a m' = Some (false, m'))
     ∧ (∃ m', list_splice_init a b m = Some (tt, m') ∧ dlist m' b (la ++ lb)
            ∧ (∀ fuel, (length (la ++ lb) < fuel)%nat →
                 list_for_each fuel (λ _, mret tt) b m'
                 = Some (la ++ lb, m'))
            ∧ dlist m' a [] ∧ list_empty a m' = Some (true, m'))
     ∧ (∃ m', list_splice_tail a b m = Some (tt, m') ∧ dlist m' b (lb ++ la)
            ∧ (∀ fuel, (length (lb ++ la) < fuel)%nat →
                 list_for_each fuel (λ _, mret tt) b m'
                 = Some (lb ++ la, m'))
            ∧ m' !! a = m !! a ∧ list_empty a m' = Some (false, m'))
     ∧ (∃ m', list_splice_tail_init a b m = Some (tt, m')
            ∧ dlist m' b (lb ++ la)
            ∧ (∀ fuel, (length (lb ++ la) < fuel)%nat →
                 list_for_each fuel (λ _, mret tt) b m'
                 = Some (lb ++ la, m'))
            ∧ dlist m' a [] ∧ list_empty a m' = Some (true, m')))
  ∧ (la = [] →
     list_splice a b m = Some (tt, m) ∧ list_splice_tail a b m = Some (tt, m)
     ∧ list_splice_init a b m = Some (tt, m)
     ∧ list_splice_tail_init a b m = Some (tt, m)).
Proof.
  intros Ha Hb Hdisj. split; [|intros ->; by apply list_splice_empty_noop].
  intros Hla.
  assert (Hstale : ∀ m', m' !! a = m !! a → list_empty a m' = Some (false, m')).
  { intros m' Heq.
    destruct (wp_list_empty m a la (λ r m', r = false ∧ m' = m) Ha)
      as (? & ? & He & -> & ->).
    { by rewrite bool_decide_eq_false_2. }
    unfold list_empty, get_next, mbind, M_bind, mret, M_ret in *.
    rewrite Heq. destruct (m !! a) as [na|]; simpl in *; [|done].
    injection He as He. by rewrite He. }
  assert (Hinit : ∀ m', dlist m' a [] → list_empty a m' = Some (true, m')).
  { intros m' Ha'.
    by destruct (wp_list_empty m' a [] (λ r m'', r = true ∧ m'' = m') Ha')
      as (? & ? & He & -> & ->). }
  split_and!.
  - destruct (wp_list_splice_gen false a b la lb m
                (λ _ m', dlist m' b (la ++ lb) ∧ m' !! a = m !! a))
      as ([] & m' & ? & ? & ?); [done..|by intros|]. exists m'.
    split_and!; [done..|by intros; apply list_for_each_spec|done|eauto].
  - destruct (wp_list_splice_gen true a b la lb m
                (λ _ m', dlist m' b (la ++ lb) ∧ dlist m' a []))
      as ([] & m' & ? & ? & ?); [done..|by intros|]. exists m'.
    split_and!; [done..|by intros; apply list_for_each_spec|done|eauto].
  - destruct (wp_list_splice_tail_gen false a b la lb m
                (λ _ m', dlist m' b (lb ++ la) ∧ m' !! a = m !! a))
      as ([] & m' & ? & ? & ?); [done..|by intros|]. exists m'.
    split_and!; [done..|by intros; apply list_for_each_spec|done|eauto].
  - destruct (wp_list_splice_tail_gen true a b la lb m
                (λ _ m', dlist m' b (lb ++ la) ∧ dlist m' a []))
      as ([] & m' & ? & ? & ?); [done..|by intros|]. exists m'.
    split_and!; [done..|by intros; apply list_for_each_spec|done|eauto].
Qed.

(** *** Cutting *)

Lemma wp_list_is_singular m h l Q :
  dlist m h l → Q (bool_decide (length l = 1%nat)) m →
  wp (list_is_singular h) m Q.
Proof.
  intros Hd HQ. unfold list_is_singular. mstep.
  eapply wp_list_empty; [done|]. destruct l as [|x l].
  { rewrite bool_decide_eq_true_2 by done. by mstep. }
  rewrite bool_decide_eq_false_2 by done.
  destruct (last (h :: x :: l)) as [p|] eqn:Hp; [|by apply last_None in Hp].
  mstep. eapply wp_get_next; [by eapply dlist_next_head|].
  mstep. eapply wp_get_prev; [by eapply dlist_prev_head|]. mstep.
  destruct l as [|y l].
  - simpl in *. simplify_eq. by rewrite bool_decide_eq_true_2.
  - rewrite bool_decide_eq_false_2 in HQ by (simpl; lia).
    rewrite bool_decide_eq_false_2; [done|].
    destruct Hd as [Hnd _]. rewrite !last_cons_cons in Hp.
    apply last_Some_elem_of in Hp.
    apply NoDup_cons in Hnd as [_ [? _]%NoDup_cons]. set_solver.
Qed.

Lemma wp_list_cut_position d h e l1 l2 m Q :
  dlist m h (l1 ++ e :: l2) → d ∈ dom m → d ∉ h :: l1 ++ e :: l2 →
  (∀ m', dlist m' d (l1 ++ [e]) → dlist m' h l2 →
         frame m m' (d :: h :: l1 ++ e :: l2) → Q tt m') →
  wp (list_cut_position d h e) m Q.
Proof.
  intros Hd Hal Hdn HQ. pose proof Hd as [Hnd _].
  apply NoDup_cons in Hnd as [Hh Hnd].
  unfold list_cut_position. mstep. eapply wp_list_empty; [done|].
  rewrite bool_decide_eq_false_2 by (by destruct l1).
  mstep. eapply wp_list_is_singular; [done|].
  mstep.
  assert (wp (if bool_decide (length (l1 ++ e :: l2) = 1%nat)
              then hn ← get_next h;
                   mret (bool_decide (hn ≠ e) && bool_decide (h ≠ e))
              else mret false : M mem bool) m
            (λ r m', r = false ∧ m' = m)) as Hskip.
  { case_bool_decide as Hlen; [|by mstep].
    destruct l1 as [|? [|? ?]]; simpl in Hlen; [|lia..].
    mstep. eapply wp_get_next; [by eapply dlist_next_head|]. mstep.
    by rewrite bool_decide_eq_false_2 by naive_solver. }
  eapply wp_mono; [exact Hskip|]. intros ? ? [-> ->].
  rewrite decide_False by set_solver.
  eapply (wp___list_cut_position _ _ _ (l1 ++ [e]) l2).
  - apply dlist_ring. by rewrite <- app_assoc.
  - by rewrite last_snoc.
  - by rewrite <- app_assoc.
  - done.
  - intros m' Hr1 Hr2 Hf. rewrite <- app_assoc in Hf.
    apply HQ; [by apply dlist_ring..|done].
Qed.

Lemma wp_list_cut_position_head d h l m Q :
  dlist m h l → l ≠ [] → d ∈ dom m → d ∉ h :: l →
  (∀ m', dlist m' d [] → dlist m' h l → frame m m' [d] → Q tt m') →
  wp (list_cut_position d h h) m Q.
Proof.
  intros Hd Hl Hal Hdn HQ.
  unfold list_cut_position. mstep. eapply wp_list_empty; [done|].
  rewrite bool_decide_eq_false_2 by done.
  mstep. eapply wp_list_is_singular; [done|].
  mstep.
  assert (wp (if bool_decide (length l = 1%nat)
              then hn ← get_next h;
                   mret (bool_decide (hn ≠ h) && bool_decide (h ≠ h))
              else mret false : M mem bool) m
            (λ r m', r = false ∧ m' = m)) as Hskip.
  { case_bool_decide as Hlen; [|by mstep].
    destruct (head (l ++ [h])) as [q|] eqn:Hq; [|by destruct l].
    mstep. eapply wp_get_next; [by eapply dlist_next_head|]. mstep.
    rewrite (bool_decide_eq_false_2 (h ≠ h)) by naive_solver.
    by rewrite andb_false_r. }
  eapply wp_mono; [exact Hskip|]. intros ? ? [-> ->].
  rewrite decide_True by done.
  apply wp_INIT_LIST_HEAD; [done|]. intros m' Hr Hf. apply HQ.
  - by apply dlist_ring.
  - eapply dlist_frame; [done..|]. set_solver.
  - done.
Qed.

Lemma list_cut_position_empty d h e m :
  dlist m h [] → list_cut_position d h e m = Some (tt, m).
Proof.
  intros Hd.
  destruct (wp_list_empty m h [] (λ r m', r = true ∧ m' = m) Hd)
    as (? & ? & He & -> & ->); [done|].
  unfold list_cut_position, mbind, M_bind. by rewrite He.
Qed.

(** C5 (amended): for a well-formed list [h] and an allocated node [d]
    outside it, [list_cut_position(d, h, e)] with [e] an entry of [h] moves
    the entries up to and including [e] to [d] and leaves the others in [h];
    with [e == h] and [h] not empty it moves nothing and leaves [d] an empty
    list; with [h] empty it returns before any store, so [d] is left as it
    was. *)
Theorem list_cut_position_correct m h l d :
  dlist m h l → d ∈ dom m → d ∉ h :: l →
  (∀ l1 e l2, l = l1 ++ e :: l2 →
     ∃ m', list_cut_position d h e m = Some (tt, m')
           ∧ dlist m' d (l1 ++ [e]) ∧ dlist m' h l2)
  ∧ (l ≠ [] →
     ∃ m', list_cut_position d h h m = Some (tt, m')
           ∧ dlist m' d [] ∧ dlist m' h l)
  ∧ (l = [] → list_cut_position d h h m = Some (tt, m)).
Proof.
  intros Hd Hal Hdn. split_and!.
  - intros l1 e l2 ->.
    destruct (wp_list_cut_position d h e l1 l2 m
                (λ _ m', dlist m' d (l1 ++ [e]) ∧ dlist m' h l2))
      as ([] & m' & ? & ? & ?); [done..|by intros|]. exists m'. eauto.
  - intros Hl.
    destruct (wp_list_cut_position_head d h l m
                (λ _ m', dlist m' d [] ∧ dlist m' h l))
      as ([] & m' & ? & ? & ?); [done..|by intros|]. exists m'. eauto.
  - intros ->. by apply list_cut_position_empty.
Qed.


(** *** Safe iteration *)

Lemma list_for_each_safe_del m h l fuel pos n :
  dlist m h l → head (l ++ [h]) = Some pos → nxt m pos = Some n →
  (length l < fuel)%nat →
  wp (list_for_each_safe_from fuel list_del h pos n) m
    (λ v m', v = l ∧ dlist m' h []).
Proof.
  revert fuel m pos n.
  induction l as [|x l IH]; intros fuel m pos n Hd Hp Hn Hf.
  - simpl in Hp. simplify_eq. destruct fuel; [lia|]. simpl.
    rewrite decide_True by done. by mstep.
  - simpl in Hp. simplify_eq. destruct fuel; [simpl in Hf; lia|].
    pose proof Hd as [Hnd _]. apply NoDup_cons in Hnd as [Hh _].
    destruct (head (l ++ [h])) as [q|] eqn:Hq; [|by destruct l].
    pose proof (dlist_next_mid m h [] _ _ _ Hd Hq) as Hn'.
    assert (n = q) as -> by congruence.
    simpl. rewrite decide_False by set_solver.
    mstep. eapply (wp_list_del_ring _ (l ++ [h])).
    { by apply (dlist_rot m h [] (pos :: l)). }
    intros m1 Hr1 _ _. apply dlist_snoc_ring in Hr1 as Hd1.
    destruct (ring_has_next _ _ q Hr1) as [n' Hqn'].
    { by apply head_Some_elem_of. }
    mstep. eapply wp_get_next; [done|]. mstep.
    eapply wp_mono; [apply (IH fuel m1 q n'); [done..|simpl in Hf; lia]|].
    intros v m2 [-> ?]. by mstep.
Qed.

Lemma list_for_each_entry_safe_del off m h l fuel pos n :
  dlist m h l → head (l ++ [h]) = Some (member_of off pos) →
  nxt m (member_of off pos) = Some (member_of off n) →
  (length l < fuel)%nat →
  wp (list_for_each_entry_safe_from fuel off
        (λ pos, list_del (member_of off pos)) h pos n) m
    (λ v m', v = container_of off <$> l ∧ dlist m' h []).
Proof.
  revert fuel m pos n.
  induction l as [|x l IH]; intros fuel m pos n Hd Hp Hn Hf.
  - simpl in Hp. simplify_eq. destruct fuel; [lia|]. simpl.
    rewrite decide_True by done. by mstep.
  - simpl in Hp. simplify_eq. destruct fuel; [simpl in Hf; lia|].
    pose proof Hd as [Hnd _]. apply NoDup_cons in Hnd as [Hh _].
    destruct (head (l ++ [h])) as [q|] eqn:Hq; [|by destruct l].
    pose proof (dlist_next_mid m h [] _ _ _ Hd Hq) as Hn'.
    assert (member_of off n = q) as Hnq by congruence.
    simpl. rewrite decide_False by set_solver.
    mstep. eapply (wp_list_del_ring _ (l ++ [h])).
    { by apply (dlist_rot m h [] (member_of off pos :: l)). }
    intros m1 Hr1 _ _. apply dlist_snoc_ring in Hr1 as Hd1.
    destruct (ring_has_next _ _ q Hr1) as [n' Hqn'].
    { by apply head_Some_elem_of. }
    mstep. eapply wp_get_next; [by rewrite Hnq|]. mstep.
    eapply wp_mono.
    { apply (IH fuel m1 n (container_of off n')); [done|by rewrite Hnq| |].
      - rewrite Hnq, Hqn'. f_equal. unfold member_of, container_of. lia.
      - simpl in Hf; lia. }
    intros v m2 [-> ?]. mstep. split; [|done]. simpl. f_equal.
    unfold member_of, container_of. lia.
Qed.

(** C6: on a well-formed list with entries [l] (of any length, also
    empty), [list_for_each_safe] with the body [list_del(pos)] runs without
    fault whenever the fuel exceeds the length; the body is run on exactly
    the entries [l], in list order (they are distinct, so each once), and the
    head is an empty list afterwards.  [list_for_each_entry_safe] with the
    body [list_del(&pos->member)] does the same on the containing
    structures, for every member offset. *)
Theorem list_for_each_safe_delete_all m h l :
  dlist m h l →
  ∀ fuel, (length l < fuel)%nat →
    NoDup l
    ∧ (∃ m', list_for_each_safe fuel list_del h m = Some (l, m')
           ∧ dlist m' h [])
    ∧ (∀ off, ∃ m',
         list_for_each_entry_safe fuel off
           (λ pos, list_del (member_of off pos)) h m
         = Some (container_of off <$> l, m')
         ∧ dlist m' h []).
Proof.
  intros Hd fuel Hf.
  destruct (head (l ++ [h])) as [q|] eqn:Hq; [|by destruct l].
  pose proof (dlist_next_head _ _ _ _ Hd Hq) as Hhq.
  destruct (ring_has_next m (l ++ [h]) q) as [n Hqn].
  { by apply dlist_snoc_ring. }
  { by apply head_Some_elem_of. }
  assert (∀ off z, member_of off (container_of off z) = z) as Hmc.
  { intros. unfold member_of, container_of. lia. }
  split; [by destruct Hd as [[_ ?]%NoDup_cons _]|]. split.
  - assert (wp (list_for_each_safe fuel list_del h) m
              (λ v m', v = l ∧ dlist m' h [])) as (? & m' & ? & -> & ?).
    { unfold list_for_each_safe. msteps. by apply list_for_each_safe_del. }
    eauto.
  - intros off.
    assert (wp (list_for_each_entry_safe fuel off
                  (λ pos, list_del (member_of off pos)) h) m
              (λ v m', v = container_of off <$> l ∧ dlist m' h []))
      as (? & m' & ? & -> & ?).
    { unfold list_for_each_entry_safe. mstep. eapply wp_get_next; [done|].
      mstep. eapply wp_get_next; [by rewrite Hmc|].
      apply list_for_each_entry_safe_del; [done|by rewrite Hmc| |done].
      by rewrite !Hmc. }
    eauto.
Qed.


(** *** Swapping *)

Lemma wp_list_swap_fwd m h l1 a l2 b l3 Q :
  dlist m h (l1 ++ a :: l2 ++ b :: l3) →
  (∀ m', dlist m' h (l1 ++ b :: l2 ++ a :: l3) →
         frame m m' (h :: l1 ++ a :: l2 ++ b :: l3) → Q tt m') →
  wp (list_swap a b) m Q.
Proof.
  intros Hd HQ. apply dlist_rot in Hd. simpl in Hd.
  rewrite <- app_assoc in Hd. simpl in Hd.
  eapply (wp_list_swap_ring a b l2 (l3 ++ h :: l1)); [done|].
  intros m' Hr Hf. apply HQ.
  - apply dlist_rot. simpl. by rewrite <- app_assoc.
  - eapply frame_weaken; [done|set_solver].
Qed.

Lemma wp_list_swap_bwd m h l1 a l2 b l3 Q :
  dlist m h (l1 ++ b :: l2 ++ a :: l3) →
  (∀ m', dlist m' h (l1 ++ a :: l2 ++ b :: l3) →
         frame m m' (h :: l1 ++ b :: l2 ++ a :: l3) → Q tt m') →
  wp (list_swap a b) m Q.
Proof.
  intros Hd HQ.
  replace (l1 ++ b :: l2 ++ a :: l3) with ((l1 ++ b :: l2) ++ a :: l3) in Hd
    by (by rewrite <- app_assoc).
  apply dlist_rot in Hd.
  replace ((a :: l3) ++ h :: l1 ++ b :: l2)
    with (a :: (l3 ++ h :: l1) ++ b :: l2) in Hd
    by (simpl; by rewrite <- app_assoc).
  eapply (wp_list_swap_ring a b (l3 ++ h :: l1) l2); [done|].
  intros m' Hr Hf. apply HQ.
  - replace (l1 ++ a :: l2 ++ b :: l3) with ((l1 ++ a :: l2) ++ b :: l3)
      by (by rewrite <- app_assoc).
    apply dlist_rot.
    replace ((b :: l3) ++ h :: l1 ++ a :: l2)
      with (b :: (l3 ++ h :: l1) ++ a :: l2)
      by (simpl; by rewrite <- app_assoc).
    done.
  - eapply frame_weaken; [done|set_solver].
Qed.

Lemma wp_list_swap_two m h1 l1 a l2 h2 l3 b l4 Q :
  dlist m h1 (l1 ++ a :: l2) → dlist m h2 (l3 ++ b :: l4) →
  (∀ c, c ∈ h1 :: l1 ++ a :: l2 → c ∉ h2 :: l3 ++ b :: l4) →
  (∀ m', dlist m' h1 (l1 ++ b :: l2) → dlist m' h2 (l3 ++ a :: l4) →
         frame m m' (h1 :: l1 ++ a :: l2 ++ h2 :: l3 ++ b :: l4) → Q tt m') →
  wp (list_swap a b) m Q.
Proof.
  intros Hd1 Hd2 Hdisj HQ. apply dlist_rot in Hd1, Hd2. simpl in Hd1, Hd2.
  eapply (wp_list_swap_ring2 a b (l2 ++ h1 :: l1) (l4 ++ h2 :: l3));
    [done..|by destruct l4| |].
  { intros c Hc Hc'. apply (Hdisj c); set_solver. }
  intros m' Hr1 Hr2 Hf. apply HQ.
  - by apply dlist_rot.
  - by apply dlist_rot.
  - eapply frame_weaken; [done|set_solver].
Qed.

(** C8: [list_swap(a, b)] exchanges the positions of two distinct entries:
    in one list with [a] before [b] ([l2] empty when [b] immediately follows
    [a]), in one list with [b] before [a], and in two disjoint lists.  Every
    other entry keeps its place, so each of the two has the former
    neighbours of the other. *)
Theorem list_swap_correct m a b :
  (∀ h l1 l2 l3, dlist m h (l1 ++ a :: l2 ++ b :: l3) →
     ∃ m', list_swap a b m = Some (tt, m')
           ∧ dlist m' h (l1 ++ b :: l2 ++ a :: l3))
  ∧ (∀ h l1 l2 l3, dlist m h (l1 ++ b :: l2 ++ a :: l3) →
     ∃ m', list_swap a b m = Some (tt, m')
           ∧ dlist m' h (l1 ++ a :: l2 ++ b :: l3))
  ∧ (∀ h1 l1 l2 h2 l3 l4,
     dlist m h1 (l1 ++ a :: l2) → dlist m h2 (l3 ++ b :: l4) →
     (∀ c, c ∈ h1 :: l1 ++ a :: l2 → c ∉ h2 :: l3 ++ b :: l4) →
     ∃ m', list_swap a b m = Some (tt, m')
           ∧ dlist m' h1 (l1 ++ b :: l2) ∧ dlist m' h2 (l3 ++ a :: l4)).
Proof.
  split_and!.
  - intros h l1 l2 l3 Hd.
    destruct (wp_list_swap_fwd m h l1 a l2 b l3
                (λ _ m', dlist m' h (l1 ++ b :: l2 ++ a :: l3)))
      as ([] & m' & ? & ?); [done|by intros|]. eauto.
  - intros h l1 l2 l3 Hd.
    destruct (wp_list_swap_bwd m h l1 a l2 b l3
                (λ _ m', dlist m' h (l1 ++ a :: l2 ++ b :: l3)))
      as ([] & m' & ? & ?); [done|by intros|]. eauto.
  - intros h1 l1 l2 h2 l3 l4 Hd1 Hd2 Hdisj.
    destruct (wp_list_swap_two m h1 l1 a l2 h2 l3 b l4
                (λ _ m', dlist m' h1 (l1 ++ b :: l2)
                         ∧ dlist m' h2 (l3 ++ a :: l4)))
      as ([] & m' & ? & ? & ?); [done..|by intros|]. eauto.
Qed.


(** *** The invariant *)

Lemma ring_rot_cons m R a :
  ring m R → a ∈ R →
  ∃ R', ring m (a :: R') ∧ ∀ x, x ∈ a :: R' ↔ x ∈ R.
Proof.
  intros Hr Ha. apply list_elem_of_split in Ha as (xs & ys & ->).
  exists (ys ++ xs). split.
  - by apply (ring_rotate _ xs (a :: ys)).
  - intros x. set_solver.
Qed.


Lemma ring_reciprocal m R n : ring m R → n ∈ R → reciprocal m n.
Proof.
  intros Hr Hn. destruct (ring_rot_cons _ _ _ Hr Hn) as (R' & Hr' & _).
  destruct (decide (R' = [])) as [->|HR'].
  - apply ring_singleton in Hr' as [? ?]. split; eauto.
  - destruct (ring_nonempty_ends R' HR') as (p & q & Hp & Hq).
    destruct (ring_cons_fields _ _ _ _ _ Hr' Hp Hq) as (? & ? & ? & ?).
    split; eauto.
Qed.




Lemma dlist_reachable m h l n : dlist m h l → n ∈ h :: l → reachable m h n.
Proof.
  intros [_ Hs] Hn.
  assert (Hgen : ∀ xs, seg m (h :: xs) → ∀ n, n ∈ h :: xs → reachable m h n).
  { clear. intros xs. induction xs as [|y xs IH] using rev_ind; intros Hs n Hn.
    - assert (n = h) as -> by set_solver. constructor.
    - rewrite app_comm_cons in Hs. apply seg_app in Hs as (Hs1 & _ & Hj).
      destruct (last (h :: xs)) as [p|] eqn:Hp; [|by apply last_None in Hp].
      destruct (Hj p y) as [Hpy _]; [done..|].
      destruct (decide (n = y)) as [->|].
      + eapply reachable_next; [|done]. apply IH; [done|].
        by apply last_Some_elem_of.
      + apply IH; [done|set_solver]. }
  apply (Hgen l); [|done].
  rewrite app_comm_cons in Hs. by apply seg_app in Hs as (? & _).
Qed.


Lemma wp_list_rotate_left m h l Q :
  dlist m h l →
  (∀ m', dlist m' h (tail l ++ option_list (head l)) →
         frame m m' (h :: l) → Q tt m') →
  wp (list_rotate_left h) m Q.
Proof.
  intros Hd HQ. unfold list_rotate_left. mstep.
  eapply wp_list_empty; [done|]. destruct l as [|x l].
  - rewrite bool_decide_eq_true_2 by done. mstep.
    apply HQ; [done|apply frame_refl].
  - rewrite bool_decide_eq_false_2 by done.
    mstep. eapply wp_get_next; [by eapply dlist_next_head|].
    eapply (wp_list_move_tail_ring x h l [h]).
    + by apply (dlist_rot m h [] (x :: l)).
    + done.
    + intros m' Hr Hf. apply HQ.
      * simpl. apply dlist_snoc_ring. by rewrite <- app_assoc.
      * eapply frame_weaken; [done|set_solver].
Qed.





Lemma list_del_init_twice m x R :
  ring m (x :: R) →
  ∃ m', list_del_init x m = Some (tt, m')
        ∧ list_del_init x m' = Some (tt, m')
        ∧ ring m' R ∧ ring m' [x].
Proof.
  intros Hr.
  destruct (wp_list_del_init_ring x R m
              (λ _ m', ring m' R ∧ ring m' [x]))
    as ([] & m' & Hrun & HR & Hx); [done|by intros|].
  exists m'. split_and!; [done| |done..].
  destruct (wp_list_del_init_ring x [] m'
              (λ _ m'', ring m'' [x] ∧ frame m' m'' [x]))
    as ([] & m'' & Hrun' & Hx' & [_ Hf]); [done|by intros|].
  rewrite Hrun'. do 2 f_equal. apply map_eq. intros a.
  destruct (decide (a = x)) as [->|]; [|apply Hf; set_solver].
  apply ring_singleton in Hx as [? ?], Hx' as [? ?].
  apply lookup_fields; congruence.
Qed.

(** *** The theorems on a concrete heap *)

Ltac solve_nodup :=
  repeat (apply NoDup_cons_2; [set_solver|]); apply NoDup_nil_2.

Ltac solve_dlist :=
  split; [solve_nodup | simpl; repeat split; vm_compute; reflexivity].

Lemma ex_mem_list1 : dlist ex_mem 1 [2; 3].
Proof. solve_dlist. Qed.

Lemma ex_mem_list5 : dlist ex_mem 5 [6].
Proof. solve_dlist. Qed.

Lemma ex_mem_dom a : a ∈ [1; 2; 3; 4; 5; 6; 7] → a ∈ dom ex_mem.
Proof.
  intros Ha. apply elem_of_dom.
  repeat (apply elem_of_cons in Ha as [->|Ha]; [by vm_compute; eauto|]).
  by apply elem_of_nil in Ha.
Qed.

Lemma ex_empty_list2 : dlist ex_empty 2 [3].
Proof. solve_dlist. Qed.

Lemma ex_empty_list1 : dlist ex_empty 1 [].
Proof. solve_dlist. Qed.

Lemma ex_two_list1 : dlist ex_two 1 [2].
Proof. solve_dlist. Qed.




(** C3 on [ex_mem]: [list_add(4, 1); list_del(4)]. *)
Lemma list_add_del_roundtrip_witness :
  dlist ex_mem 1 [2; 3]
  ∧ ∃ m', (list_add 4 1 ;; list_del 4) ex_mem = Some (tt, m')
          ∧ m' = <[4 := mk_list_head LIST_POISON1 LIST_POISON2]> ex_mem
          ∧ (∀ a, a ≠ 4 → m' !! a = ex_mem !! a)
          ∧ dlist m' 1 [2; 3].
Proof.
  split; [apply ex_mem_list1|].
  apply (list_add_del_roundtrip ex_mem 1 [2; 3] 4).
  - apply ex_mem_list1.
  - apply ex_mem_dom. set_solver.
  - set_solver.
Defined.

(** C4 on [ex_mem]: [list_splice_init(1, 5)]. *)
Lemma list_splice_correct_witness :
  dlist ex_mem 1 [2; 3] ∧ dlist ex_mem 5 [6]
  ∧ ∃ m', list_splice_init 1 5 ex_mem = Some (tt, m')
          ∧ dlist m' 5 ([2; 3] ++ [6])
          ∧ (∀ fuel, (length ([2; 3] ++ [6]) < fuel)%nat →
               list_for_each fuel (λ _, mret tt) 5 m'
               = Some ([2; 3] ++ [6], m'))
          ∧ dlist m' 1 [] ∧ list_empty 1 m' = Some (true, m').
Proof.
  split; [apply ex_mem_list1|]. split; [apply ex_mem_list5|].
  destruct (list_splice_correct ex_mem 1 [2; 3] 5 [6]) as [Hne _].
  - apply ex_mem_list1.
  - apply ex_mem_list5.
  - set_solver.
  - destruct Hne as (_ & H2 & _); [done|]. exact H2.
Defined.

(** C5 on [ex_mem]: [list_cut_position(7, 1, 2)]. *)
Lemma list_cut_position_correct_witness :
  ∃ m', list_cut_position 7 1 2 ex_mem = Some (tt, m')
        ∧ dlist m' 7 ([] ++ [2]) ∧ dlist m' 1 [3].
Proof.
  destruct (list_cut_position_correct ex_mem 1 [2; 3] 7) as (Hcut & _).
  - apply ex_mem_list1.
  - apply ex_mem_dom. set_solver.
  - set_solver.
  - apply (Hcut [] 2 [3]). reflexivity.
Defined.

(** C5 as first stated fails on an empty head: [list_cut_position(2, 1, 1)]
    returns at once, and the list [2], whose data the caller gave up, still
    holds its entry [3]: it is not left an empty list. *)
Lemma list_cut_position_empty_head_counterexample :
  dlist ex_empty 1 [] ∧ dlist ex_empty 2 [3]
  ∧ list_cut_position 2 1 1 ex_empty = Some (tt, ex_empty)
  ∧ list_empty 2 ex_empty = Some (false, ex_empty)
  ∧ ¬ dlist ex_empty 2 [].
Proof.
  split; [apply ex_empty_list1|]. split; [apply ex_empty_list2|].
  split; [by vm_compute|]. split; [by vm_compute|].
  intros [_ [[Hn _] _]]. vm_compute in Hn. discriminate.
Qed.

(** C6 on [ex_mem]: deleting every entry of the list [1]. *)
Lemma list_for_each_safe_delete_all_witness :
  dlist ex_mem 1 [2; 3]
  ∧ NoDup [2; 3]
  ∧ (∃ m', list_for_each_safe 3 list_del 1 ex_mem = Some ([2; 3], m')
           ∧ dlist m' 1 [])
  ∧ (∀ off, ∃ m',
       list_for_each_entry_safe 3 off (λ pos, list_del (member_of off pos))
         1 ex_mem
       = Some (container_of off <$> [2; 3], m')
       ∧ dlist m' 1 []).
Proof.
  split; [apply ex_mem_list1|].
  apply (list_for_each_safe_delete_all ex_mem 1 [2; 3]).
  - apply ex_mem_list1.
  - simpl. lia.
Defined.

(** C8 on [ex_mem]: [list_swap(2, 3)] on adjacent entries. *)
Lemma list_swap_correct_witness :
  ∃ m', list_swap 2 3 ex_mem = Some (tt, m')
        ∧ dlist m' 1 ([] ++ 3 :: [] ++ 2 :: []).
Proof.
  destruct (list_swap_correct ex_mem 2 3) as (Hfwd & _).
  apply (Hfwd 1 [] [] []). apply ex_mem_list1.
Defined.

End DListSpec.

(** ** Proofs about hlist.h *)

Module HListSpec.
Import HList.

(** *** Field accesses *)

Lemma ppv_valid m n p : ppv m n = Some p → valid m (NextOf n).
Proof. unfold ppv, valid. simpl. destruct (nodes m !! n); [eauto|done]. Qed.

Lemma load_valid m s v : load_slot m s = Some v → valid m s.
Proof. unfold valid. eauto. Qed.

Lemma valid_node m n : valid m (NextOf n) ↔ is_Some (nodes m !! n).
Proof. unfold valid. simpl. by rewrite fmap_is_Some. Qed.

Lemma valid_upd_slot s v m t : valid (upd_slot s v m) t ↔ valid m t.
Proof.
  unfold valid. destruct s as [a|h|n], t as [b|h'|n']; simpl; try done.
  - rewrite !fmap_is_Some. destruct (decide (h' = h)) as [->|].
    + rewrite lookup_alter_eq. by rewrite fmap_is_Some.
    + by rewrite lookup_alter_ne.
  - rewrite !fmap_is_Some. destruct (decide (n' = n)) as [->|].
    + rewrite lookup_alter_eq. by rewrite fmap_is_Some.
    + by rewrite lookup_alter_ne.
Qed.

Lemma valid_upd_pprev n v m t : valid (upd_pprev n v m) t ↔ valid m t.
Proof.
  unfold valid. destruct t as [b|h'|n']; simpl; try done.
  rewrite !fmap_is_Some. destruct (decide (n' = n)) as [->|].
  - rewrite lookup_alter_eq. by rewrite fmap_is_Some.
  - by rewrite lookup_alter_ne.
Qed.

Lemma load_upd_slot s v m t :
  valid m s →
  load_slot (upd_slot s v m) t = if decide (t = s) then Some v else load_slot m t.
Proof.
  intros [w Hw]. destruct (decide (t = s)) as [->|Hne].
  - destruct s as [a|h|n]; [done|..]; simpl in *.
    + rewrite lookup_alter_eq. by destruct (heads m !! h).
    + rewrite lookup_alter_eq. by destruct (nodes m !! n).
  - destruct s as [a|h|n], t as [b|h'|n']; simpl; try done.
    + rewrite lookup_alter_ne; [done|congruence].
    + rewrite lookup_alter_ne; [done|congruence].
Qed.

Lemma load_upd_pprev n v m t : load_slot (upd_pprev n v m) t = load_slot m t.
Proof.
  destruct t as [b|h'|n']; simpl; [done..|].
  destruct (decide (n' = n)) as [->|].
  - rewrite lookup_alter_eq. by destruct (nodes m !! n).
  - by rewrite lookup_alter_ne.
Qed.

Lemma ppv_upd_slot s v m a : ppv (upd_slot s v m) a = ppv m a.
Proof.
  unfold ppv. destruct s as [?|h|n]; simpl; [done..|].
  destruct (decide (a = n)) as [->|].
  - rewrite lookup_alter_eq. by destruct (nodes m !! n).
  - by rewrite lookup_alter_ne.
Qed.

Lemma ppv_upd_pprev n v m a :
  valid m (NextOf n) →
  ppv (upd_pprev n v m) a = if decide (a = n) then Some v else ppv m a.
Proof.
  intros [x Hx]%valid_node. unfold ppv. simpl. case_decide as Hd.
  - subst. by rewrite lookup_alter_eq, Hx.
  - by rewrite lookup_alter_ne.
Qed.

(** A heap is determined by the fields of its structures. *)
Lemma hmem_fields_eq m m' :
  (∀ s, load_slot m' s = load_slot m s) → (∀ a, ppv m' a = ppv m a) → m' = m.
Proof.
  intros Hl Hp. destruct m as [hs ns], m' as [hs' ns']. f_equal.
  - apply map_eq. intros h. specialize (Hl (FirstOf h)). simpl in Hl.
    destruct (hs' !! h) as [[]|], (hs !! h) as [[]|]; simpl in *; congruence.
  - apply map_eq. intros n. specialize (Hl (NextOf n)). specialize (Hp n).
    unfold ppv in Hp. simpl in *.
    destruct (ns' !! n) as [[]|], (ns !! n) as [[]|]; simpl in *; congruence.
Qed.

Lemma wp_get_first h v m Q :
  load_slot m (FirstOf h) = Some v → Q v m → wp (get_first h) m Q.
Proof.
  simpl. intros Hh HQ. exists v, m. split; [|done]. unfold get_first.
  destruct (heads m !! h); simplify_eq/=. done.
Qed.

Lemma wp_node_get_next n v m Q :
  load_slot m (NextOf n) = Some v → Q v m → wp (get_next n) m Q.
Proof.
  simpl. intros Hh HQ. exists v, m. split; [|done]. unfold get_next.
  destruct (nodes m !! n); simplify_eq/=. done.
Qed.

Lemma wp_get_pprev n p m Q :
  ppv m n = Some p → Q p m → wp (get_pprev n) m Q.
Proof.
  unfold ppv. intros Hh HQ. exists p, m. split; [|done]. unfold get_pprev.
  destruct (nodes m !! n); simplify_eq/=. done.
Qed.

Lemma wp_store_slot s v m Q :
  valid m s → Q tt (upd_slot s v m) → wp (store_slot s v) m Q.
Proof.
  intros [w Hw] HQ. exists tt, (upd_slot s v m). split; [|done].
  destruct s as [a|h|n]; [done|..]; simpl in *.
  - unfold set_first. destruct (heads m !! h) as [x|] eqn:Hx; [|done]. simpl.
    do 3 f_equal. apply map_eq. intros a. destruct (decide (a = h)) as [->|].
    + by rewrite lookup_insert_eq, lookup_alter_eq, Hx.
    + by rewrite lookup_insert_ne, lookup_alter_ne.
  - unfold set_next. destruct (nodes m !! n) as [x|] eqn:Hx; [|done]. simpl.
    do 3 f_equal. apply map_eq. intros a. destruct (decide (a = n)) as [->|].
    + by rewrite lookup_insert_eq, lookup_alter_eq, Hx.
    + by rewrite lookup_insert_ne, lookup_alter_ne.
Qed.

Lemma wp_set_first h v m Q :
  valid m (FirstOf h) → Q tt (upd_slot (FirstOf h) v m) →
  wp (set_first h v) m Q.
Proof. apply (wp_store_slot (FirstOf h)). Qed.

Lemma wp_node_set_next n v m Q :
  valid m (NextOf n) → Q tt (upd_slot (NextOf n) v m) → wp (set_next n v) m Q.
Proof. apply (wp_store_slot (NextOf n)). Qed.

Lemma wp_set_pprev n v m Q :
  valid m (NextOf n) → Q tt (upd_pprev n v m) → wp (set_pprev n v) m Q.
Proof.
  intros [x Hx]%valid_node HQ. exists tt, (upd_pprev n v m). split; [|done].
  unfold set_pprev, upd_pprev. rewrite Hx. simpl. do 3 f_equal.
  apply map_eq. intros a. destruct (decide (a = n)) as [->|].
  - by rewrite lookup_insert_eq, lookup_alter_eq, Hx.
  - by rewrite lookup_insert_ne, lookup_alter_ne.
Qed.

(** *** Symbolic execution *)

#[local] Arguments load_slot : simpl never.
#[local] Arguments ppv : simpl never.
#[local] Arguments upd_slot : simpl never.
#[local] Arguments upd_pprev : simpl never.

Ltac hvalid :=
  repeat first [ apply valid_upd_slot | apply valid_upd_pprev ];
  first [ assumption
        | eapply load_valid; eassumption
        | eapply ppv_valid; eassumption ].

Ltac hsimpl :=
  repeat first
    [ rewrite load_upd_pprev | rewrite ppv_upd_slot
    | rewrite load_upd_slot by hvalid
    | rewrite ppv_upd_pprev by hvalid ].

Ltac hdec :=
  repeat first
    [ rewrite decide_True by (done || congruence)
    | rewrite decide_False by (done || congruence) ].

Ltac hread := hsimpl; hdec; first [ eassumption | reflexivity ].

Ltac hstep :=
  lazymatch goal with
  | |- wp (_ ≫= _) _ _ => apply wp_bind
  | |- wp (mret _) _ _ => apply wp_ret
  | |- wp (get_first _) _ _ => eapply wp_get_first; [hread|]
  | |- wp (get_next _) _ _ => eapply wp_node_get_next; [hread|]
  | |- wp (get_pprev _) _ _ => eapply wp_get_pprev; [hread|]
  | |- wp (set_first _ _) _ _ => apply wp_set_first; [hvalid|]
  | |- wp (set_next _ _) _ _ => apply wp_node_set_next; [hvalid|]
  | |- wp (set_pprev _ _) _ _ => apply wp_set_pprev; [hvalid|]
  | |- wp (store_slot _ _) _ _ => apply wp_store_slot; [hvalid|]
  end.

Ltac hsteps := repeat hstep.


(** *** Chains *)

Lemma last_slot_nil s : last_slot s [] = s.
Proof. done. Qed.

Lemma last_slot_cons s n l : last_slot s (n :: l) = last_slot (NextOf n) l.
Proof.
  unfold last_slot. destruct l as [|x l]; [done|]. rewrite last_cons_cons.
  destruct (last (x :: l)) eqn:Hl; [done|]. by apply last_None in Hl.
Qed.

Lemma last_slot_app s l1 l2 :
  last_slot s (l1 ++ l2) = last_slot (last_slot s l1) l2.
Proof.
  revert s. induction l1 as [|n l1 IH]; intros s; [done|].
  simpl. by rewrite !last_slot_cons, IH.
Qed.

Lemma last_slot_snoc s l n : last_slot s (l ++ [n]) = NextOf n.
Proof. by rewrite last_slot_app. Qed.

Lemma hlinks_app m s l1 l2 :
  hlinks m s (l1 ++ l2) ↔ hlinks m s l1 ∧ hlinks m (last_slot s l1) l2.
Proof.
  revert s. induction l1 as [|n l1 IH]; intros s; simpl.
  - naive_solver.
  - rewrite IH, last_slot_cons. naive_solver.
Qed.

Lemma hlinks_frame m m' s l :
  NoDup l → hlinks m s l →
  (l ≠ [] → load_slot m' s = load_slot m s) →
  (∀ n, n ∈ l → last l ≠ Some n →
        load_slot m' (NextOf n) = load_slot m (NextOf n)) →
  (∀ n, n ∈ l → ppv m' n = ppv m n) →
  hlinks m' s l.
Proof.
  revert s. induction l as [|n l IH]; intros s Hnd Hl Hs Hn Hp; [done|].
  apply NoDup_cons in Hnd as [Hnl Hnd]. destruct Hl as (Hn0 & Hsn & Hpn & Hl).
  simpl. split_and!; [done|by rewrite Hs|rewrite Hp; [done|set_solver]|].
  apply IH; [done..| | |].
  - intros Hne. apply Hn; [set_solver|].
    destruct l as [|x l]; [done|]. rewrite last_cons_cons.
    intros Hx%last_Some_elem_of. done.
  - intros a Ha Hla. apply Hn; [set_solver|].
    destruct l as [|x l]; [by apply elem_of_nil in Ha|].
    by rewrite last_cons_cons.
  - intros a Ha. apply Hp. set_solver.
Qed.

Lemma hlinks_nonnull m s l n : hlinks m s l → n ∈ l → n ≠ NULL.
Proof.
  revert s. induction l as [|x l IH]; intros s Hl Hn.
  - by apply elem_of_nil in Hn.
  - destruct Hl as (? & _ & _ & Hl).
    apply elem_of_cons in Hn as [->|Hn]; [done|]. by eapply IH.
Qed.

Lemma hlinks_ppv_valid m s l n : hlinks m s l → n ∈ l → valid m (NextOf n).
Proof.
  revert s. induction l as [|x l IH]; intros s Hl Hn.
  - by apply elem_of_nil in Hn.
  - destruct Hl as (? & _ & ? & Hl).
    apply elem_of_cons in Hn as [->|Hn]; [by eapply ppv_valid|]. by eapply IH.
Qed.

(** The facts about a node [n] of a list and its neighbours. *)
Lemma hlist_split m h l1 n l2 :
  hlist m h (l1 ++ n :: l2) →
  let sl := last_slot (FirstOf h) l1 in
  NoDup l1 ∧ NoDup l2 ∧ (n ∉ l1) ∧ (n ∉ l2) ∧ (∀ x, x ∈ l1 → x ∉ l2)
  ∧ n ≠ NULL ∧ (NULL ∉ l1) ∧ (NULL ∉ l2)
  ∧ hlinks m (FirstOf h) l1 ∧ hlinks m (NextOf n) l2
  ∧ load_slot m sl = Some n ∧ ppv m n = Some sl
  ∧ load_slot m (NextOf n) = Some (default NULL (head l2))
  ∧ load_slot m (last_slot (NextOf n) l2) = Some NULL
  ∧ sl ≠ NextOf n ∧ (∀ x, x ∈ l2 → sl ≠ NextOf x).
Proof.
  intros (Hnd & Hl & Hend) sl.
  apply NoDup_app in Hnd as (Hnd1 & Hd12 & [Hn2 Hnd2]%NoDup_cons).
  apply hlinks_app in Hl as (Hl1 & Hn0 & Hsl & Hpn & Hl2).
  rewrite last_slot_app, last_slot_cons in Hend.
  assert (n ∉ l1) by (intros ?; eapply Hd12; [done|set_solver]).
  split_and!; try done.
  - intros x Hx Hx2. eapply Hd12; [done|set_solver].
  - intros Hx. by eapply (hlinks_nonnull _ _ _ NULL Hl1).
  - intros Hx. by eapply (hlinks_nonnull _ _ _ NULL Hl2).
  - destruct l2 as [|y l2]; [done|]. by destruct Hl2 as (_ & ? & _).
  - subst sl. unfold last_slot. destruct (last l1) as [x|] eqn:Hx; [|done].
    apply last_Some_elem_of in Hx. congruence.
  - intros x Hx. subst sl. unfold last_slot.
    destruct (last l1) as [y|] eqn:Hy; [|done].
    apply last_Some_elem_of in Hy. intros [= ->].
    eapply Hd12; [done|set_solver].
Qed.

Lemma hlist_nil m h : hlist m h [] ↔ load_slot m (FirstOf h) = Some NULL.
Proof.
  unfold hlist. simpl. split; [naive_solver|].
  intros ?. split_and!; [apply NoDup_nil_2|done..].
Qed.

Lemma hlist_head_first m h l :
  hlist m h l → load_slot m (FirstOf h) = Some (default NULL (head l)).
Proof.
  intros (_ & Hl & He). destruct l as [|x l]; [done|].
  by destruct Hl as (_ & ? & _).
Qed.


(** *** The operations *)

(** A field that no store of the sequence has written. *)
Ltac hne :=
  first [ done | congruence | intros [= ?]; subst; set_solver | set_solver ].

Ltac hother := hsimpl; rewrite ?decide_False by hne; done.

Lemma wp___hlist_del m h l1 n l2 Q :
  hlist m h (l1 ++ n :: l2) →
  (∀ m', hlist m' h (l1 ++ l2) →
         ppv m' n = ppv m n →
         load_slot m' (NextOf n) = load_slot m (NextOf n) →
         (∀ s, s ≠ last_slot (FirstOf h) l1 → load_slot m' s = load_slot m s) →
         (∀ a, head l2 ≠ Some a → ppv m' a = ppv m a) →
         (∀ s, valid m' s ↔ valid m s) →
         Q tt m') →
  wp (__hlist_del n) m Q.
Proof.
  intros Hh HQ.
  destruct (hlist_split _ _ _ _ _ Hh)
    as (Hnd1 & Hnd2 & Hn1 & Hn2 & H12 & Hn0 & H01 & H02 & Hl1 & Hl2 & Hsl & Hpn
        & Hnn & Hend & Hsn & Hs2).
  set (sl := last_slot (FirstOf h) l1) in *.
  assert (Hfr1 : ∀ m', 
    (∀ s, s ≠ sl → load_slot m' s = load_slot m s) →
    (∀ a, head l2 ≠ Some a → ppv m' a = ppv m a) →
    hlinks m' (FirstOf h) l1).
  { intros m' Hls Hpp. eapply hlinks_frame; [done..| | |].
    - intros Hne. apply Hls. subst sl. unfold last_slot.
      destruct (last l1) eqn:Hl; [done|]. by apply last_None in Hl.
    - intros a Ha Hla. apply Hls. subst sl. unfold last_slot.
      destruct (last l1) eqn:Hl; [congruence|done].
    - intros a Ha. apply Hpp. intros Hx%head_Some_elem_of. by eapply H12. }
  unfold __hlist_del. destruct l2 as [|y l2].
  - simpl in Hnn. hsteps. rewrite decide_False by naive_solver. hstep.
    apply HQ.
    + rewrite app_nil_r. split_and!; [done| |].
      * apply Hfr1; [intros s Hs; hother|intros a Ha; hother].
      * fold sl. hread.
    + hother.
    + hother.
    + intros s Hs. hother.
    + intros a Ha. hother.
    + intros s. apply valid_upd_slot.
  - simpl in Hnn. destruct Hl2 as (Hy0 & _ & Hpy & Hl2).
    apply NoDup_cons in Hnd2 as [Hyl2 Hnd2].
    assert (y ≠ n) by set_solver.
    hsteps. rewrite decide_True by done. hstep. apply HQ.
    + split_and!.
      * apply NoDup_app. split_and!; [done|set_solver|by apply NoDup_cons].
      * apply hlinks_app. split.
        -- apply Hfr1.
           ++ intros s Hs. hother.
           ++ intros a Ha. hsimpl. rewrite decide_False; [done|].
              simpl in Ha. congruence.
        -- fold sl. simpl. split_and!; [done|hread|hread|].
           eapply hlinks_frame; [done..| | |].
           ++ intros _. hsimpl. rewrite decide_False; [done|].
              intros Heq. eapply (Hs2 y); [set_solver|done].
           ++ intros a Ha _. hsimpl. rewrite decide_False; [done|].
              intros Heq. eapply (Hs2 a); [set_solver|done].
           ++ intros a Ha. hsimpl. rewrite decide_False; [done|set_solver].
      * rewrite last_slot_app, last_slot_cons. fold sl.
        rewrite last_slot_cons in Hend. hsimpl.
        rewrite decide_False; [done|].
        unfold last_slot. destruct (last l2) as [z|] eqn:Hz.
        -- apply last_Some_elem_of in Hz. intros Heq.
           eapply (Hs2 z); [set_solver|done].
        -- intros Heq. eapply (Hs2 y); [set_solver|done].
    + hsimpl. by rewrite decide_False.
    + hsimpl. by rewrite decide_False.
    + intros s Hs. hother.
    + intros a Ha. hsimpl. rewrite decide_False; [done|]. simpl in Ha.
      congruence.
    + intros s. rewrite valid_upd_pprev. apply valid_upd_slot.
Qed.


Lemma hlist_frame m m' h l :
  hlist m h l →
  load_slot m' (FirstOf h) = load_slot m (FirstOf h) →
  (∀ a, a ∈ l → load_slot m' (NextOf a) = load_slot m (NextOf a)
                ∧ ppv m' a = ppv m a) →
  hlist m' h l.
Proof.
  intros (Hnd & Hl & He) Hh Ha. split_and!; [done| |].
  - eapply hlinks_frame; [done..| |]; intros; by apply Ha.
  - unfold last_slot in *. destruct (last l) as [x|] eqn:Hx.
    + destruct (Ha x) as [-> _]; [by apply last_Some_elem_of|done].
    + by rewrite Hh.
Qed.

Lemma hlist_valid_head m h l : hlist m h l → valid m (FirstOf h).
Proof. intros Hh. eapply load_valid. by apply hlist_head_first. Qed.

Lemma hlist_valid_node m h l n : hlist m h l → n ∈ l → valid m (NextOf n).
Proof. intros (_ & Hl & _) Hn. by eapply hlinks_ppv_valid. Qed.

Lemma wp_hlist_del m h l1 n l2 Q :
  hlist m h (l1 ++ n :: l2) →
  (∀ m', hlist m' h (l1 ++ l2) →
         ppv m' n = Some (Raw LIST_POISON2) →
         load_slot m' (NextOf n) = Some LIST_POISON1 →
         (∀ s, s ≠ last_slot (FirstOf h) l1 → s ≠ NextOf n →
               load_slot m' s = load_slot m s) →
         (∀ a, head l2 ≠ Some a → a ≠ n → ppv m' a = ppv m a) →
         Q tt m') →
  wp (hlist_del n) m Q.
Proof.
  intros Hh HQ.
  destruct (hlist_split _ _ _ _ _ Hh)
    as (_ & _ & Hn1 & Hn2 & _ & _ & _ & _ & _ & _ & _ & Hpn & _).
  unfold hlist_del. hstep. eapply wp___hlist_del; [done|].
  intros m1 Hh1 Hp1 Hn1' Hs1 Ha1 Hv1.
  assert (valid m1 (NextOf n)) by (apply Hv1; by eapply ppv_valid).
  hsteps. apply HQ.
  - eapply hlist_frame; [done|by hsimpl|]. intros a Ha.
    assert (a ≠ n) by set_solver. split; hother.
  - hread.
  - hread.
  - intros s Hs Hsn. hsimpl. rewrite decide_False by done. by apply Hs1.
  - intros a Ha Han. hsimpl. rewrite decide_False by done. by apply Ha1.
Qed.

Lemma wp_INIT_HLIST_NODE m n Q :
  valid m (NextOf n) →
  (∀ m', ppv m' n = Some (Raw NULL) → load_slot m' (NextOf n) = Some NULL →
         (∀ s, s ≠ NextOf n → load_slot m' s = load_slot m s) →
         (∀ a, a ≠ n → ppv m' a = ppv m a) → Q tt m') →
  wp (INIT_HLIST_NODE n) m Q.
Proof.
  intros Hv HQ. unfold INIT_HLIST_NODE. hsteps. apply HQ.
  - hread.
  - hread.
  - intros s Hs. hother.
  - intros a Ha. hother.
Qed.

Lemma wp_hlist_del_init m h l1 n l2 Q :
  hlist m h (l1 ++ n :: l2) →
  (∀ m', hlist m' h (l1 ++ l2) →
         ppv m' n = Some (Raw NULL) →
         load_slot m' (NextOf n) = Some NULL →
         Q tt m') →
  wp (hlist_del_init n) m Q.
Proof.
  intros Hh HQ.
  destruct (hlist_split _ _ _ _ _ Hh)
    as (_ & _ & Hn1 & Hn2 & _ & _ & _ & _ & _ & _ & _ & Hpn & _).
  unfold hlist_del_init, hlist_unhashed. hsteps.
  rewrite bool_decide_eq_false_2.
  2:{ unfold last_slot. by destruct (last l1). }
  hstep. eapply wp___hlist_del; [done|].
  intros m1 Hh1 Hp1 Hn1' Hs1 Ha1 Hv1.
  apply wp_INIT_HLIST_NODE. { apply Hv1. by eapply ppv_valid. }
  intros m2 Hp2 Hn2' Hs2 Ha2. apply HQ; [|done..].
  eapply hlist_frame; [done|by apply Hs2|]. intros a Ha.
  assert (a ≠ n) by set_solver. split; [apply Hs2; congruence|by apply Ha2].
Qed.

Lemma hlist_del_init_unhashed m n :
  ppv m n = Some (Raw NULL) → hlist_del_init n m = Some (tt, m).
Proof.
  intros Hp.
  assert (wp (hlist_del_init n) m (λ _ m', m' = m)) as ([] & ? & ? & ->);
    [|done].
  unfold hlist_del_init, hlist_unhashed. hsteps.
  rewrite bool_decide_eq_true_2 by done. by hstep.
Qed.

Lemma wp_INIT_HLIST_HEAD m h Q :
  valid m (FirstOf h) →
  (∀ m', hlist m' h [] →
         (∀ s, s ≠ FirstOf h → load_slot m' s = load_slot m s) →
         (∀ a, ppv m' a = ppv m a) → Q tt m') →
  wp (INIT_HLIST_HEAD h) m Q.
Proof.
  intros Hv HQ. unfold INIT_HLIST_HEAD. hsteps. apply HQ.
  - apply hlist_nil. hread.
  - intros s Hs. hother.
  - intros a. hother.
Qed.

Lemma wp_hlist_add_head m h l n Q :
  hlist m h l → n ∉ l → n ≠ NULL → valid m (NextOf n) →
  (∀ m', hlist m' h (n :: l) → Q tt m') →
  wp (hlist_add_head n h) m Q.
Proof.
  intros Hh Hnl Hn0 Hv HQ. pose proof (hlist_head_first _ _ _ Hh) as Hf.
  destruct Hh as (Hnd & Hl & He). unfold hlist_add_head.
  destruct l as [|y l]; simpl in Hf.
  - hsteps. rewrite decide_False by naive_solver. hsteps. apply HQ.
    split_and!; [by apply NoDup_singleton| |].
    + simpl. split_and!; [done|hread|hread|done].
    + rewrite last_slot_cons. simpl. hread.
  - destruct Hl as (Hy0 & _ & Hpy & Hl).
    apply NoDup_cons in Hnd as [Hyl Hnd].
    assert (y ≠ n) by set_solver.
    hsteps. rewrite decide_True by done. hsteps. apply HQ.
    split_and!.
    + apply NoDup_cons. split; [done|by apply NoDup_cons].
    + simpl. split_and!; [done|hread|hread|done|hread|hread|].
      eapply hlinks_frame; [done..| | |].
      * intros _. hother.
      * intros a Ha _. hother.
      * intros a Ha. hother.
    + rewrite !last_slot_cons in *.
      assert (last_slot (NextOf y) l ≠ NextOf n).
      { unfold last_slot. destruct (last l) as [z|] eqn:Hz; [|congruence].
        apply last_Some_elem_of in Hz. intros [= ->]. set_solver. }
      assert (last_slot (NextOf y) l ≠ FirstOf h).
      { unfold last_slot. by destruct (last l). }
      hother.
Qed.


Lemma last_slot_ne_fresh s l n :
  n ∉ l → s ≠ NextOf n → last_slot s l ≠ NextOf n.
Proof.
  intros Hn Hs. unfold last_slot. destruct (last l) as [z|] eqn:Hz; [|done].
  apply last_Some_elem_of in Hz. intros [= ->]. done.
Qed.

Lemma hlinks_prefix_frame m m' h l1 n :
  NoDup l1 → n ∉ l1 → hlinks m (FirstOf h) l1 →
  (∀ s, s ≠ last_slot (FirstOf h) l1 → s ≠ NextOf n →
        load_slot m' s = load_slot m s) →
  (∀ a, a ∈ l1 → ppv m' a = ppv m a) →
  hlinks m' (FirstOf h) l1.
Proof.
  intros Hnd Hn Hl Hls Hpp. eapply hlinks_frame; [done|done| | |done].
  - intros Hne. apply Hls; [|done]. unfold last_slot.
    destruct (last l1) eqn:Hl1; [done|]. by apply last_None in Hl1.
  - intros a Ha Hla. apply Hls.
    + unfold last_slot. destruct (last l1) eqn:Hl1; [congruence|done].
    + intros [= ->]. done.
Qed.

Lemma wp_hlist_add_before m h l1 nx l2 n Q :
  hlist m h (l1 ++ nx :: l2) → n ∉ l1 ++ nx :: l2 → n ≠ NULL →
  valid m (NextOf n) →
  (∀ m', hlist m' h (l1 ++ n :: nx :: l2) → Q tt m') →
  wp (hlist_add_before n nx) m Q.
Proof.
  intros Hh Hnl Hn0 Hv HQ.
  destruct (hlist_split _ _ _ _ _ Hh)
    as (Hnd1 & Hnd2 & Hx1 & Hx2 & H12 & Hx0 & H01 & H02 & Hl1 & Hl2 & Hsl & Hpx
        & Hxn & Hend & Hsx & Hs2).
  set (sl := last_slot (FirstOf h) l1) in *.
  assert (n ≠ nx) by set_solver.
  assert (n ∉ l1) by set_solver. assert (n ∉ l2) by set_solver.
  assert (sl ≠ NextOf n) by (by apply last_slot_ne_fresh).
  unfold hlist_add_before. hsteps. apply HQ. split_and!.
  - apply NoDup_app. split_and!; [done| |].
    + intros a Ha. specialize (H12 a Ha). set_solver.
    + apply NoDup_cons. split; [set_solver|]. apply NoDup_cons. done.
  - apply hlinks_app. fold sl. split.
    + eapply (hlinks_prefix_frame _ _ _ _ n); [done..| |].
      * intros s ? ?. hother.
      * intros a Ha. hother.
    + simpl. split_and!; [done|hread|hread|done|hread|hread|].
      eapply hlinks_frame; [done..| | |].
      * intros _. hother.
      * intros a Ha _. assert (sl ≠ NextOf a) by (by apply Hs2). hother.
      * intros a Ha. hother.
  - rewrite last_slot_app, !last_slot_cons. fold sl.
    assert (last_slot (NextOf nx) l2 ≠ NextOf n).
    { apply last_slot_ne_fresh; [done|congruence]. }
    assert (last_slot (NextOf nx) l2 ≠ sl).
    { unfold last_slot. destruct (last l2) as [z|] eqn:Hz; [|done].
      apply last_Some_elem_of in Hz. intros Heq. by eapply (Hs2 z). }
    hother.
Qed.

Lemma wp_hlist_add_behind m h l1 pv l2 n Q :
  hlist m h (l1 ++ pv :: l2) → n ∉ l1 ++ pv :: l2 → n ≠ NULL →
  valid m (NextOf n) →
  (∀ m', hlist m' h (l1 ++ pv :: n :: l2) → Q tt m') →
  wp (hlist_add_behind n pv) m Q.
Proof.
  intros Hh Hnl Hn0 Hv HQ.
  destruct (hlist_split _ _ _ _ _ Hh)
    as (Hnd1 & Hnd2 & Hx1 & Hx2 & H12 & Hx0 & H01 & H02 & Hl1 & Hl2 & Hsl & Hpx
        & Hxn & Hend & Hsx & Hs2).
  set (sl := last_slot (FirstOf h) l1) in *.
  assert (n ≠ pv) by set_solver.
  assert (sl ≠ NextOf n).
  { apply last_slot_ne_fresh; [set_solver|done]. }
  assert (Hfr1 : ∀ m',
    (∀ s, s ≠ NextOf n → s ≠ NextOf pv → load_slot m' s = load_slot m s) →
    (∀ a, a ∈ l1 → ppv m' a = ppv m a) →
    hlinks m' (FirstOf h) l1).
  { intros m' Hls Hpp. eapply hlinks_frame; [done|done| | |done].
    - intros Hne. by apply Hls.
    - intros a Ha Hla. apply Hls; intros [= ->]; set_solver. }
  assert (Hnd' : NoDup (l1 ++ pv :: n :: l2)).
  { apply NoDup_app. split_and!; [done| |].
    + intros a Ha. specialize (H12 a Ha). set_solver.
    + apply NoDup_cons. split; [set_solver|]. apply NoDup_cons.
      split; [set_solver|done]. }
  unfold hlist_add_behind. destruct l2 as [|y l2]; simpl in Hxn.
  - hsteps. rewrite decide_False by naive_solver. hstep. apply HQ.
    split_and!; [done| |].
    + apply hlinks_app. fold sl. split.
      * apply Hfr1; [intros s ? ?; hother|intros a Ha; hother].
      * simpl. split_and!; [done|hread|hread|done|hread|hread|done].
    + rewrite last_slot_app, !last_slot_cons, last_slot_nil. hread.
  - destruct Hl2 as (Hy0 & _ & Hpy & Hl2).
    apply NoDup_cons in Hnd2 as [Hyl2 Hnd2].
    assert (y ≠ n) by set_solver. assert (y ≠ pv) by set_solver.
    hsteps. rewrite decide_True by done. hsteps. apply HQ.
    split_and!; [done| |].
    + apply hlinks_app. fold sl. split.
      * apply Hfr1; [intros s ? ?; hother|intros a Ha; hother].
      * simpl.
        split_and!; [done|hread|hread|done|hread|hread|done|hread|hread|].
        eapply hlinks_frame; [done..| | |].
        -- intros _. hother.
        -- intros a Ha _. hother.
        -- intros a Ha. hother.
    + rewrite last_slot_app, !last_slot_cons.
      rewrite !last_slot_cons in Hend.
      assert (last_slot (NextOf y) l2 ≠ NextOf n).
      { apply last_slot_ne_fresh; [set_solver|congruence]. }
      assert (last_slot (NextOf y) l2 ≠ NextOf pv).
      { apply last_slot_ne_fresh; [set_solver|congruence]. }
      hother.
Qed.

Lemma wp_hlist_move_list m old new l Q :
  hlist m old l → old ≠ new → valid m (FirstOf new) →
  (∀ m', hlist m' new l → hlist m' old [] → Q tt m') →
  wp (hlist_move_list old new) m Q.
Proof.
  intros Hh Hne Hv HQ. pose proof (hlist_head_first _ _ _ Hh) as Hf.
  destruct Hh as (Hnd & Hl & He). unfold hlist_move_list.
  destruct l as [|y l]; simpl in Hf.
  - hsteps. rewrite decide_False by naive_solver. hsteps. apply HQ.
    + apply hlist_nil. hread.
    + apply hlist_nil. hread.
  - destruct Hl as (Hy0 & _ & Hpy & Hl).
    apply NoDup_cons in Hnd as [Hyl Hnd].
    hsteps. rewrite decide_True by done. hsteps. apply HQ.
    + split_and!; [by apply NoDup_cons| |].
      * simpl. split_and!; [done|hread|hread|].
        eapply hlinks_frame; [done..| | |].
        -- intros _. hother.
        -- intros a Ha _. hother.
        -- intros a Ha. hother.
      * rewrite last_slot_cons in *.
        assert (last_slot (NextOf y) l ≠ FirstOf old).
        { unfold last_slot. by destruct (last l). }
        assert (last_slot (NextOf y) l ≠ FirstOf new).
        { unfold last_slot. by destruct (last l). }
        hother.
    + apply hlist_nil. hread.
Qed.

(** *** The invariant *)

Lemma hlist_node_inv m h l n : hlist m h l → n ∈ l → node_inv m n.
Proof.
  intros Hh (l1 & l2 & ->)%list_elem_of_split.
  destruct (hlist_split _ _ _ _ _ Hh)
    as (_ & _ & _ & _ & _ & _ & _ & _ & _ & Hl2 & Hsl & Hpn & Hnn & _).
  split; [eauto|]. eexists. split; [done|]. intros Hne.
  destruct l2 as [|y l2]; [done|]. by destruct Hl2 as (_ & _ & ? & _).
Qed.

Lemma hlist_in_hlist m h l n : hlist m h l → in_hlist m h n → n ∈ l.
Proof.
  intros Hh Hin. induction Hin as [n Hf Hn0|a n _ IH Ha Hn0].
  - rewrite (hlist_head_first _ _ _ Hh) in Hf.
    destruct l as [|x l]; simplify_eq/=; first [done|set_solver].
  - apply list_elem_of_split in IH as (l1 & l2 & ->).
    destruct (hlist_split _ _ _ _ _ Hh)
      as (_ & _ & _ & _ & _ & _ & _ & _ & _ & _ & _ & _ & Hnn & _).
    rewrite Hnn in Ha.
    destruct l2 as [|y l2]; simplify_eq/=; first [done|set_solver].
Qed.

Lemma hlist_hlist_invariant m h l : hlist m h l → hlist_invariant m h.
Proof.
  intros Hh. exists l. split; [done|]. intros n Hn.
  pose proof (hlist_in_hlist _ _ _ _ Hh Hn). split; [done|].
  by eapply hlist_node_inv.
Qed.


(** C2: for a well-formed hash list rooted at [h], every operation of
    [hlist_op] applied under its documented preconditions [hlist_op_pre]
    runs without fault, and afterwards every node [n] of the list rooted at
    [h] has [*(n->pprev) == n], and [n->next->pprev == &n->next] when
    [n->next] is not null. *)
Theorem hlist_ops_preserve_invariant m h l o :
  hlist m h l →
  hlist_op_pre m h l o →
  ∃ m', run_hlist_op o m = Some (tt, m') ∧ hlist_invariant m' h.
Proof.
  intros Hh Hpre.
  enough (wp (run_hlist_op o) m (λ _ m', hlist_invariant m' h))
    as ([] & m' & ? & ?) by eauto.
  pose proof (hlist_valid_head _ _ _ Hh) as Hvh.
  destruct Hpre as
    [ | h2 Hne Hvh2 | n Hnl Hv | n Hnl Hn0 Hv | n nx Hx Hnl Hn0 Hv
    | n pv Hx Hnl Hn0 Hv | n Hn | n Hn | n Hp
    | h2 Hne Hvh2 | h2 l2 Hne Hh2 ]; simpl.
  - (* INIT_HLIST_HEAD on the head *)
    apply wp_INIT_HLIST_HEAD; [done|]. intros m' Hh' _ _.
    by eapply hlist_hlist_invariant.
  - (* INIT_HLIST_HEAD on another head *)
    apply wp_INIT_HLIST_HEAD; [done|]. intros m' _ Hs Hp.
    eapply hlist_hlist_invariant, hlist_frame; [done|apply Hs; congruence|].
    intros a Ha. split; [by apply Hs|done].
  - (* INIT_HLIST_NODE *)
    apply wp_INIT_HLIST_NODE; [done|]. intros m' _ _ Hs Hp.
    eapply hlist_hlist_invariant, hlist_frame; [done|by apply Hs|].
    intros a Ha. assert (a ≠ n) by set_solver.
    split; [apply Hs; congruence|by apply Hp].
  - (* hlist_add_head *)
    eapply wp_hlist_add_head; [done..|]. intros m' Hh'.
    by eapply hlist_hlist_invariant.
  - (* hlist_add_before *)
    apply list_elem_of_split in Hx as (l1 & l1' & ->).
    eapply wp_hlist_add_before; [done..|]. intros m' Hh'.
    by eapply hlist_hlist_invariant.
  - (* hlist_add_behind *)
    apply list_elem_of_split in Hx as (l1 & l1' & ->).
    eapply wp_hlist_add_behind; [done..|]. intros m' Hh'.
    by eapply hlist_hlist_invariant.
  - (* hlist_del *)
    apply list_elem_of_split in Hn as (l1 & l1' & ->).
    eapply wp_hlist_del; [done|]. intros m' Hh' _ _ _ _.
    by eapply hlist_hlist_invariant.
  - (* hlist_del_init *)
    apply list_elem_of_split in Hn as (l1 & l1' & ->).
    eapply wp_hlist_del_init; [done|]. intros m' Hh' _ _.
    by eapply hlist_hlist_invariant.
  - (* hlist_del_init on an unhashed node *)
    exists tt, m. split; [by apply hlist_del_init_unhashed|].
    by eapply hlist_hlist_invariant.
  - (* hlist_move_list from the list *)
    eapply wp_hlist_move_list; [done..|]. intros m' _ Hh'.
    by eapply hlist_hlist_invariant.
  - (* hlist_move_list to the list *)
    eapply wp_hlist_move_list; [done..|]. intros m' Hh' _.
    by eapply hlist_hlist_invariant.
Qed.

(** C7: [hlist_del(n)] on a node of a well-formed hash list writes only
    the fields of [n] (poisoned), the pointer field that pointed at [n] (the
    [next] of its predecessor, or [first] of the head when [n] is first),
    which now holds the successor of [n], and the [pprev] of that successor,
    which now is the address of that field.  The [next] and [pprev] of every
    other node and the [first] of every other head are as before. *)
Theorem hlist_del_frame m h l1 n l2 :
  hlist m h (l1 ++ n :: l2) →
  ∃ m', hlist_del n m = Some (tt, m')
    ∧ (∀ a, a ≠ n →
         (last l1 ≠ Some a →
          load_slot m' (NextOf a) = load_slot m (NextOf a))
         ∧ (head l2 ≠ Some a → ppv m' a = ppv m a))
    ∧ (∀ h', h' ≠ h ∨ l1 ≠ [] →
         load_slot m' (FirstOf h') = load_slot m (FirstOf h'))
    ∧ load_slot m' (last_slot (FirstOf h) l1) = Some (default NULL (head l2))
    ∧ (∀ y, head l2 = Some y → ppv m' y = Some (last_slot (FirstOf h) l1))
    ∧ load_slot m' (NextOf n) = Some LIST_POISON1
    ∧ ppv m' n = Some (Raw LIST_POISON2)
    ∧ hlist m' h (l1 ++ l2).
Proof.
  intros Hh.
  destruct (hlist_split _ _ _ _ _ Hh)
    as (Hnd1 & Hnd2 & Hn1 & Hn2 & H12 & Hn0 & H01 & H02 & Hl1 & Hl2 & Hsl & Hpn
        & Hnn & Hend & Hsn & Hs2).
  set (sl := last_slot (FirstOf h) l1) in *.
  enough (wp (hlist_del n) m (λ _ m',
    (∀ a, a ≠ n →
       (last l1 ≠ Some a → load_slot m' (NextOf a) = load_slot m (NextOf a))
       ∧ (head l2 ≠ Some a → ppv m' a = ppv m a))
    ∧ (∀ h', h' ≠ h ∨ l1 ≠ [] →
         load_slot m' (FirstOf h') = load_slot m (FirstOf h'))
    ∧ load_slot m' sl = Some (default NULL (head l2))
    ∧ (∀ y, head l2 = Some y → ppv m' y = Some sl)
    ∧ load_slot m' (NextOf n) = Some LIST_POISON1
    ∧ ppv m' n = Some (Raw LIST_POISON2)
    ∧ hlist m' h (l1 ++ l2))) as ([] & m' & ? & ?) by eauto.
  eapply wp_hlist_del; [done|]. intros m' Hh' Hp Hl Hs Ha.
  pose proof Hh' as (_ & Hl' & He'). apply hlinks_app in Hl' as [_ Hl2'].
  fold sl in Hl2'. rewrite last_slot_app in He'. fold sl in He'.
  split_and!; [| | | |done..].
  - intros a Han. split.
    + intros Hla. apply Hs; [|congruence]. subst sl. unfold last_slot.
      destruct (last l1); congruence.
    + intros Hha. by apply Ha.
  - intros h' Hh'h. apply Hs; [|done]. subst sl. unfold last_slot.
    destruct (last l1) eqn:Hlast; [done|]. apply last_None in Hlast.
    destruct Hh'h; congruence.
  - destruct l2 as [|y l2]; [done|]. by destruct Hl2' as (_ & ? & _).
  - intros y Hy. destruct l2 as [|y' l2]; simplify_eq/=.
    by destruct Hl2' as (_ & _ & ? & _).
Qed.


Lemma hlist_del_init_unhashed_after n m m' :
  hlist_del_init n m = Some (tt, m') → ppv m' n = Some (Raw NULL).
Proof.
  intros Hrun. unfold hlist_del_init in Hrun.
  apply bind_inv in Hrun as (u & m1 & Hu & Hrun).
  unfold hlist_unhashed in Hu. apply bind_inv in Hu as (p & m2 & Hp & Hu).
  unfold get_pprev in Hp. unfold ppv.
  destruct (nodes m !! n) as [x|] eqn:Hx; simplify_eq/=.
  unfold mret, M_ret in Hu. simplify_eq. case_bool_decide as Hd.
  - unfold mret, M_ret in Hrun. simplify_eq. by rewrite Hx, <- Hd.
  - apply bind_inv in Hrun as ([] & m3 & _ & Hinit).
    assert (valid m3 (NextOf n)) as Hv.
    { apply valid_node. unfold INIT_HLIST_NODE in Hinit.
      apply bind_inv in Hinit as ([] & ? & Hs & _). unfold set_next in Hs.
      by destruct (nodes m3 !! n). }
    eapply (wp_inv _ _ _ _ (λ _ m', pprev <$> nodes m' !! n = Some (Raw NULL)));
      [exact Hinit|].
    apply wp_INIT_HLIST_NODE; [done|]. by intros m2 Hp2 _ _ _.
Qed.

(** C9 (amended): [hlist_del_init] on an unhashed node ([pprev == NULL]) is
    a no-op on the whole heap; so a second [hlist_del_init] changes nothing
    and two calls in a row are one call, in particular on a node of a
    well-formed hash list, where the first call unlinks it.  The same holds
    for
    [list_del_init] on an entry of a well-formed list: the second call runs
    on the self-linked node the first one leaves, without fault, and changes
    nothing. *)
Theorem hlist_del_init_idempotent n :
  (∀ m, ppv m n = Some (Raw NULL) → hlist_del_init n m = Some (tt, m))
  ∧ (∀ m m', hlist_del_init n m = Some (tt, m') →
       hlist_del_init n m' = Some (tt, m')
       ∧ (hlist_del_init n ;; hlist_del_init n) m = Some (tt, m'))
  ∧ (∀ m h l1 l2, hlist m h (l1 ++ n :: l2) →
       ∃ m', hlist_del_init n m = Some (tt, m')
             ∧ (hlist_del_init n ;; hlist_del_init n) m = Some (tt, m')
             ∧ hlist m' h (l1 ++ l2))
  ∧ (∀ m h l, DList.dlist m h l → n ∈ l →
       ∃ m', DList.list_del_init n m = Some (tt, m')
             ∧ (DList.list_del_init n ;; DList.list_del_init n) m
               = Some (tt, m')).
Proof.
  split_and!.
  - intros m. apply hlist_del_init_unhashed.
  - intros m m' Hrun.
    assert (hlist_del_init n m' = Some (tt, m')) as Hagain.
    { by eapply hlist_del_init_unhashed, hlist_del_init_unhashed_after. }
    split; [done|]. unfold mbind, M_bind at 1. by rewrite Hrun.
  - intros m h l1 l2 Hh.
    destruct (wp_hlist_del_init m h l1 n l2
                (λ _ m', hlist m' h (l1 ++ l2) ∧ ppv m' n = Some (Raw NULL)))
      as ([] & m' & Hrun & Hh' & Hp); [done|by intros|].
    exists m'. split_and!; [done| |done].
    unfold mbind, M_bind at 1. rewrite Hrun.
    by apply hlist_del_init_unhashed.
  - intros m h l Hd (l1 & l2 & ->)%list_elem_of_split.
    apply DListSpec.dlist_rot in Hd.
    destruct (DListSpec.list_del_init_twice _ _ _ Hd) as (m' & H1 & H2 & _).
    exists m'. split; [done|]. unfold mbind, M_bind at 1. by rewrite H1.
Qed.

(** *** The theorems on a concrete heap *)

Ltac solve_nodup :=
  repeat (apply NoDup_cons_2; [set_solver|]); apply NoDup_nil_2.

Ltac solve_hlist :=
  split_and!;
  [ solve_nodup
  | simpl; repeat split; first [ done | vm_compute; reflexivity ]
  | vm_compute; reflexivity ].

Lemma ex_hmem_list1 : hlist ex_hmem 1 [10; 20; 30].
Proof. solve_hlist. Qed.

Lemma ex_hmem_list2 : hlist ex_hmem 2 [].
Proof. solve_hlist. Qed.

(** C2 on [ex_hmem]: [hlist_del(20)]. *)
Lemma hlist_ops_preserve_invariant_witness :
  hlist ex_hmem 1 [10; 20; 30]
  ∧ ∃ m', run_hlist_op (hlist_del_op 20) ex_hmem = Some (tt, m')
          ∧ hlist_invariant m' 1.
Proof.
  split; [apply ex_hmem_list1|].
  apply (hlist_ops_preserve_invariant ex_hmem 1 [10; 20; 30]).
  - apply ex_hmem_list1.
  - apply hpre_del. set_solver.
Defined.

(** C7 on [ex_hmem]: [hlist_del(20)], an interior node. *)
Lemma hlist_del_frame_witness :
  hlist ex_hmem 1 ([10] ++ 20 :: [30])
  ∧ ∃ m', hlist_del 20 ex_hmem = Some (tt, m')
    ∧ (∀ a, a ≠ 20 →
         (last [10] ≠ Some a →
          load_slot m' (NextOf a) = load_slot ex_hmem (NextOf a))
         ∧ (head [30] ≠ Some a → ppv m' a = ppv ex_hmem a))
    ∧ (∀ h', h' ≠ 1 ∨ [10] ≠ [] →
         load_slot m' (FirstOf h') = load_slot ex_hmem (FirstOf h'))
    ∧ load_slot m' (last_slot (FirstOf 1) [10])
      = Some (default NULL (head [30]))
    ∧ (∀ y, head [30] = Some y → ppv m' y = Some (last_slot (FirstOf 1) [10]))
    ∧ load_slot m' (NextOf 20) = Some LIST_POISON1
    ∧ ppv m' 20 = Some (Raw LIST_POISON2)
    ∧ hlist m' 1 ([10] ++ [30]).
Proof.
  split; [apply ex_hmem_list1|].
  apply (hlist_del_frame ex_hmem 1 [10] 20 [30]). apply ex_hmem_list1.
Defined.

(** C9 on [ex_hmem]: [hlist_del_init(40)] on an unhashed node. *)
Lemma hlist_del_init_idempotent_witness :
  ppv ex_hmem 40 = Some (Raw NULL)
  ∧ hlist_del_init 40 ex_hmem = Some (tt, ex_hmem).
Proof.
  split; [reflexivity|].
  destruct (hlist_del_init_idempotent 40) as (Hnoop & _).
  apply Hnoop. reflexivity.
Defined.

(** C9 as first stated fails in its last part: a second [list_del_init]
    is defined, and two calls leave the heap one call leaves. *)
Lemma list_del_init_twice_counterexample :
  DList.dlist DList.ex_two 1 [2]
  ∧ ∃ m', DList.list_del_init 2 DList.ex_two = Some (tt, m')
          ∧ (DList.list_del_init 2 ;; DList.list_del_init 2) DList.ex_two
            = Some (tt, m').
Proof.
  split; [apply DListSpec.ex_two_list1|].
  eexists. split; by vm_compute.
Qed.

End HListSpec.

(** ** Further properties of list.h *)

Module DListProps.
Import DList DListSpec DListIter.

Ltac lprop :=
  repeat first
    [ rewrite elem_of_cons in * | rewrite elem_of_app in *
    | rewrite elem_of_nil in * ].

Ltac lnorm := repeat (progress (rewrite <- ?app_assoc; simpl)).
Ltac lnorm_in H :=
  repeat (progress (rewrite <- ?app_assoc in H; simpl in H)).

Lemma wp_eq {St A} (c : M St A) s a s' :
  wp c s (λ r t, r = a ∧ t = s') → c s = Some (a, s').
Proof. by intros (? & ? & ? & -> & ->). Qed.

Lemma dlist_entry_ring m h l1 n l2 :
  dlist m h (l1 ++ n :: l2) ↔ ring m (n :: l2 ++ h :: l1).
Proof. apply (dlist_rot m h l1 (n :: l2)). Qed.

(** *** Insertion *)

(** X1: for a well-formed list [h] and an allocated node [new] outside it,
    [list_add(new, h)] makes [new] the first entry and
    [list_add_tail(new, h)] the last one (a stack and a queue); with an entry
    [x] in place of the head, [list_add] inserts [new] right after [x] and
    [list_add_tail] right before it.  The other entries keep their order. *)
Theorem list_add_position m h l new :
  dlist m h l → new ∈ dom m → new ∉ h :: l →
  (∃ m', list_add new h m = Some (tt, m') ∧ dlist m' h (new :: l))
  ∧ (∃ m', list_add_tail new h m = Some (tt, m') ∧ dlist m' h (l ++ [new]))
  ∧ (∀ l1 x l2, l = l1 ++ x :: l2 →
       (∃ m', list_add new x m = Some (tt, m')
              ∧ dlist m' h (l1 ++ x :: new :: l2))
       ∧ (∃ m', list_add_tail new x m = Some (tt, m')
                ∧ dlist m' h (l1 ++ new :: x :: l2))).
Proof.
  intros Hd Hal Hn. split_and!.
  - destruct (wp_list_add_ring new h (l ++ [h]) m
                (λ _ m', dlist m' h (new :: l)))
      as ([] & m' & ? & ?); [by apply dlist_snoc_ring|by rewrite last_snoc
                            |set_solver|done| |eauto].
    intros m' Hr _. apply (dlist_rot m' h [] (new :: l)).
    apply (ring_rotate _ (l ++ [h]) [new]) in Hr. simpl in *. done.
  - destruct (wp_list_add_tail_ring new h (h :: l) m
                (λ _ m', dlist m' h (l ++ [new])))
      as ([] & m' & ? & ?); [by apply dlist_ring|done|done|done| |eauto].
    intros m' Hr _. by apply dlist_ring.
  - intros l1 x l2 ->. split.
    + destruct (wp_list_add_ring new x (l2 ++ h :: l1 ++ [x]) m
                  (λ _ m', dlist m' h (l1 ++ x :: new :: l2)))
        as ([] & m' & ? & ?); [| | |done| |eauto].
      * apply (dlist_rot m h (l1 ++ [x]) l2). by rewrite <- app_assoc.
      * by rewrite app_comm_cons, app_assoc, last_snoc.
      * set_solver.
      * intros m' Hr _.
        replace (l1 ++ x :: new :: l2) with ((l1 ++ [x; new]) ++ l2)
          by (by rewrite <- app_assoc).
        apply dlist_rot. lnorm_in Hr. lnorm. exact Hr.
    + destruct (wp_list_add_tail_ring new x (x :: l2 ++ h :: l1) m
                  (λ _ m', dlist m' h (l1 ++ new :: x :: l2)))
        as ([] & m' & ? & ?); [| done | |done| |eauto].
      * by apply (dlist_rot m h l1 (x :: l2)).
      * set_solver.
      * intros m' Hr _.
        replace (l1 ++ new :: x :: l2) with ((l1 ++ [new]) ++ x :: l2)
          by (by rewrite <- app_assoc).
        apply dlist_rot. lnorm_in Hr. lnorm. exact Hr.
Qed.


(** *** Deletion *)

(** The fields of an entry of a list: its neighbours. *)
Lemma dlist_entry_fields m h l1 n l2 p q :
  dlist m h (l1 ++ n :: l2) →
  last (h :: l1) = Some p → head (l2 ++ [h]) = Some q →
  nxt m n = Some q ∧ prv m n = Some p ∧ nxt m p = Some n ∧ prv m q = Some n
  ∧ p ≠ n ∧ q ≠ n ∧ p ∈ dom m ∧ q ∈ dom m ∧ n ∈ dom m.
Proof.
  intros Hd Hp Hq. pose proof Hd as Hr. apply dlist_entry_ring in Hr.
  assert (last (l2 ++ h :: l1) = Some p) as Hp'.
  { by rewrite last_app_nonempty. }
  assert (head (l2 ++ h :: l1) = Some q) as Hq'.
  { destruct l2; simpl in *; congruence. }
  destruct (ring_cons_fields _ _ _ _ _ Hr Hp' Hq') as (? & ? & ? & ?).
  destruct Hr as [Hnd _]. apply NoDup_cons in Hnd as [Hn _].
  apply last_Some_elem_of in Hp'. apply head_Some_elem_of in Hq'.
  split_and!; try done; try (intros ->; done);
    first [by eapply nxt_Some_alloc | by eapply prv_Some_alloc].
Qed.

Lemma list_del_clearprev_unfold n m :
  __list_del_clearprev n m = (__list_del_entry n ;; set_prev n NULL) m.
Proof.
  unfold __list_del_clearprev, __list_del_entry, mbind, M_bind, get_prev,
    get_next.
  destruct (m !! n) as [x|] eqn:Hx; simpl; [|done]. rewrite Hx. simpl.
  by destruct (__list_del (prev x) (next x) m) as [[[] ?]|].
Qed.

Lemma list_del_clearprev_spec m h l1 n l2 :
  dlist m h (l1 ++ n :: l2) →
  ∃ m', __list_del_clearprev n m = Some (tt, m')
        ∧ dlist m' h (l1 ++ l2)
        ∧ prv m' n = Some NULL ∧ nxt m' n = nxt m n.
Proof.
  intros Hd. pose proof Hd as Hr. apply dlist_entry_ring in Hr.
  assert (n ∈ dom m) as Hna by (by eapply ring_cons_alloc).
  pose proof Hr as [Hnd _]. apply NoDup_cons in Hnd as [Hn _].
  enough (wp (__list_del_entry n ;; set_prev n NULL) m (λ _ m',
            dlist m' h (l1 ++ l2) ∧ prv m' n = Some NULL
            ∧ nxt m' n = nxt m n)) as ([] & m' & ? & ?).
  { exists m'. by rewrite list_del_clearprev_unfold. }
  mstep. eapply wp___list_del_entry; [done|]. intros m1 Hr1 Hf1.
  pose proof (frame_dom _ _ _ _ Hf1 Hna). destruct Hf1 as [_ Hf1].
  mstep. split_and!.
  - apply dlist_rot. eapply ring_frame; [done|]. intros a Ha.
    apply lookup_upd_prev_ne. by intros ->.
  - msimpl. by mdec.
  - msimpl. unfold nxt. by rewrite Hf1.
Qed.

(** The heap after [list_del]. *)
Lemma list_del_heap m n p q :
  nxt m n = Some q → prv m n = Some p → p ∈ dom m → q ∈ dom m →
  list_del n m
  = Some (tt, upd_prev n LIST_POISON2 (upd_next n LIST_POISON1
                (upd_next p q (upd_prev q p m)))).
Proof.
  intros Hq Hp Hpa Hqa.
  assert (wp (list_del n) m (λ _ m',
    m' = upd_prev n LIST_POISON2 (upd_next n LIST_POISON1
           (upd_next p q (upd_prev q p m))))) as ([] & ? & ? & ->); [|done].
  unfold list_del, __list_del_entry, __list_del. msteps. done.
Qed.

(** X2: [list_del(n)] on an entry [n] with predecessor [p] and successor
    [q] leaves the list without [n] and the others in order, links [p] and
    [q] to each other, stores the two poison values in [n], and writes no
    other field: the [next] of every node but [n] and [p], and the [prev] of
    every node but [n] and [q], are as before.  Afterwards [list_empty(n)]
    is false.  [__list_del_clearprev(n)] unlinks [n] the same way, but
    leaves [n->next] and sets [n->prev] to [NULL]. *)
Theorem list_del_unlinks m h l1 n l2 p q :
  dlist m h (l1 ++ n :: l2) →
  last (h :: l1) = Some p → head (l2 ++ [h]) = Some q →
  ∃ m', list_del n m = Some (tt, m')
        ∧ dlist m' h (l1 ++ l2)
        ∧ m' !! n = Some (mk_list_head LIST_POISON1 LIST_POISON2)
        ∧ nxt m' p = Some q ∧ prv m' q = Some p
        ∧ (∀ a, a ≠ n → (a ≠ p → nxt m' a = nxt m a)
                         ∧ (a ≠ q → prv m' a = prv m a))
        ∧ (n ≠ LIST_POISON1 → list_empty n m' = Some (false, m'))
        ∧ ∃ m'', __list_del_clearprev n m = Some (tt, m'')
                 ∧ dlist m'' h (l1 ++ l2)
                 ∧ prv m'' n = Some NULL ∧ nxt m'' n = Some q.
Proof.
  intros Hd Hp Hq.
  destruct (dlist_entry_fields _ _ _ _ _ _ _ Hd Hp Hq)
    as (Hnq & Hnp & Hpn & Hqn & Hpne & Hqne & Hpa & Hqa & Hna).
  destruct (wp_list_del_ring n (l2 ++ h :: l1) m
              (λ _ m', dlist m' h (l1 ++ l2)
                 ∧ m' !! n = Some (mk_list_head LIST_POISON1 LIST_POISON2)))
    as ([] & m' & Hrun & Hd' & Hn'); [by apply dlist_entry_ring| |].
  { intros m' Hr ? _. split; [by apply dlist_rot|done]. }
  exists m'. split; [done|]. split; [done|]. split; [done|].
  rewrite (list_del_heap _ _ _ _ Hnq Hnp Hpa Hqa) in Hrun.
  injection Hrun as <-. split_and!.
  - msimpl. by mdec.
  - msimpl. by mdec.
  - intros a Ha. split; intros ?; msimpl; by mdec.
  - intros Hne. unfold list_empty, get_next, mbind, M_bind, mret, M_ret.
    rewrite Hn'. simpl. by rewrite bool_decide_eq_false_2.
  - destruct (list_del_clearprev_spec _ _ _ _ _ Hd)
      as (m'' & ? & ? & ? & Hnx).
    exists m''. split_and!; [done..|]. by rewrite Hnx.
Qed.

(** X3: after [list_del(n)], when no structure lives at the address
    [LIST_POISON1], every further [list_del(n)], [list_del_init(n)],
    [list_move(n, ref)] and [list_add(new, n)] is undefined: it writes
    through the poison pointer. *)
Theorem list_del_twice_faults m h l1 n l2 :
  dlist m h (l1 ++ n :: l2) → LIST_POISON1 ∉ dom m →
  (list_del n ;; list_del n) m = None
  ∧ (list_del n ;; list_del_init n) m = None
  ∧ (∀ ref, (list_del n ;; list_move n ref) m = None)
  ∧ (∀ new, (list_del n ;; list_add new n) m = None).
Proof.
  intros Hd Hpo.
  destruct (wp_list_del_ring n (l2 ++ h :: l1) m
              (λ _ m', m' !! n = Some (mk_list_head LIST_POISON1 LIST_POISON2)
                       ∧ dom m' = dom m))
    as ([] & m' & Hrun & Hn' & Hdom); [by apply dlist_entry_ring| |].
  { intros m' _ ? [? _]. done. }
  assert (m' !! LIST_POISON1 = None) as Hnone.
  { apply not_elem_of_dom. by rewrite Hdom. }
  split_and!; [| |intros ref|intros new];
    unfold mbind at 1, M_bind at 1; rewrite Hrun;
    unfold list_del, list_del_init, list_move, list_add, __list_del_entry,
      __list_del, __list_add, get_prev, get_next, set_prev,
      mbind, M_bind, mret, M_ret;
    repeat (rewrite Hn'; cbn [option_bind next prev]); by rewrite Hnone.
Qed.

(** *** Replacement *)

(** The heap after [list_replace] of a node whose neighbours are other
    nodes. *)
Lemma list_replace_heap m old new p q :
  nxt m old = Some q → prv m old = Some p → q ≠ old → p ≠ old →
  new ≠ old → new ≠ p → new ≠ q →
  new ∈ dom m → p ∈ dom m → q ∈ dom m →
  list_replace old new m
  = Some (tt, upd_next p new (upd_prev new p (upd_prev q new
                (upd_next new q m)))).
Proof.
  intros.
  assert (wp (list_replace old new) m (λ _ m',
    m' = upd_next p new (upd_prev new p (upd_prev q new
           (upd_next new q m))))) as ([] & ? & ? & ->); [|done].
  unfold list_replace. msteps. done.
Qed.

(** X4: for an allocated node [new] outside the list [h],
    [list_replace(old, new)] on an entry [old] puts [new] at the place of
    [old] and does not write [old]; [list_replace_init(old, new)] does the
    same and leaves [old] an empty list; [list_replace(h, new)] on the head
    makes [new] the head of the same entries. *)
Theorem list_replace_correct m h l new :
  dlist m h l → new ∈ dom m → new ∉ h :: l →
  (∀ l1 old l2, l = l1 ++ old :: l2 →
     (∃ m', list_replace old new m = Some (tt, m')
            ∧ dlist m' h (l1 ++ new :: l2) ∧ m' !! old = m !! old)
     ∧ (∃ m', list_replace_init old new m = Some (tt, m')
              ∧ dlist m' h (l1 ++ new :: l2) ∧ dlist m' old []))
  ∧ (∃ m', list_replace h new m = Some (tt, m') ∧ dlist m' new l).
Proof.
  intros Hd Hal Hn. split.
  - intros l1 old l2 ->.
    destruct (last (h :: l1)) as [p|] eqn:Hp; [|by apply last_None in Hp].
    destruct (head (l2 ++ [h])) as [q|] eqn:Hq; [|by destruct l2].
    destruct (dlist_entry_fields _ _ _ _ _ _ _ Hd Hp Hq)
      as (Hnq & Hnp & Hpn & Hqn & Hpne & Hqne & Hpa & Hqa & Hna).
    assert (new ≠ p).
    { intros ->. apply last_Some_elem_of in Hp. set_solver. }
    assert (new ≠ q).
    { intros ->. apply head_Some_elem_of in Hq. set_solver. }
    assert (new ≠ old) by set_solver.
    assert (wp (list_replace old new) m (λ _ m',
              dlist m' h (l1 ++ new :: l2) ∧ dom m' = dom m)) as Hrep.
    { eapply (wp_list_replace old new (l2 ++ h :: l1)).
      - by apply dlist_entry_ring.
      - set_solver.
      - done.
      - intros m' Hr [Hdom _]. split; [by apply dlist_entry_ring|]. done. }
    destruct Hrep as ([] & m' & Hrun & Hd' & Hdom).
    pose proof Hrun as Hrun'.
    rewrite (list_replace_heap m old new p q) in Hrun' by done.
    injection Hrun' as Hm'.
    assert (m' !! old = m !! old) as Hold.
    { subst m'. apply lookup_fields; mother. }
    split.
    + exists m'. done.
    + enough (wp (list_replace_init old new) m (λ _ m'',
                dlist m'' h (l1 ++ new :: l2) ∧ dlist m'' old []))
        as ([] & m'' & ? & ?) by eauto.
      unfold list_replace_init. mstep.
      exists tt, m'. split; [done|].
      apply wp_INIT_LIST_HEAD.
      { apply elem_of_dom. rewrite Hold. by apply elem_of_dom. }
      intros m'' Hr'' Hf. split; [|by apply dlist_ring].
      eapply dlist_frame; [done..|].
      pose proof Hd as [Hnd _]. apply NoDup_cons in Hnd as [Hh Hnd].
      apply NoDup_app in Hnd as (_ & Hdis & [Ho _]%NoDup_cons).
      intros a Ha ->%list_elem_of_singleton. set_solver.
  - destruct (wp_list_replace h new l m (λ _ m', dlist m' new l))
      as ([] & m' & ? & ?); [by apply dlist_ring|done|done| |eauto].
    intros m' Hr _. by apply dlist_ring.
Qed.

(** X5: [list_replace(old, new)] on an empty list [old] leaves [new] an
    empty list, and [old] with [next == old] but [prev == new]:
    [list_empty(old)] is still true while [list_empty_careful(old)] is
    false.  [list_replace_init(old, new)] leaves both empty lists. *)
Theorem list_replace_empty m old new :
  dlist m old [] → new ∈ dom m → new ≠ old →
  (∃ m', list_replace old new m = Some (tt, m')
         ∧ dlist m' new []
         ∧ m' !! old = Some (mk_list_head old new)
         ∧ list_empty old m' = Some (true, m')
         ∧ list_empty_careful old m' = Some (false, m'))
  ∧ (∃ m', list_replace_init old new m = Some (tt, m')
           ∧ dlist m' new [] ∧ dlist m' old []).
Proof.
  intros Hd Hal Hne. pose proof Hd as [Hon Hop]%dlist_nil.
  assert (old ∈ dom m) as Hoa by (by eapply nxt_Some_alloc).
  assert (wp (list_replace old new) m (λ _ m',
            m' = upd_next new new (upd_prev new new (upd_prev old new
                   (upd_next new old m))))) as ([] & m' & Hrun & Hm').
  { unfold list_replace. msteps. done. }
  assert (nxt m' new = Some new ∧ prv m' new = Some new
          ∧ nxt m' old = Some old ∧ prv m' old = Some new)
    as (Hnn & Hnp & Hon' & Hop').
  { subst m'. split_and!; msimpl; by mdec. }
  assert (dlist m' new []) as Hdn by (by apply dlist_nil).
  split.
  - exists m'. split_and!; [done..| | |].
    + unfold nxt, prv in Hon', Hop'.
      destruct (m' !! old) as [[? ?]|]; simplify_eq/=. done.
    + apply wp_eq. unfold list_empty. mstep.
      eapply wp_get_next; [done|]. mstep.
      by rewrite bool_decide_eq_true_2.
    + apply wp_eq. unfold list_empty_careful. mstep.
      eapply wp_get_next; [done|]. rewrite bool_decide_eq_true_2 by done.
      mstep. eapply wp_get_prev; [done|]. mstep.
      by rewrite bool_decide_eq_false_2 by congruence.
  - enough (wp (list_replace_init old new) m (λ _ m'',
              dlist m'' new [] ∧ dlist m'' old []))
      as ([] & m'' & ? & ?) by eauto.
    unfold list_replace_init. mstep. exists tt, m'. split; [done|].
    apply wp_INIT_LIST_HEAD; [by eapply nxt_Some_alloc|].
    intros m'' Hr Hf. split; [|by apply dlist_ring].
    eapply dlist_frame; [done..|]. set_solver.
Qed.


(** *** Moving *)

(** X6: [list_move(x, h)] on an entry [x] of the list [h] makes [x] the
    first entry and [list_move_tail(x, h)] the last one, the others keeping
    their order; with the head [h2] of a second, disjoint list, [x] leaves
    its list and becomes the first, or the last, entry of [h2]. *)
Theorem list_move_correct m h l1 x l2 :
  dlist m h (l1 ++ x :: l2) →
  (∃ m', list_move x h m = Some (tt, m') ∧ dlist m' h (x :: l1 ++ l2))
  ∧ (∃ m', list_move_tail x h m = Some (tt, m')
           ∧ dlist m' h (l1 ++ l2 ++ [x]))
  ∧ (∀ h2 l', dlist m h2 l' →
       (∀ c, c ∈ h :: l1 ++ x :: l2 → c ∉ h2 :: l') →
       (∃ m', list_move x h2 m = Some (tt, m')
              ∧ dlist m' h (l1 ++ l2) ∧ dlist m' h2 (x :: l'))
       ∧ (∃ m', list_move_tail x h2 m = Some (tt, m')
                ∧ dlist m' h (l1 ++ l2) ∧ dlist m' h2 (l' ++ [x]))).
Proof.
  intros Hd. pose proof Hd as Hr. apply dlist_entry_ring in Hr.
  split_and!.
  - destruct (wp_list_move_ring x h (l2 ++ [h]) l1 m
                (λ _ m', dlist m' h (x :: l1 ++ l2)))
      as ([] & m' & ? & ?); [by lnorm|by rewrite last_snoc| |eauto].
    intros m' Hr' _. apply (dlist_rot m' h (x :: l1) l2).
    lnorm_in Hr'. exact Hr'.
  - destruct (wp_list_move_tail_ring x h l2 (h :: l1) m
                (λ _ m', dlist m' h (l1 ++ l2 ++ [x])))
      as ([] & m' & ? & ?); [done|done| |eauto].
    intros m' Hr' _. apply (dlist_rot m' h l1 (l2 ++ [x])).
    lnorm. exact Hr'.
  - intros h2 l' Hd2 Hdisj.
    assert (∀ c, c ∈ x :: l2 ++ h :: l1 → c ∉ h2 :: l') as Hdisj'.
    { intros c Hc. apply Hdisj. set_solver. }
    split.
    + destruct (wp_list_move_ring2 x h2 (l2 ++ h :: l1) (l' ++ [h2]) m
                  (λ _ m', dlist m' h (l1 ++ l2) ∧ dlist m' h2 (x :: l')))
        as ([] & m' & ? & ?);
        [done|by apply dlist_snoc_ring|by rewrite last_snoc| | |eauto].
      * intros c Hc Hc'. apply (Hdisj' c Hc). set_solver.
      * intros m' Hr1 Hr2 _. split; [by apply dlist_rot|].
        apply (dlist_rot m' h2 [x] l'). lnorm_in Hr2. exact Hr2.
    + destruct (wp_list_move_tail_ring2 x h2 (l2 ++ h :: l1) (h2 :: l') m
                  (λ _ m', dlist m' h (l1 ++ l2) ∧ dlist m' h2 (l' ++ [x])))
        as ([] & m' & ? & ?); [done|by apply dlist_ring|done|done| |eauto].
      intros m' Hr1 Hr2 _. split; [by apply dlist_rot|].
      by apply dlist_ring.
Qed.

(** X7: [list_bulk_move_tail(h, first, last)] on a run [F] of consecutive
    entries, from [first] to [last], of the list [X ++ F ++ Y] gives the list
    [X ++ Y ++ F], and writes no node outside the list. *)
Theorem list_bulk_move_tail_correct m h X F Y fi la :
  dlist m h (X ++ F ++ Y) → head F = Some fi → last F = Some la →
  ∃ m', list_bulk_move_tail h fi la m = Some (tt, m')
        ∧ dlist m' h (X ++ Y ++ F)
        ∧ ∀ a, a ∉ h :: X ++ F ++ Y → m' !! a = m !! a.
Proof.
  intros Hd Hfi Hla.
  destruct (wp_list_bulk_move_tail_ring h fi la X F Y m
              (λ _ m', dlist m' h (X ++ Y ++ F)
                       ∧ ∀ a, a ∉ h :: X ++ F ++ Y → m' !! a = m !! a))
    as ([] & m' & ? & ?); [by apply dlist_ring|done|done| |eauto].
  intros m' Hr [_ Hf]. split; [by apply dlist_ring|done].
Qed.

Lemma list_rotate_to_front_spec m h l1 e l2 :
  dlist m h (l1 ++ e :: l2) →
  ∃ m', list_rotate_to_front e h m = Some (tt, m')
        ∧ dlist m' h (e :: l2 ++ l1).
Proof.
  intros Hd.
  destruct (wp_list_move_tail_ring h e l1 (e :: l2) m
              (λ _ m', dlist m' h (e :: l2 ++ l1)))
    as ([] & m' & ? & ?); [by apply dlist_ring|done| |eauto].
  intros m' Hr _. by apply (dlist_rot m' h (e :: l2) l1).
Qed.

(** *** Tests *)

Lemma list_is_first_last m h l e :
  dlist m h l → e ∈ l →
  list_is_first e h m = Some (bool_decide (head l = Some e), m)
  ∧ list_is_last e h m = Some (bool_decide (last l = Some e), m).
Proof.
  intros Hd (l1 & l2 & ->)%list_elem_of_split.
  destruct (last (h :: l1)) as [p|] eqn:Hp; [|by apply last_None in Hp].
  destruct (head (l2 ++ [h])) as [q|] eqn:Hq; [|by destruct l2].
  destruct (dlist_entry_fields _ _ _ _ _ _ _ Hd Hp Hq)
    as (Hnq & Hnp & _).
  destruct Hd as [Hnd _]. apply NoDup_cons in Hnd as [Hh Hnd].
  apply NoDup_app in Hnd as (_ & Hdis & [He _]%NoDup_cons).
  split; apply wp_eq.
  - unfold list_is_first. mstep. eapply wp_get_prev; [done|]. mstep.
    split; [|done]. apply bool_decide_ext.
    destruct l1 as [|y l1]; simpl in *.
    + naive_solver.
    + apply last_Some_elem_of in Hp. split.
      * intros ->. destruct Hh. rewrite app_comm_cons.
        apply elem_of_app. by left.
      * intros [= ->]. destruct (Hdis e); apply list_elem_of_here.
  - unfold list_is_last. mstep. eapply wp_get_next; [done|]. mstep.
    split; [|done]. apply bool_decide_ext.
    destruct l2 as [|y l2]; simpl in *.
    + rewrite last_snoc. naive_solver.
    + rewrite last_app_nonempty by done. simplify_eq. split.
      * intros ->. destruct Hh. apply elem_of_app. right.
        apply list_elem_of_further, list_elem_of_here.
      * rewrite last_cons_cons. intros Hl%last_Some_elem_of. by destruct He.
Qed.

Lemma list_emptiness_tests m h l :
  dlist m h l →
  list_empty h m = Some (bool_decide (l = []), m)
  ∧ list_empty_careful h m = Some (bool_decide (l = []), m)
  ∧ list_is_singular h m = Some (bool_decide (length l = 1%nat), m).
Proof.
  intros Hd. split_and!; apply wp_eq.
  - by eapply wp_list_empty.
  - destruct (head (l ++ [h])) as [q|] eqn:Hq; [|by destruct l].
    destruct (last (h :: l)) as [p|] eqn:Hp; [|by apply last_None in Hp].
    unfold list_empty_careful. mstep.
    eapply wp_get_next; [by eapply dlist_next_head|].
    pose proof Hd as [Hnd _]. apply NoDup_cons in Hnd as [Hh _].
    destruct l as [|x l]; simpl in *; simplify_eq.
    + rewrite bool_decide_eq_true_2 by done. mstep.
      apply dlist_nil in Hd as [_ ?].
      eapply wp_get_prev; [done|]. mstep.
      by rewrite !bool_decide_eq_true_2.
    + rewrite bool_decide_eq_false_2 by set_solver. by mstep.
  - by eapply wp_list_is_singular.
Qed.

(** X8: on a well-formed list with entries [l], [list_empty] and
    [list_empty_careful] return whether [l] is empty, [list_is_singular]
    whether [l] has exactly one entry, and for an entry [e],
    [list_is_first(e, h)] and [list_is_last(e, h)] whether [e] is the first
    and the last entry.  None of them writes. *)
Theorem list_tests m h l :
  dlist m h l →
  list_empty h m = Some (bool_decide (l = []), m)
  ∧ list_empty_careful h m = Some (bool_decide (l = []), m)
  ∧ list_is_singular h m = Some (bool_decide (length l = 1%nat), m)
  ∧ ∀ e, e ∈ l →
      list_is_first e h m = Some (bool_decide (head l = Some e), m)
      ∧ list_is_last e h m = Some (bool_decide (last l = Some e), m).
Proof.
  intros Hd. destruct (list_emptiness_tests _ _ _ Hd) as (? & ? & ?).
  split_and!; [done..|]. intros e He. by apply list_is_first_last.
Qed.

(** X9: on an entry [n], [list_del_init_careful(n)] ends in the very heap
    [list_del_init(n)] ends in: the list without [n], and [n] an empty list,
    on which [list_empty_careful] is true. *)
Theorem list_del_init_careful_correct m h l1 n l2 :
  dlist m h (l1 ++ n :: l2) →
  ∃ m', list_del_init_careful n m = Some (tt, m')
        ∧ list_del_init n m = Some (tt, m')
        ∧ dlist m' h (l1 ++ l2) ∧ dlist m' n []
        ∧ list_empty_careful n m' = Some (true, m').
Proof.
  intros Hd. pose proof Hd as Hr. apply dlist_entry_ring in Hr.
  assert (n ∈ dom m) as Hna by (by eapply ring_cons_alloc).
  destruct (wp___list_del_entry n (l2 ++ h :: l1) m
              (λ _ m1, n ∈ dom m1))
    as ([] & m1 & Hrun1 & Hna1); [done| |].
  { intros m1 _ Hf. by eapply frame_dom. }
  destruct (wp_list_del_init_ring n (l2 ++ h :: l1) m
              (λ _ m', dlist m' h (l1 ++ l2) ∧ dlist m' n []))
    as ([] & m' & Hrun & Hd' & Hn'); [done| |].
  { intros m' ? ? _. split; [by apply dlist_rot|by apply dlist_ring]. }
  exists m'. split_and!; [|done..|].
  - rewrite <- Hrun. unfold list_del_init_careful, list_del_init.
    unfold mbind at 1 3, M_bind at 1 3. rewrite Hrun1.
    transitivity (Some (tt, upd_next n n (upd_prev n n m1))).
    { apply wp_eq. msteps. done. }
    symmetry. apply wp_eq. unfold INIT_LIST_HEAD. msteps. split; [done|].
    apply mem_fields_eq; intros a; msimpl; by repeat case_decide.
  - apply dlist_nil in Hn' as [? ?]. apply wp_eq.
    unfold list_empty_careful. mstep. eapply wp_get_next; [done|].
    rewrite bool_decide_eq_true_2 by done. mstep.
    eapply wp_get_prev; [done|]. mstep.
    by rewrite bool_decide_eq_true_2.
Qed.

(** *** Cutting and rotating *)

(** A well-formed list determines the fields of its nodes. *)
Lemma ring_fields_det m m' R a :
  ring m R → ring m' R → a ∈ R → m' !! a = m !! a.
Proof.
  intros Hr Hr' (R1 & R2 & ->)%list_elem_of_split.
  apply (ring_rotate _ R1 (a :: R2)) in Hr, Hr'. simpl in *.
  destruct (decide (R2 ++ R1 = [])) as [HR|HR].
  - rewrite HR in *. apply ring_singleton in Hr as [? ?], Hr' as [? ?].
    apply lookup_fields; congruence.
  - destruct (ring_nonempty_ends _ HR) as (p & q & Hp & Hq).
    destruct (ring_cons_fields _ _ _ _ _ Hr Hp Hq) as (? & ? & _).
    destruct (ring_cons_fields _ _ _ _ _ Hr' Hp Hq) as (? & ? & _).
    apply lookup_fields; congruence.
Qed.

Lemma dlist_fields_det m m' h l a :
  dlist m h l → dlist m' h l → a ∈ h :: l → m' !! a = m !! a.
Proof. rewrite !dlist_ring. apply ring_fields_det. Qed.

(** X10: for an allocated node [d] outside the list [h],
    [list_cut_before(d, h, e)] on an entry [e] moves the entries before [e]
    to [d] and leaves [e] and the following ones in [h]; with [e == h] it
    moves every entry to [d] and leaves [h] empty.  In every case, also when
    nothing is moved, [d] is a well-formed list afterwards. *)
Theorem list_cut_before_correct m h l d :
  dlist m h l → d ∈ dom m → d ∉ h :: l →
  (∀ l1 e l2, l = l1 ++ e :: l2 →
     ∃ m', list_cut_before d h e m = Some (tt, m')
           ∧ dlist m' d l1 ∧ dlist m' h (e :: l2))
  ∧ (∃ m', list_cut_before d h h m = Some (tt, m')
           ∧ dlist m' d l ∧ dlist m' h []).
Proof.
  intros Hd Hal Hn. split.
  - intros l1 e l2 ->.
    destruct (wp_list_cut_before_ring d h e l1 (e :: l2) m
                (λ _ m', dlist m' d l1 ∧ dlist m' h (e :: l2)))
      as ([] & m' & ? & ?); [by apply dlist_ring|done|done|done| |eauto].
    intros m' ? ? _. split; by apply dlist_ring.
  - destruct (wp_list_cut_before_ring d h h l [] m
                (λ _ m', dlist m' d l ∧ dlist m' h []))
      as ([] & m' & ? & ?); [|done| |done| |eauto].
    + apply dlist_ring. by rewrite app_nil_r.
    + by rewrite app_nil_r.
    + intros m' ? ? _. split; by apply dlist_ring.
Qed.

(** X11: cutting a list at an entry [e] into [d], with
    [list_cut_position] or with [list_cut_before], and splicing [d] back at
    the front with [list_splice_init] restores every structure but [d] to
    its value before the cut, and leaves [d] an empty list. *)
Theorem list_cut_splice_roundtrip m h l1 e l2 d :
  dlist m h (l1 ++ e :: l2) → d ∈ dom m → d ∉ h :: l1 ++ e :: l2 →
  (∃ m', (list_cut_position d h e ;; list_splice_init d h) m = Some (tt, m')
         ∧ dlist m' h (l1 ++ e :: l2) ∧ dlist m' d []
         ∧ ∀ a, a ≠ d → m' !! a = m !! a)
  ∧ (∃ m', (list_cut_before d h e ;; list_splice_init d h) m = Some (tt, m')
           ∧ dlist m' h (l1 ++ e :: l2) ∧ dlist m' d []
           ∧ ∀ a, a ≠ d → m' !! a = m !! a).
Proof.
  intros Hd Hal Hn.
  assert (∀ m', dlist m' h (l1 ++ e :: l2) →
            frame m m' (d :: h :: l1 ++ e :: l2) →
            ∀ a, a ≠ d → m' !! a = m !! a) as Hrest.
  { intros m' Hd' [_ Hf] a Ha.
    destruct (decide (a ∈ h :: l1 ++ e :: l2)).
    - by eapply dlist_fields_det.
    - apply Hf. set_solver. }
  pose proof Hd as [Hnd _]. apply NoDup_cons in Hnd as [Hh Hnd].
  apply NoDup_app in Hnd as (_ & Hdis & [He _]%NoDup_cons).
  split.
  - enough (wp (list_cut_position d h e ;; list_splice_init d h) m
              (λ _ m', dlist m' h (l1 ++ e :: l2) ∧ dlist m' d []
                       ∧ ∀ a, a ≠ d → m' !! a = m !! a))
      as ([] & m' & ? & ?) by eauto.
    mstep. eapply wp_list_cut_position; [done..|].
    intros m1 Hd1 Hh1 Hf1.
    eapply (wp_list_splice_gen true d h (l1 ++ [e]) l2); [done|done| | |].
    + by destruct l1.
    + intros c Hc Hc'. pose proof (Hdis c). lprop. naive_solver.
    + intros m2 Hh2 Hd2 Hf2. rewrite <- app_assoc in Hh2. simpl in Hh2.
      split_and!; [done..|]. apply Hrest; [done|].
      eapply frame_trans; [exact Hf1|exact Hf2|done|].
      intros c. lprop. tauto.
  - enough (wp (list_cut_before d h e ;; list_splice_init d h) m
              (λ _ m', dlist m' h (l1 ++ e :: l2) ∧ dlist m' d []
                       ∧ ∀ a, a ≠ d → m' !! a = m !! a))
      as ([] & m' & ? & ?) by eauto.
    mstep.
    eapply (wp_list_cut_before_ring d h e l1 (e :: l2));
      [by apply dlist_ring|done|done|done|].
    intros m1 Hd1%dlist_ring Hh1%dlist_ring Hf1.
    destruct (decide (l1 = [])) as [->|Hl1].
    + destruct (list_splice_empty_noop d m1 Hd1 h) as (_ & _ & Hnoop & _).
      exists tt, m1. split; [done|]. split_and!; [done..|].
      by apply Hrest.
    + eapply (wp_list_splice_gen true d h l1 (e :: l2)); [done..| |].
      * intros c Hc Hc'. pose proof (Hdis c). lprop. naive_solver.
      * intros m2 Hh2 Hd2 Hf2. split_and!; [done..|]. apply Hrest; [done|].
        eapply frame_trans; [exact Hf1|exact Hf2|done|].
        intros c. lprop. tauto.
Qed.


(** Two heaps that hold the same list and agree outside it are equal. *)
Lemma dlist_heap_eq m m1 m2 h l S :
  dlist m1 h l → dlist m2 h l →
  frame m m1 S → frame m m2 S → (∀ a, a ∈ S → a ∈ h :: l) → m1 = m2.
Proof.
  intros Hd1 Hd2 [_ Hf1] [_ Hf2] HS. apply map_eq. intros a.
  destruct (decide (a ∈ h :: l)) as [Ha|Ha].
  - by eapply dlist_fields_det.
  - rewrite Hf1, Hf2; [done|naive_solver..].
Qed.

Lemma list_rotate_left_iter m h l k :
  dlist m h l → (k ≤ length l)%nat →
  ∃ m', Nat.iter k (λ c, list_rotate_left h ;; c) (mret tt) m = Some (tt, m')
        ∧ dlist m' h (drop k l ++ take k l)
        ∧ (k = length l → m' = m).
Proof.
  intros Hd Hk.
  assert (∃ m', Nat.iter k (λ c, list_rotate_left h ;; c) (mret tt) m
                = Some (tt, m')
                ∧ dlist m' h (drop k l ++ take k l)
                ∧ frame m m' (h :: l)) as (m' & Hrun & Hd' & Hf).
  { revert m l Hd Hk. induction k as [|k IH]; intros m l Hd Hk.
    - exists m. simpl. rewrite drop_0, app_nil_r.
      split_and!; [done..|apply frame_refl].
    - destruct l as [|x r]; [simpl in Hk; lia|]. simpl in Hk.
      destruct (wp_list_rotate_left m h (x :: r)
                  (λ _ m1, dlist m1 h (r ++ [x]) ∧ frame m m1 (h :: x :: r)))
        as ([] & m1 & Hrun1 & Hd1 & Hf1); [done|by intros|].
      destruct (IH m1 (r ++ [x]) Hd1) as (m' & Hrun & Hd' & Hf').
      { rewrite length_app. simpl. lia. }
      exists m'. split_and!.
      + simpl. unfold mbind at 1, M_bind at 1. by rewrite Hrun1.
      + rewrite drop_app_le, take_app_le in Hd' by lia.
        simpl. by rewrite <- app_assoc in Hd'.
      + eapply frame_trans; [exact Hf1|exact Hf'|done|].
        intros c. lprop. tauto. }
  exists m'. split_and!; [done..|]. intros ->.
  rewrite drop_all, firstn_all in Hd'. simpl in Hd'.
  eapply (dlist_heap_eq m m' m h l); [done..|apply frame_refl|done].
Qed.

(** X12: [k] calls of [list_rotate_left(h)], for [k] up to the length,
    turn the entries [l] into [drop k l ++ take k l]; as many calls as there
    are entries restore the heap.  [list_rotate_to_front(e, h)] on an entry
    [e] turns [l1 ++ e :: l2] into [e :: l2 ++ l1]. *)
Theorem list_rotation m h l :
  dlist m h l →
  (∀ k, (k ≤ length l)%nat →
     ∃ m', Nat.iter k (λ c, list_rotate_left h ;; c) (mret tt) m
           = Some (tt, m')
           ∧ dlist m' h (drop k l ++ take k l)
           ∧ (k = length l → m' = m))
  ∧ (∀ l1 e l2, l = l1 ++ e :: l2 →
       ∃ m', list_rotate_to_front e h m = Some (tt, m')
             ∧ dlist m' h (e :: l2 ++ l1)).
Proof.
  intros Hd. split.
  - intros k Hk. by apply list_rotate_left_iter.
  - intros l1 e l2 ->. by apply list_rotate_to_front_spec.
Qed.

(** *** Swapping twice *)

(** X13: for two entries [a] and [b] of one list, [list_swap(a, b)] twice
    restores the heap, [list_swap(a, b)] followed by [list_swap(b, a)] too,
    and [list_swap(b, a)] ends in the heap [list_swap(a, b)] ends in. *)
Theorem list_swap_twice m h l1 a l2 b l3 :
  dlist m h (l1 ++ a :: l2 ++ b :: l3) →
  (list_swap a b ;; list_swap a b) m = Some (tt, m)
  ∧ (list_swap a b ;; list_swap b a) m = Some (tt, m)
  ∧ list_swap b a m = list_swap a b m.
Proof.
  intros Hd.
  destruct (wp_list_swap_fwd m h l1 a l2 b l3
              (λ _ m1, dlist m1 h (l1 ++ b :: l2 ++ a :: l3)
                       ∧ frame m m1 (h :: l1 ++ a :: l2 ++ b :: l3)))
    as ([] & m1 & Hrun1 & Hd1 & Hf1); [done|by intros|].
  assert (∀ c, c ∈ h :: l1 ++ b :: l2 ++ a :: l3 →
               c ∈ h :: l1 ++ a :: l2 ++ b :: l3) as Hsub.
  { intros c. lprop. tauto. }
  assert (∀ m2, dlist m2 h (l1 ++ a :: l2 ++ b :: l3) →
                frame m1 m2 (h :: l1 ++ b :: l2 ++ a :: l3) → m2 = m)
    as Hback.
  { intros m2 Hd2 Hf2.
    eapply (dlist_heap_eq m m2 m h _ (h :: l1 ++ a :: l2 ++ b :: l3));
      [done|done| |apply frame_refl|done].
    eapply frame_trans; [exact Hf1|exact Hf2|done|exact Hsub]. }
  split_and!.
  - unfold mbind at 1, M_bind at 1. rewrite Hrun1.
    destruct (wp_list_swap_bwd m1 h l1 a l2 b l3 (λ _ m2, m2 = m))
      as ([] & ? & -> & ->); [done|done|done].
  - unfold mbind at 1, M_bind at 1. rewrite Hrun1.
    destruct (wp_list_swap_fwd m1 h l1 b l2 a l3 (λ _ m2, m2 = m))
      as ([] & ? & -> & ->); [done|done|done].
  - rewrite Hrun1.
    destruct (wp_list_swap_bwd m h l1 b l2 a l3 (λ _ m2, m2 = m1))
      as ([] & ? & -> & ->); [done| |done].
    intros m2 Hd2 Hf2.
    eapply (dlist_heap_eq m m2 m1 h _ (h :: l1 ++ a :: l2 ++ b :: l3));
      [done..|].
    intros c. lprop. tauto.
Qed.


(** *** Iteration *)

Lemma member_of_container_of off x : member_of off (container_of off x) = x.
Proof. unfold member_of, container_of. lia. Qed.

Lemma dlist_prev_mid m h l1 x l2 p :
  dlist m h (l1 ++ x :: l2) → last (h :: l1) = Some p → prv m x = Some p.
Proof.
  intros Hd Hp.
  destruct (head (l2 ++ [h])) as [q|] eqn:Hq; [|by destruct l2].
  by destruct (dlist_entry_fields _ _ _ _ _ _ _ Hd Hp Hq) as (_ & ? & _).
Qed.

Lemma list_for_each_prev_from_spec m h l1 l2 fuel pos :
  dlist m h (l1 ++ l2) → last (h :: l1) = Some pos →
  (length l1 < fuel)%nat →
  list_for_each_prev_from fuel (λ _, mret tt) h pos m = Some (rev l1, m).
Proof.
  revert l2 fuel pos.
  induction l1 as [|x l1 IH] using rev_ind; intros l2 fuel pos Hd Hp Hf.
  - simpl in Hp. simplify_eq. destruct fuel; [lia|]. simpl.
    by rewrite decide_True.
  - rewrite app_comm_cons, last_snoc in Hp. simplify_eq.
    rewrite length_app in Hf. simpl in Hf. destruct fuel; [lia|].
    rewrite <- app_assoc in Hd. simpl in Hd.
    pose proof Hd as [Hnd _]. apply NoDup_cons in Hnd as [Hh _].
    destruct (last (h :: l1)) as [p|] eqn:Hp; [|by apply last_None in Hp].
    pose proof (dlist_prev_mid _ _ _ _ _ _ Hd Hp) as Hn.
    simpl. rewrite decide_False.
    2:{ intros ->. destruct Hh. apply elem_of_app. right.
        apply list_elem_of_here. }
    unfold mbind, M_bind, mret, M_ret, get_prev. unfold prv in Hn.
    destruct (m !! pos) as [np|]; simplify_eq/=.
    rewrite (IH (pos :: l2)); [|done|done|lia].
    by rewrite rev_unit.
Qed.

Lemma list_for_each_entry_from_spec off m h l1 l2 fuel x :
  dlist m h (l1 ++ l2) → head (l2 ++ [h]) = Some x →
  (length l2 < fuel)%nat →
  list_for_each_entry_from fuel off (λ _, mret tt) h (container_of off x) m
  = Some (container_of off <$> l2, m).
Proof.
  revert l1 fuel x. induction l2 as [|y l2 IH]; intros l1 fuel x Hd Hp Hf.
  - simpl in Hp. simplify_eq. destruct fuel; [lia|]. simpl.
    unfold list_entry_is_head. rewrite member_of_container_of.
    by rewrite bool_decide_eq_true_2.
  - simpl in Hp. simplify_eq. destruct fuel; [simpl in Hf; lia|].
    pose proof Hd as [Hnd _]. apply NoDup_cons in Hnd as [Hh _].
    destruct (head (l2 ++ [h])) as [q|] eqn:Hq; [|by destruct l2].
    pose proof (dlist_next_mid _ _ _ _ _ _ Hd Hq) as Hn.
    simpl. unfold list_entry_is_head. rewrite member_of_container_of.
    rewrite bool_decide_eq_false_2.
    2:{ intros ->. destruct Hh. apply elem_of_app. right.
        apply list_elem_of_here. }
    unfold list_next_entry. rewrite member_of_container_of.
    unfold mbind, M_bind, mret, M_ret, get_next. unfold nxt in Hn.
    destruct (m !! x) as [np|]; simplify_eq/=.
    unfold list_entry.
    rewrite (IH (l1 ++ [x])); [done| |done|simpl in Hf; lia].
    by rewrite <- app_assoc.
Qed.

Lemma list_for_each_entry_from_reverse_spec off m h l1 l2 fuel x :
  dlist m h (l1 ++ l2) → last (h :: l1) = Some x →
  (length l1 < fuel)%nat →
  list_for_each_entry_from_reverse fuel off (λ _, mret tt) h
    (container_of off x) m
  = Some (container_of off <$> rev l1, m).
Proof.
  revert l2 fuel x.
  induction l1 as [|y l1 IH] using rev_ind; intros l2 fuel x Hd Hp Hf.
  - simpl in Hp. simplify_eq. destruct fuel; [lia|]. simpl.
    unfold list_entry_is_head. rewrite member_of_container_of.
    by rewrite bool_decide_eq_true_2.
  - rewrite app_comm_cons, last_snoc in Hp. simplify_eq.
    rewrite length_app in Hf. simpl in Hf. destruct fuel; [lia|].
    rewrite <- app_assoc in Hd. simpl in Hd.
    pose proof Hd as [Hnd _]. apply NoDup_cons in Hnd as [Hh _].
    destruct (last (h :: l1)) as [p|] eqn:Hp; [|by apply last_None in Hp].
    pose proof (dlist_prev_mid _ _ _ _ _ _ Hd Hp) as Hn.
    simpl. unfold list_entry_is_head. rewrite member_of_container_of.
    rewrite bool_decide_eq_false_2.
    2:{ intros ->. destruct Hh. apply elem_of_app. right.
        apply list_elem_of_here. }
    unfold list_prev_entry. rewrite member_of_container_of.
    unfold mbind, M_bind, mret, M_ret, get_prev. unfold prv in Hn.
    destruct (m !! x) as [np|]; simplify_eq/=.
    unfold list_entry.
    rewrite (IH (x :: l2)); [|done|done|lia].
    by rewrite rev_unit.
Qed.

Lemma list_for_each_variants m h l fuel :
  dlist m h l → (length l < fuel)%nat →
  list_for_each_prev fuel (λ _, mret tt) h m = Some (rev l, m)
  ∧ ∀ off,
      list_for_each_entry fuel off (λ _, mret tt) h m
      = Some (container_of off <$> l, m)
      ∧ list_for_each_entry_reverse fuel off (λ _, mret tt) h m
        = Some (container_of off <$> rev l, m).
Proof.
  intros Hd Hf.
  destruct (head (l ++ [h])) as [q|] eqn:Hq; [|by destruct l].
  destruct (last (h :: l)) as [p|] eqn:Hp; [|by apply last_None in Hp].
  pose proof (dlist_next_head _ _ _ _ Hd Hq) as Hn.
  pose proof (dlist_prev_head _ _ _ _ Hd Hp) as Hv.
  unfold nxt, prv in Hn, Hv.
  assert (dlist m h (l ++ [])) as Hd' by (by rewrite app_nil_r).
  split; [|intros off; split].
  - unfold list_for_each_prev, mbind, M_bind, get_prev.
    destruct (m !! h); simplify_eq/=.
    by apply (list_for_each_prev_from_spec m h l []).
  - unfold list_for_each_entry, list_first_entry, mbind, M_bind, mret,
      M_ret, get_next.
    destruct (m !! h); simplify_eq/=.
    by apply (list_for_each_entry_from_spec off m h [] l).
  - unfold list_for_each_entry_reverse, list_last_entry, mbind, M_bind,
      mret, M_ret, get_prev.
    destruct (m !! h); simplify_eq/=.
    by apply (list_for_each_entry_from_reverse_spec off m h l []).
Qed.

Lemma list_for_each_resume m h l1 x l2 fuel :
  dlist m h (l1 ++ x :: l2) → (length (l1 ++ x :: l2) < fuel)%nat →
  list_for_each_continue fuel (λ _, mret tt) h x m = Some (l2, m)
  ∧ ∀ off,
      list_for_each_entry_from fuel off (λ _, mret tt) h
        (container_of off x) m
      = Some (container_of off <$> x :: l2, m)
      ∧ list_for_each_entry_continue fuel off (λ _, mret tt) h
          (container_of off x) m
        = Some (container_of off <$> l2, m)
      ∧ list_for_each_entry_continue_reverse fuel off (λ _, mret tt) h
          (container_of off x) m
        = Some (container_of off <$> rev l1, m).
Proof.
  intros Hd Hf. rewrite length_app in Hf. simpl in Hf.
  destruct (head (l2 ++ [h])) as [q|] eqn:Hq; [|by destruct l2].
  destruct (last (h :: l1)) as [p|] eqn:Hp; [|by apply last_None in Hp].
  destruct (dlist_entry_fields _ _ _ _ _ _ _ Hd Hp Hq) as (Hn & Hv & _).
  unfold nxt, prv in Hn, Hv.
  assert (dlist m h ((l1 ++ [x]) ++ l2)) as Hd'.
  { by rewrite <- app_assoc. }
  split; [|intros off; split_and!].
  - unfold list_for_each_continue, mbind, M_bind, get_next.
    destruct (m !! x); simplify_eq/=.
    apply (list_for_each_from_spec m h (l1 ++ [x]) l2); [done..|lia].
  - apply (list_for_each_entry_from_spec off m h l1 (x :: l2));
      [done|done|simpl; lia].
  - unfold list_for_each_entry_continue, list_next_entry.
    rewrite member_of_container_of.
    unfold mbind, M_bind, mret, M_ret, get_next.
    destruct (m !! x); simplify_eq/=.
    apply (list_for_each_entry_from_spec off m h (l1 ++ [x]) l2);
      [done..|lia].
  - unfold list_for_each_entry_continue_reverse, list_prev_entry.
    rewrite member_of_container_of.
    unfold mbind, M_bind, mret, M_ret, get_prev.
    destruct (m !! x); simplify_eq/=.
    apply (list_for_each_entry_from_reverse_spec off m h l1 (x :: l2));
      [done..|lia].
Qed.

(** X14: with a body that does nothing, and fuel above the length,
    [list_for_each_prev] visits the entries in reverse order,
    [list_for_each_entry] the containing structures in order and
    [list_for_each_entry_reverse] in reverse order; from an entry [x],
    [list_for_each_continue] and [list_for_each_entry_continue] visit the
    entries after [x], [list_for_each_entry_from] visits [x] and those, and
    [list_for_each_entry_continue_reverse] the entries before [x],
    backwards.  The loops end and write nothing. *)
Theorem list_iteration_order m h l fuel :
  dlist m h l → (length l < fuel)%nat →
  list_for_each_prev fuel (λ _, mret tt) h m = Some (rev l, m)
  ∧ ∀ off,
      list_for_each_entry fuel off (λ _, mret tt) h m
      = Some (container_of off <$> l, m)
      ∧ list_for_each_entry_reverse fuel off (λ _, mret tt) h m
        = Some (container_of off <$> rev l, m)
      ∧ ∀ l1 x l2, l = l1 ++ x :: l2 →
          list_for_each_continue fuel (λ _, mret tt) h x m = Some (l2, m)
          ∧ list_for_each_entry_from fuel off (λ _, mret tt) h
              (container_of off x) m
            = Some (container_of off <$> x :: l2, m)
          ∧ list_for_each_entry_continue fuel off (λ _, mret tt) h
              (container_of off x) m
            = Some (container_of off <$> l2, m)
          ∧ list_for_each_entry_continue_reverse fuel off (λ _, mret tt) h
              (container_of off x) m
            = Some (container_of off <$> rev l1, m).
Proof.
  intros Hd Hf. destruct (list_for_each_variants _ _ _ _ Hd Hf) as [Hp He].
  split; [done|]. intros off. destruct (He off) as [? ?].
  split_and!; [done..|]. intros l1 x l2 ->.
  destruct (list_for_each_resume _ _ _ _ _ _ Hd Hf) as [? Hr].
  destruct (Hr off) as (? & ? & ?). done.
Qed.

(** X15: on a well-formed list, [list_first_entry_or_null] is [NULL] when
    the list is empty and the structure containing the first entry
    otherwise; [list_first_entry] and [list_last_entry] are the structures
    containing the first and the last entry, and on an empty list the
    would-be structure containing the head; [list_next_entry] and
    [list_prev_entry] of an entry are the structures containing its
    neighbours, the head's at the ends. *)
Theorem list_entry_accessors m h l off :
  dlist m h l →
  list_first_entry_or_null off h m
  = Some (from_option (container_of off) NULL (head l), m)
  ∧ list_first_entry off h m
    = Some (container_of off (default h (head l)), m)
  ∧ list_last_entry off h m
    = Some (container_of off (default h (last l)), m)
  ∧ (∀ l1 x l2, l = l1 ++ x :: l2 →
       list_next_entry off (container_of off x) m
       = Some (container_of off (default h (head l2)), m)
       ∧ list_prev_entry off (container_of off x) m
         = Some (container_of off (default h (last l1)), m)).
Proof.
  intros Hd.
  destruct (head (l ++ [h])) as [q|] eqn:Hq; [|by destruct l].
  destruct (last (h :: l)) as [p|] eqn:Hp; [|by apply last_None in Hp].
  pose proof (dlist_next_head _ _ _ _ Hd Hq) as Hn.
  pose proof (dlist_prev_head _ _ _ _ Hd Hp) as Hv.
  pose proof Hd as [Hnd _]. apply NoDup_cons in Hnd as [Hh _].
  split_and!.
  - apply wp_eq. unfold list_first_entry_or_null. mstep.
    eapply wp_get_next; [done|]. mstep. split; [|done].
    destruct l as [|y l]; simpl in *; simplify_eq.
    + by rewrite decide_False by naive_solver.
    + rewrite decide_True; [done|]. intros ->. destruct Hh.
      apply list_elem_of_here.
  - apply wp_eq. unfold list_first_entry. mstep.
    eapply wp_get_next; [done|]. mstep. split; [|done].
    destruct l; simpl in *; by simplify_eq.
  - apply wp_eq. unfold list_last_entry. mstep.
    eapply wp_get_prev; [done|]. mstep. split; [|done].
    destruct l as [|y l]; [simpl in *; by simplify_eq|].
    rewrite last_cons_cons in Hp. by rewrite Hp.
  - intros l1 x l2 ->.
    destruct (head (l2 ++ [h])) as [q'|] eqn:Hq'; [|by destruct l2].
    destruct (last (h :: l1)) as [p'|] eqn:Hp'; [|by apply last_None in Hp'].
    destruct (dlist_entry_fields _ _ _ _ _ _ _ Hd Hp' Hq') as (? & ? & _).
    split; apply wp_eq.
    + unfold list_next_entry. rewrite member_of_container_of. mstep.
      eapply wp_get_next; [done|]. mstep. split; [|done].
      destruct l2; simpl in *; by simplify_eq.
    + unfold list_prev_entry. rewrite member_of_container_of. mstep.
      eapply wp_get_prev; [done|]. mstep. split; [|done].
      destruct l1 as [|y l1] using rev_ind; [simpl in *; by simplify_eq|].
      rewrite app_comm_cons, last_snoc in Hp'. rewrite last_snoc.
      by simplify_eq.
Qed.


(** *** Iteration that unlinks the cursor *)

Lemma ring_has_prev m R a : ring m R → a ∈ R → ∃ b, prv m a = Some b.
Proof.
  intros Hr Ha. destruct (ring_reciprocal _ _ _ Hr Ha) as [_ (b & ? & _)].
  eauto.
Qed.

Lemma list_for_each_prev_safe_del m h l fuel pos n :
  dlist m h l → last (h :: l) = Some pos → prv m pos = Some n →
  (length l < fuel)%nat →
  wp (list_for_each_prev_safe_from fuel list_del h pos n) m
    (λ v m', v = rev l ∧ dlist m' h []).
Proof.
  revert fuel m pos n.
  induction l as [|x l IH] using rev_ind; intros fuel m pos n Hd Hp Hn Hf.
  - simpl in Hp. simplify_eq. destruct fuel; [lia|]. simpl.
    rewrite decide_True by done. by mstep.
  - rewrite app_comm_cons, last_snoc in Hp. simplify_eq.
    rewrite length_app in Hf. simpl in Hf. destruct fuel; [lia|].
    pose proof Hd as [Hnd _]. apply NoDup_cons in Hnd as [Hh _].
    destruct (last (h :: l)) as [p|] eqn:Hp; [|by apply last_None in Hp].
    pose proof (dlist_prev_mid _ _ _ _ _ _ Hd Hp) as Hn'.
    assert (n = p) as -> by congruence.
    simpl. rewrite decide_False.
    2:{ intros ->. destruct Hh. apply elem_of_app. right.
        apply list_elem_of_here. }
    mstep. eapply (wp_list_del_ring _ (h :: l)).
    { by apply (dlist_entry_ring m h l pos []). }
    intros m1 Hr1 _ _. apply dlist_ring in Hr1 as Hd1.
    destruct (ring_has_prev _ _ p Hr1) as [n' Hpn'].
    { by apply last_Some_elem_of. }
    mstep. eapply wp_get_prev; [done|]. mstep.
    eapply wp_mono; [apply (IH fuel m1 p n'); [done..|lia]|].
    intros v m2 [-> ?]. mstep. by rewrite rev_unit.
Qed.

Lemma list_for_each_entry_safe_reverse_del off m h l fuel pos n :
  dlist m h l → last (h :: l) = Some (member_of off pos) →
  prv m (member_of off pos) = Some (member_of off n) →
  (length l < fuel)%nat →
  wp (list_for_each_entry_safe_reverse_from fuel off
        (λ pos, list_del (member_of off pos)) h pos n) m
    (λ v m', v = container_of off <$> rev l ∧ dlist m' h []).
Proof.
  revert fuel m pos n.
  induction l as [|x l IH] using rev_ind; intros fuel m pos n Hd Hp Hn Hf.
  - simpl in Hp. simplify_eq. destruct fuel; [lia|]. simpl.
    unfold list_entry_is_head. rewrite bool_decide_eq_true_2 by done.
    by mstep.
  - rewrite app_comm_cons, last_snoc in Hp. simplify_eq.
    rewrite length_app in Hf. simpl in Hf. destruct fuel; [lia|].
    pose proof Hd as [Hnd _]. apply NoDup_cons in Hnd as [Hh _].
    destruct (last (h :: l)) as [p|] eqn:Hp; [|by apply last_None in Hp].
    pose proof (dlist_prev_mid _ _ _ _ _ _ Hd Hp) as Hn'.
    assert (member_of off n = p) as Hnp by congruence.
    simpl. unfold list_entry_is_head. rewrite bool_decide_eq_false_2.
    2:{ intros Heq. destruct Hh. apply elem_of_app. right.
        rewrite Heq. apply list_elem_of_here. }
    mstep. eapply (wp_list_del_ring _ (h :: l)).
    { by apply (dlist_entry_ring m h l (member_of off pos) []). }
    intros m1 Hr1 _ _. apply dlist_ring in Hr1 as Hd1.
    destruct (ring_has_prev _ _ p Hr1) as [n' Hpn'].
    { by apply last_Some_elem_of. }
    mstep. unfold list_prev_entry. mstep. rewrite Hnp.
    eapply wp_get_prev; [done|]. mstep. mstep. unfold list_entry.
    eapply wp_mono;
      [apply (IH fuel m1 n (container_of off n'));
         [done| | |lia]|].
    + by rewrite Hnp.
    + by rewrite Hnp, member_of_container_of.
    + intros v m2 [-> ?]. mstep. split; [|done].
      rewrite rev_unit, fmap_cons. f_equal.
      unfold container_of, member_of. lia.
Qed.

(** X16: [list_for_each_prev_safe] and
    [list_for_each_entry_safe_reverse], with a body that deletes the cursor
    and fuel above the length, visit every entry once, in reverse order, and
    leave the head an empty list. *)
Theorem list_for_each_prev_safe_delete_all m h l fuel :
  dlist m h l → (length l < fuel)%nat →
  (∃ m', list_for_each_prev_safe fuel list_del h m = Some (rev l, m')
         ∧ dlist m' h [])
  ∧ (∀ off, ∃ m',
       list_for_each_entry_safe_reverse fuel off
         (λ pos, list_del (member_of off pos)) h m
       = Some (container_of off <$> rev l, m')
       ∧ dlist m' h []).
Proof.
  intros Hd Hf.
  destruct (last (h :: l)) as [p|] eqn:Hp; [|by apply last_None in Hp].
  pose proof (dlist_prev_head _ _ _ _ Hd Hp) as Hv.
  destruct (ring_has_prev m (h :: l) p) as [n Hn];
    [by apply dlist_ring|by apply last_Some_elem_of|].
  split; [|intros off].
  - enough (wp (list_for_each_prev_safe fuel list_del h) m
              (λ v m', v = rev l ∧ dlist m' h []))
      as (v & m' & ? & -> & ?) by eauto.
    unfold list_for_each_prev_safe. mstep. eapply wp_get_prev; [done|].
    mstep. eapply wp_get_prev; [done|].
    by apply list_for_each_prev_safe_del.
  - enough (wp (list_for_each_entry_safe_reverse fuel off
                  (λ pos, list_del (member_of off pos)) h) m
              (λ v m', v = container_of off <$> rev l ∧ dlist m' h []))
      as (v & m' & ? & -> & ?) by eauto.
    unfold list_for_each_entry_safe_reverse, list_last_entry,
      list_prev_entry, list_entry.
    mstep. mstep. eapply wp_get_prev; [done|]. mstep. mstep.
    rewrite member_of_container_of. mstep. eapply wp_get_prev; [done|].
    mstep.
    apply list_for_each_entry_safe_reverse_del;
      rewrite ?member_of_container_of; done.
Qed.

Lemma list_for_each_safe_move_tail m h l h2 l' fuel pos n :
  dlist m h l → dlist m h2 l' → (∀ c, c ∈ h :: l → c ∉ h2 :: l') →
  head (l ++ [h]) = Some pos → nxt m pos = Some n →
  (length l < fuel)%nat →
  wp (list_for_each_safe_from fuel (λ pos, list_move_tail pos h2) h pos n) m
    (λ v m', v = l ∧ dlist m' h [] ∧ dlist m' h2 (l' ++ l)).
Proof.
  revert fuel m l' pos n.
  induction l as [|x l IH]; intros fuel m l' pos n Hd Hd2 Hdis Hp Hn Hf.
  - simpl in Hp. simplify_eq. destruct fuel; [lia|]. simpl.
    rewrite decide_True by done. mstep. by rewrite app_nil_r.
  - simpl in Hp. simplify_eq. destruct fuel; [simpl in Hf; lia|].
    pose proof Hd as [Hnd _]. apply NoDup_cons in Hnd as [Hh Hnd].
    apply NoDup_cons in Hnd as [Hx _].
    destruct (head (l ++ [h])) as [q|] eqn:Hq; [|by destruct l].
    pose proof (dlist_next_mid m h [] _ _ _ Hd Hq) as Hn'.
    assert (n = q) as -> by congruence.
    simpl. rewrite decide_False.
    2:{ intros ->. destruct Hh. apply list_elem_of_here. }
    mstep.
    eapply (wp_list_move_tail_ring2 pos h2 (l ++ [h]) (h2 :: l')).
    { by apply (dlist_rot m h [] (pos :: l)). }
    { by apply dlist_ring. }
    { done. }
    { intros c Hc. apply Hdis. revert Hc. lprop. tauto. }
    intros m1 Hr1 Hr2 _. apply dlist_snoc_ring in Hr1 as Hd1.
    apply dlist_ring in Hr2 as Hd2'.
    destruct (ring_has_next _ _ q Hr1) as [n' Hqn'].
    { by apply head_Some_elem_of. }
    mstep. eapply wp_get_next; [done|]. mstep.
    eapply wp_mono;
      [apply (IH fuel m1 (l' ++ [pos]) q n'); [done|done| |done|done|]|].
    + intros c Hc Hc'. pose proof (Hdis c). lprop. naive_solver.
    + simpl in Hf. lia.
    + intros v m2 (-> & ? & ?). mstep. by rewrite <- app_assoc in *.
Qed.

Lemma list_for_each_safe_move m h l h2 l' fuel pos n :
  dlist m h l → dlist m h2 l' → (∀ c, c ∈ h :: l → c ∉ h2 :: l') →
  head (l ++ [h]) = Some pos → nxt m pos = Some n →
  (length l < fuel)%nat →
  wp (list_for_each_safe_from fuel (λ pos, list_move pos h2) h pos n) m
    (λ v m', v = l ∧ dlist m' h [] ∧ dlist m' h2 (rev l ++ l')).
Proof.
  revert fuel m l' pos n.
  induction l as [|x l IH]; intros fuel m l' pos n Hd Hd2 Hdis Hp Hn Hf.
  - simpl in Hp. simplify_eq. destruct fuel; [lia|]. simpl.
    rewrite decide_True by done. by mstep.
  - simpl in Hp. simplify_eq. destruct fuel; [simpl in Hf; lia|].
    pose proof Hd as [Hnd _]. apply NoDup_cons in Hnd as [Hh Hnd].
    apply NoDup_cons in Hnd as [Hx _].
    destruct (head (l ++ [h])) as [q|] eqn:Hq; [|by destruct l].
    pose proof (dlist_next_mid m h [] _ _ _ Hd Hq) as Hn'.
    assert (n = q) as -> by congruence.
    simpl. rewrite decide_False.
    2:{ intros ->. destruct Hh. apply list_elem_of_here. }
    mstep.
    eapply (wp_list_move_ring2 pos h2 (l ++ [h]) (l' ++ [h2])).
    { by apply (dlist_rot m h [] (pos :: l)). }
    { by apply dlist_snoc_ring. }
    { by rewrite last_snoc. }
    { intros c Hc Hc'. apply (Hdis c); revert Hc Hc'; lprop; tauto. }
    intros m1 Hr1 Hr2 _. apply dlist_snoc_ring in Hr1 as Hd1.
    assert (dlist m1 h2 (pos :: l')) as Hd2'.
    { apply (dlist_rot m1 h2 [pos] l'). lnorm_in Hr2. exact Hr2. }
    destruct (ring_has_next _ _ q Hr1) as [n' Hqn'].
    { by apply head_Some_elem_of. }
    mstep. eapply wp_get_next; [done|]. mstep.
    eapply wp_mono;
      [apply (IH fuel m1 (pos :: l') q n'); [done|done| |done|done|]|].
    + intros c Hc Hc'. pose proof (Hdis c). lprop. naive_solver.
    + simpl in Hf. lia.
    + intros v m2 (-> & ? & ?). mstep. split_and!; [done..|].
      by rewrite <- app_assoc.
Qed.

(** X17: [list_for_each_safe] over the list [h] with the body
    [list_move_tail(pos, h2)], for a second, disjoint list [h2], visits every
    entry in order, empties [h] and appends its entries to [h2] in the same
    order; with the body [list_move(pos, h2)] it prepends them in reverse
    order. *)
Theorem list_for_each_safe_drain m h l h2 l' fuel :
  dlist m h l → dlist m h2 l' → (∀ c, c ∈ h :: l → c ∉ h2 :: l') →
  (length l < fuel)%nat →
  (∃ m', list_for_each_safe fuel (λ pos, list_move_tail pos h2) h m
         = Some (l, m')
         ∧ dlist m' h [] ∧ dlist m' h2 (l' ++ l))
  ∧ (∃ m', list_for_each_safe fuel (λ pos, list_move pos h2) h m
           = Some (l, m')
           ∧ dlist m' h [] ∧ dlist m' h2 (rev l ++ l')).
Proof.
  intros Hd Hd2 Hdis Hf.
  destruct (head (l ++ [h])) as [q|] eqn:Hq; [|by destruct l].
  pose proof (dlist_next_head _ _ _ _ Hd Hq) as Hn.
  destruct (ring_has_next m (h :: l) q) as [n Hqn];
    [by apply dlist_ring| |].
  { destruct l; simpl in *; simplify_eq;
      [apply list_elem_of_here|apply list_elem_of_further, list_elem_of_here]. }
  split.
  - enough (wp (list_for_each_safe fuel (λ pos, list_move_tail pos h2) h) m
              (λ v m', v = l ∧ dlist m' h [] ∧ dlist m' h2 (l' ++ l)))
      as (v & m' & ? & -> & ?) by eauto.
    unfold list_for_each_safe. mstep. eapply wp_get_next; [done|].
    mstep. eapply wp_get_next; [done|].
    by apply list_for_each_safe_move_tail.
  - enough (wp (list_for_each_safe fuel (λ pos, list_move pos h2) h) m
              (λ v m', v = l ∧ dlist m' h [] ∧ dlist m' h2 (rev l ++ l')))
      as (v & m' & ? & -> & ?) by eauto.
    unfold list_for_each_safe. mstep. eapply wp_get_next; [done|].
    mstep. eapply wp_get_next; [done|].
    by apply list_for_each_safe_move.
Qed.


(** *** The theorems on concrete heaps *)

Lemma ex_mem_list1_split : dlist ex_mem 1 ([2] ++ 3 :: []).
Proof. apply ex_mem_list1. Qed.

Lemma ex_mem_poison_free : LIST_POISON1 ∉ dom ex_mem.
Proof. apply not_elem_of_dom. reflexivity. Qed.

Lemma ex_mem_disjoint : ∀ c : Z, c ∈ [1; 2; 3] → c ∉ [5; 6].
Proof. set_solver. Qed.

(** X1 on an example: [list_add(4, 1)] on [ex_mem]. *)
Lemma list_add_position_witness :
  ∃ m', list_add 4 1 ex_mem = Some (tt, m') ∧ dlist m' 1 [4; 2; 3].
Proof.
  destruct (list_add_position ex_mem 1 [2; 3] 4) as [H _].
  - apply ex_mem_list1.
  - apply ex_mem_dom. set_solver.
  - set_solver.
  - exact H.
Defined.

(** X2 on an example: [list_del(3)] on [ex_mem]. *)
Lemma list_del_unlinks_witness :
  ∃ m', list_del 3 ex_mem = Some (tt, m') ∧ dlist m' 1 ([2] ++ []).
Proof.
  destruct (list_del_unlinks ex_mem 1 [2] 3 [] 2 1)
    as (m' & H1 & H2 & _).
  - apply ex_mem_list1_split.
  - reflexivity.
  - reflexivity.
  - exists m'. split; [exact H1|exact H2].
Defined.

(** X3 on an example: [list_del(3); list_del(3)] on [ex_mem]. *)
Lemma list_del_twice_faults_witness :
  (list_del 3 ;; list_del 3) ex_mem = None.
Proof.
  destruct (list_del_twice_faults ex_mem 1 [2] 3 []) as [H _].
  - apply ex_mem_list1_split.
  - apply ex_mem_poison_free.
  - exact H.
Defined.

(** X4 on an example: [list_replace(2, 4)] on [ex_mem]. *)
Lemma list_replace_correct_witness :
  ∃ m', list_replace 2 4 ex_mem = Some (tt, m') ∧ dlist m' 1 ([] ++ 4 :: [3]).
Proof.
  destruct (list_replace_correct ex_mem 1 [2; 3] 4) as [H _].
  - apply ex_mem_list1.
  - apply ex_mem_dom. set_solver.
  - set_solver.
  - destruct (H [] 2 [3]) as [(m' & H1 & H2 & _) _]; [reflexivity|].
    exists m'. split; [exact H1|exact H2].
Defined.

(** X5 on an example: [list_replace_init(1, 2)] on [ex_empty]. *)
Lemma list_replace_empty_witness :
  ∃ m', list_replace_init 1 2 ex_empty = Some (tt, m')
        ∧ dlist m' 2 [] ∧ dlist m' 1 [].
Proof.
  destruct (list_replace_empty ex_empty 1 2) as [_ H].
  - apply ex_empty_list1.
  - apply elem_of_dom. by eexists.
  - lia.
  - exact H.
Defined.

(** X6 on an example: [list_move(3, 1)] on [ex_mem]. *)
Lemma list_move_correct_witness :
  ∃ m', list_move 3 1 ex_mem = Some (tt, m') ∧ dlist m' 1 (3 :: [2] ++ []).
Proof.
  destruct (list_move_correct ex_mem 1 [2] 3 []) as [H _].
  - apply ex_mem_list1_split.
  - exact H.
Defined.

(** X7 on an example: [list_bulk_move_tail(1, 2, 2)] on [ex_mem]. *)
Lemma list_bulk_move_tail_correct_witness :
  ∃ m', list_bulk_move_tail 1 2 2 ex_mem = Some (tt, m')
        ∧ dlist m' 1 ([] ++ [3] ++ [2]).
Proof.
  destruct (list_bulk_move_tail_correct ex_mem 1 [] [2] [3] 2 2)
    as (m' & H1 & H2 & _).
  - apply ex_mem_list1.
  - reflexivity.
  - reflexivity.
  - exists m'. split; [exact H1|exact H2].
Defined.

(** X8 on an example: [list_is_singular(1)] on [ex_mem]. *)
Lemma list_tests_witness :
  list_is_singular 1 ex_mem
  = Some (bool_decide (length [2; 3] = 1%nat), ex_mem).
Proof.
  destruct (list_tests ex_mem 1 [2; 3]) as (_ & _ & H & _).
  - apply ex_mem_list1.
  - exact H.
Defined.

(** X9 on an example: [list_del_init_careful(3)] on [ex_mem]. *)
Lemma list_del_init_careful_correct_witness :
  ∃ m', list_del_init_careful 3 ex_mem = Some (tt, m')
        ∧ list_del_init 3 ex_mem = Some (tt, m').
Proof.
  destruct (list_del_init_careful_correct ex_mem 1 [2] 3 [])
    as (m' & H1 & H2 & _).
  - apply ex_mem_list1_split.
  - exists m'. split; [exact H1|exact H2].
Defined.

(** X12 on an example: two calls of [list_rotate_left(1)] on [ex_mem]. *)
Lemma list_rotation_witness :
  ∃ m', Nat.iter 2 (λ c, list_rotate_left 1 ;; c) (mret tt) ex_mem
        = Some (tt, m')
        ∧ dlist m' 1 (drop 2 [2; 3] ++ take 2 [2; 3])
        ∧ (2%nat = length [2; 3] → m' = ex_mem).
Proof.
  destruct (list_rotation ex_mem 1 [2; 3]) as [H _].
  - apply ex_mem_list1.
  - apply (H 2%nat). simpl. lia.
Defined.

(** X10 on an example: [list_cut_before(7, 1, 3)] on [ex_mem]. *)
Lemma list_cut_before_correct_witness :
  ∃ m', list_cut_before 7 1 3 ex_mem = Some (tt, m')
        ∧ dlist m' 7 [2] ∧ dlist m' 1 [3].
Proof.
  destruct (list_cut_before_correct ex_mem 1 [2; 3] 7) as [H _].
  - apply ex_mem_list1.
  - apply ex_mem_dom. set_solver.
  - set_solver.
  - apply (H [2] 3 []). reflexivity.
Defined.

(** X11 on an example: [list_cut_position(7, 1, 2); list_splice_init(7, 1)] on [ex_mem]. *)
Lemma list_cut_splice_roundtrip_witness :
  ∃ m', (list_cut_position 7 1 2 ;; list_splice_init 7 1) ex_mem
        = Some (tt, m')
        ∧ dlist m' 1 ([] ++ 2 :: [3]) ∧ dlist m' 7 []
        ∧ ∀ a, a ≠ 7 → m' !! a = ex_mem !! a.
Proof.
  destruct (list_cut_splice_roundtrip ex_mem 1 [] 2 [3] 7) as [H _].
  - apply ex_mem_list1.
  - apply ex_mem_dom. set_solver.
  - set_solver.
  - exact H.
Defined.

(** X14 on an example: [list_for_each_prev] on [ex_mem]. *)
Lemma list_iteration_order_witness :
  list_for_each_prev 3 (λ _, mret tt) 1 ex_mem = Some (rev [2; 3], ex_mem).
Proof.
  destruct (list_iteration_order ex_mem 1 [2; 3] 3) as [H _].
  - apply ex_mem_list1.
  - simpl. lia.
  - exact H.
Defined.

(** X15 on an example: [list_first_entry_or_null] on [ex_mem], with the member at offset 8. *)
Lemma list_entry_accessors_witness :
  list_first_entry_or_null 8 1 ex_mem
  = Some (from_option (container_of 8) NULL (head [2; 3]), ex_mem).
Proof.
  destruct (list_entry_accessors ex_mem 1 [2; 3] 8) as [H _].
  - apply ex_mem_list1.
  - exact H.
Defined.

(** X16 on an example: backwards deletion of every entry of the list [1] of [ex_mem]. *)
Lemma list_for_each_prev_safe_delete_all_witness :
  ∃ m', list_for_each_prev_safe 3 list_del 1 ex_mem = Some (rev [2; 3], m')
        ∧ dlist m' 1 [].
Proof.
  destruct (list_for_each_prev_safe_delete_all ex_mem 1 [2; 3] 3) as [H _].
  - apply ex_mem_list1.
  - simpl. lia.
  - exact H.
Defined.

(** X17 on an example: draining the list [1] of [ex_mem] into the list [5]. *)
Lemma list_for_each_safe_drain_witness :
  ∃ m', list_for_each_safe 3 (λ pos, list_move_tail pos 5) 1 ex_mem
        = Some ([2; 3], m')
        ∧ dlist m' 1 [] ∧ dlist m' 5 ([6] ++ [2; 3]).
Proof.
  destruct (list_for_each_safe_drain ex_mem 1 [2; 3] 5 [6] 3) as [H _].
  - apply ex_mem_list1.
  - apply ex_mem_list5.
  - apply ex_mem_disjoint.
  - simpl. lia.
  - exact H.
Defined.

(** X13 on an example: [list_swap(2, 3)] twice on [ex_mem]. *)
Lemma list_swap_twice_witness :
  (list_swap 2 3 ;; list_swap 2 3) ex_mem = Some (tt, ex_mem).
Proof.
  destruct (list_swap_twice ex_mem 1 [] 2 [] 3 []) as [H _].
  - apply ex_mem_list1.
  - exact H.
Defined.

End DListProps.

(** ** Further properties of hlist.h *)

Module HListProps.
Import HList HListSpec HListIter.

Lemma hwp_eq {St A} (c : M St A) s a s' :
  wp c s (λ r t, r = a ∧ t = s') → c s = Some (a, s').
Proof. by intros (? & ? & ? & -> & ->). Qed.

(** *** Insertion *)

(** X18: for a well-formed hash list [h] and an allocated, non-null node
    [n] outside it, [hlist_add_head(n, h)] makes [n] the first node,
    [hlist_add_before(n, x)] inserts [n] right before the node [x] and
    [hlist_add_behind(n, x)] right after it; the other nodes keep their
    order and the list stays well formed. *)
Theorem hlist_add_position m h l n :
  hlist m h l → n ∉ l → n ≠ NULL → valid m (NextOf n) →
  (∃ m', hlist_add_head n h m = Some (tt, m') ∧ hlist m' h (n :: l))
  ∧ (∀ l1 x l2, l = l1 ++ x :: l2 →
       (∃ m', hlist_add_before n x m = Some (tt, m')
              ∧ hlist m' h (l1 ++ n :: x :: l2))
       ∧ (∃ m', hlist_add_behind n x m = Some (tt, m')
                ∧ hlist m' h (l1 ++ x :: n :: l2))).
Proof.
  intros Hh Hn Hn0 Hv. split.
  - destruct (wp_hlist_add_head m h l n (λ _ m', hlist m' h (n :: l)))
      as ([] & m' & ? & ?); [done..|by intros|eauto].
  - intros l1 x l2 ->. split.
    + destruct (wp_hlist_add_before m h l1 x l2 n
                  (λ _ m', hlist m' h (l1 ++ n :: x :: l2)))
        as ([] & m' & ? & ?); [done..|by intros|eauto].
    + destruct (wp_hlist_add_behind m h l1 x l2 n
                  (λ _ m', hlist m' h (l1 ++ x :: n :: l2)))
        as ([] & m' & ? & ?); [done..|by intros|eauto].
Qed.

(** *** Tests *)

(** X19: on a well-formed hash list with nodes [l], [hlist_empty] returns
    whether [l] is empty, and for a node [n] of the list [hlist_unhashed],
    [hlist_unhashed_lockless] and [hlist_fake] are false and
    [hlist_is_singular_node(n, h)] returns whether [n] is the only node.
    None of them writes. *)
Theorem hlist_tests m h l :
  hlist m h l →
  hlist_empty h m = Some (bool_decide (l = []), m)
  ∧ ∀ n, n ∈ l →
      hlist_unhashed n m = Some (false, m)
      ∧ hlist_unhashed_lockless n m = Some (false, m)
      ∧ hlist_fake n m = Some (false, m)
      ∧ hlist_is_singular_node n h m = Some (bool_decide (l = [n]), m).
Proof.
  intros Hh. split.
  - pose proof (hlist_head_first _ _ _ Hh) as Hf. apply hwp_eq.
    unfold hlist_empty. hsteps. split; [|done]. apply bool_decide_ext.
    destruct l as [|y l]; simpl; [done|].
    destruct Hh as (_ & (? & _) & _). naive_solver.
  - intros n (l1 & l2 & ->)%list_elem_of_split.
    destruct (hlist_split _ _ _ _ _ Hh)
      as (_ & _ & Hn1 & Hn2 & _ & Hn0 & _ & H02 & _ & _ & _ & Hpn & Hnn & _
          & Hsn & _).
    assert (last_slot (FirstOf h) l1 ≠ Raw NULL) as Hraw.
    { unfold last_slot. by destruct (last l1). }
    split_and!; apply hwp_eq.
    + unfold hlist_unhashed. hsteps. by rewrite bool_decide_eq_false_2.
    + unfold hlist_unhashed_lockless. hsteps.
      by rewrite bool_decide_eq_false_2.
    + unfold hlist_fake. hsteps. by rewrite bool_decide_eq_false_2.
    + unfold hlist_is_singular_node. hsteps.
      destruct l2 as [|y l2]; simpl.
      * hsteps. split; [|done].
        apply bool_decide_ext. destruct l1 as [|z l1]; simpl.
        -- by rewrite last_slot_nil.
        -- rewrite last_slot_cons. split.
           ++ unfold last_slot. by destruct (last l1).
           ++ intros [= -> Hl]. by destruct l1.
      * rewrite decide_False.
        2:{ intros ->. apply H02. apply list_elem_of_here. }
        hsteps. split; [|done]. symmetry. apply bool_decide_eq_false_2.
        intros Heq. apply (f_equal length) in Heq.
        rewrite length_app in Heq. simpl in Heq. lia.
Qed.


(** *** Moving a whole list *)

(** X20: [hlist_move_list(old, new)] with two distinct heads gives [new]
    the nodes of [old], in order, and leaves [old] empty.  With
    [new == old] it leaves the head empty: the nodes are lost. *)
Theorem hlist_move_list_correct m old l :
  hlist m old l →
  (∀ new, old ≠ new → valid m (FirstOf new) →
     ∃ m', hlist_move_list old new m = Some (tt, m')
           ∧ hlist m' new l ∧ hlist m' old [])
  ∧ (∃ m', hlist_move_list old old m = Some (tt, m') ∧ hlist m' old []).
Proof.
  intros Hh. split.
  - intros new Hne Hv.
    destruct (wp_hlist_move_list m old new l
                (λ _ m', hlist m' new l ∧ hlist m' old []))
      as ([] & m' & ? & ?); [done..|by intros|eauto].
  - pose proof (hlist_head_first _ _ _ Hh) as Hf.
    enough (wp (hlist_move_list old old) m (λ _ m', hlist m' old []))
      as ([] & m' & ? & ?) by eauto.
    destruct Hh as (Hnd & Hl & He). unfold hlist_move_list.
    destruct l as [|y l]; simpl in Hf.
    + hsteps. rewrite decide_False by naive_solver. hsteps.
      apply hlist_nil. hread.
    + destruct Hl as (Hy0 & _ & Hpy & Hl).
      hsteps. rewrite decide_True by done. hsteps. apply hlist_nil. hread.
Qed.

(** *** Fake lists *)

(** X21: [hlist_del] on a freshly initialised, unhashed node is undefined:
    it stores through the null [pprev].  After [hlist_add_fake(n)],
    [hlist_fake(n)] is true, [hlist_unhashed(n)] is false, and [hlist_del(n)]
    is defined and writes nothing but the two fields of [n], which it
    poisons. *)
Theorem hlist_fake_del m n :
  valid m (NextOf n) →
  (INIT_HLIST_NODE n ;; hlist_del n) m = None
  ∧ (∃ m', (INIT_HLIST_NODE n ;; hlist_add_fake n) m = Some (tt, m')
           ∧ hlist_fake n m' = Some (true, m')
           ∧ hlist_unhashed n m' = Some (false, m'))
  ∧ (∃ m', (INIT_HLIST_NODE n ;; hlist_add_fake n ;; hlist_del n) m
           = Some (tt, m')
           ∧ ppv m' n = Some (Raw LIST_POISON2)
           ∧ load_slot m' (NextOf n) = Some LIST_POISON1
           ∧ (∀ s, s ≠ NextOf n → load_slot m' s = load_slot m s)
           ∧ (∀ a, a ≠ n → ppv m' a = ppv m a)).
Proof.
  intros Hv. split_and!.
  - destruct (wp_INIT_HLIST_NODE m n
                (λ _ m1, ppv m1 n = Some (Raw NULL)
                         ∧ load_slot m1 (NextOf n) = Some NULL))
      as ([] & m1 & Hrun & Hp & Hn); [done|by intros|].
    unfold mbind at 1, M_bind at 1. rewrite Hrun.
    unfold ppv, load_slot in Hp, Hn.
    destruct (nodes m1 !! n) as [[nx pp]|] eqn:Hx; [|done].
    simpl in Hp, Hn. simplify_eq.
    unfold hlist_del, __hlist_del, get_next, get_pprev, mbind, M_bind.
    rewrite Hx. simpl. rewrite Hx. done.
  - enough (wp (INIT_HLIST_NODE n ;; hlist_add_fake n) m (λ _ m',
              hlist_fake n m' = Some (true, m')
              ∧ hlist_unhashed n m' = Some (false, m')))
      as ([] & m' & ? & ?) by eauto.
    unfold INIT_HLIST_NODE, hlist_add_fake. hsteps. split; apply hwp_eq.
    + unfold hlist_fake. hsteps. by rewrite bool_decide_eq_true_2.
    + unfold hlist_unhashed. hsteps. by rewrite bool_decide_eq_false_2.
  - enough (wp (INIT_HLIST_NODE n ;; hlist_add_fake n ;; hlist_del n) m
              (λ _ m', ppv m' n = Some (Raw LIST_POISON2)
                 ∧ load_slot m' (NextOf n) = Some LIST_POISON1
                 ∧ (∀ s, s ≠ NextOf n → load_slot m' s = load_slot m s)
                 ∧ (∀ a, a ≠ n → ppv m' a = ppv m a)))
      as ([] & m' & ? & ?) by eauto.
    unfold INIT_HLIST_NODE, hlist_add_fake, hlist_del, __hlist_del.
    hsteps. rewrite decide_False by naive_solver. hsteps. split_and!.
    + hread.
    + hread.
    + intros s Hs. hother.
    + intros a Ha. hother.
Qed.

(** *** Iteration *)

Lemma hlinks_next m s n r :
  hlinks m s (n :: r) → load_slot m (last_slot s (n :: r)) = Some NULL →
  load_slot m (NextOf n) = Some (default NULL (head r)).
Proof.
  intros (_ & _ & _ & Hr) He. rewrite last_slot_cons in He.
  destruct r as [|y r]; simpl.
  - by rewrite last_slot_nil in He.
  - by destruct Hr as (_ & ? & _).
Qed.

Lemma hlist_for_each_from_spec m s l fuel :
  hlinks m s l → load_slot m (last_slot s l) = Some NULL →
  (length l < fuel)%nat →
  hlist_for_each_from fuel (λ _, mret tt) (default NULL (head l)) m
  = Some (l, m).
Proof.
  revert s fuel. induction l as [|n r IH]; intros s fuel Hl He Hf.
  - destruct fuel; [lia|]. reflexivity.
  - destruct fuel; [simpl in Hf; lia|].
    pose proof (hlinks_next _ _ _ _ Hl He) as Hn.
    destruct Hl as (Hn0 & _ & _ & Hr). rewrite last_slot_cons in He.
    simpl. rewrite decide_True by done.
    unfold mbind, M_bind, mret, M_ret, get_next.
    unfold load_slot in Hn. destruct (nodes m !! n) as [x|]; simplify_eq/=.
    rewrite Hn. by rewrite (IH (NextOf n)); [|done|done|simpl in Hf; lia].
Qed.

Lemma hlist_entry_safe_node off n :
  n ≠ NULL → hlist_entry_safe off n = DList.container_of off n.
Proof. intros. unfold hlist_entry_safe. by rewrite decide_True. Qed.

Lemma hlist_entry_safe_head off (l : list Z) :
  NULL ∉ l →
  hlist_entry_safe off (default NULL (head l))
  = default NULL (head (DList.container_of off <$> l)).
Proof.
  intros H0. destruct l as [|y l]; simpl; [done|].
  apply hlist_entry_safe_node. intros ->. apply H0, list_elem_of_here.
Qed.

Lemma hlist_for_each_entry_from_spec off m s l fuel :
  hlinks m s l → load_slot m (last_slot s l) = Some NULL →
  (∀ n, n ∈ l → DList.container_of off n ≠ NULL) →
  (length l < fuel)%nat →
  hlist_for_each_entry_from fuel off (λ _, mret tt)
    (hlist_entry_safe off (default NULL (head l))) m
  = Some (DList.container_of off <$> l, m).
Proof.
  revert s fuel. induction l as [|n r IH]; intros s fuel Hl He Hc Hf.
  - destruct fuel; [lia|]. reflexivity.
  - destruct fuel; [simpl in Hf; lia|].
    pose proof (hlinks_next _ _ _ _ Hl He) as Hn.
    destruct Hl as (Hn0 & _ & _ & Hr). rewrite last_slot_cons in He.
    simpl. rewrite hlist_entry_safe_node by done.
    rewrite decide_True by (apply Hc, list_elem_of_here).
    unfold DList.member_of, DList.container_of.
    replace (n - off + off) with n by lia.
    unfold mbind, M_bind, mret, M_ret, get_next.
    unfold load_slot in Hn. destruct (nodes m !! n) as [x|]; simplify_eq/=.
    rewrite Hn.
    rewrite (IH (NextOf n)); [done|done|done| |simpl in Hf; lia].
    intros y Hy. apply Hc. by apply list_elem_of_further.
Qed.

Lemma hlist_for_each_visits m h l fuel :
  hlist m h l → (length l < fuel)%nat →
  hlist_for_each fuel (λ _, mret tt) h m = Some (l, m)
  ∧ ∀ off, (∀ n, n ∈ l → DList.container_of off n ≠ NULL) →
      hlist_for_each_entry fuel off (λ _, mret tt) h m
      = Some (DList.container_of off <$> l, m).
Proof.
  intros Hh Hf. pose proof (hlist_head_first _ _ _ Hh) as Hfi.
  destruct Hh as (Hnd & Hl & He). unfold load_slot in Hfi.
  split; [|intros off Hc].
  - unfold hlist_for_each, mbind, M_bind, get_first.
    destruct (heads m !! h) as [x|]; simplify_eq/=. rewrite Hfi.
    by eapply hlist_for_each_from_spec.
  - unfold hlist_for_each_entry, mbind, M_bind, get_first.
    destruct (heads m !! h) as [x|]; simplify_eq/=. rewrite Hfi.
    by eapply hlist_for_each_entry_from_spec.
Qed.

Lemma hlist_for_each_safe_del m h l fuel :
  hlist m h l → (length l < fuel)%nat →
  wp (hlist_for_each_safe_from fuel hlist_del (default NULL (head l))) m
    (λ v m', v = l ∧ hlist m' h []
             ∧ (∀ n, n ∈ l → ppv m' n = Some (Raw LIST_POISON2))
             ∧ (∀ a, a ∉ l → ppv m' a = ppv m a)).
Proof.
  revert fuel m. induction l as [|n r IH]; intros fuel m Hh Hf.
  - destruct fuel; [lia|]. simpl.
    hstep. split_and!; [done..|by intros n ?%elem_of_nil|done].
  - destruct fuel; [simpl in Hf; lia|].
    destruct (hlist_split m h [] n r Hh)
      as (_ & Hndr & _ & Hnr & _ & Hn0 & _ & _ & _ & _ & _ & _ & Hnn & _).
    simpl. rewrite decide_True by done. hsteps.
    eapply (wp_hlist_del m h [] n r); [done|].
    intros m1 Hh1 Hp1 _ _ Ha1. simpl in Hh1. hstep.
    eapply wp_mono; [apply (IH fuel m1); [done|simpl in Hf; lia]|].
    intros v m2 (-> & Hh2 & Hp2 & Ha2). hstep. split_and!; [done..| |].
    + intros y [->|Hy]%elem_of_cons; [|by apply Hp2].
      by rewrite Ha2.
    + intros a Ha. apply not_elem_of_cons in Ha as [? Har].
      rewrite Ha2 by done. apply Ha1; [|done].
      intros Hhd%head_Some_elem_of. done.
Qed.

Lemma hlist_for_each_entry_safe_del off m h l fuel :
  hlist m h l → (∀ n, n ∈ l → DList.container_of off n ≠ NULL) →
  (length l < fuel)%nat →
  wp (hlist_for_each_entry_safe_from fuel off
        (λ pos, hlist_del (DList.member_of off pos))
        (hlist_entry_safe off (default NULL (head l)))) m
    (λ v m', v = DList.container_of off <$> l ∧ hlist m' h []).
Proof.
  revert fuel m. induction l as [|n r IH]; intros fuel m Hh Hc Hf.
  - destruct fuel; [lia|]. simpl. by hstep.
  - destruct fuel; [simpl in Hf; lia|].
    destruct (hlist_split m h [] n r Hh)
      as (_ & Hndr & _ & Hnr & _ & Hn0 & _ & _ & _ & _ & _ & _ & Hnn & _).
    simpl. rewrite hlist_entry_safe_node by done.
    rewrite decide_True by (apply Hc, list_elem_of_here).
    unfold DList.member_of, DList.container_of.
    replace (n - off + off) with n by lia. hsteps.
    eapply (wp_hlist_del m h [] n r); [done|].
    intros m1 Hh1 _ _ _ _. simpl in Hh1. hstep.
    eapply wp_mono; [apply (IH fuel m1); [done| |simpl in Hf; lia]|].
    + intros y Hy. apply Hc. by apply list_elem_of_further.
    + intros v m2 (-> & Hh2). by hstep.
Qed.

Lemma hlist_for_each_safe_delete_spec m h l fuel :
  hlist m h l → (length l < fuel)%nat →
  (∃ m', hlist_for_each_safe fuel hlist_del h m = Some (l, m')
         ∧ hlist m' h []
         ∧ ∀ n, n ∈ l → ppv m' n = Some (Raw LIST_POISON2))
  ∧ (∀ off, (∀ n, n ∈ l → DList.container_of off n ≠ NULL) →
       ∃ m', hlist_for_each_entry_safe fuel off
               (λ pos, hlist_del (DList.member_of off pos)) h m
             = Some (DList.container_of off <$> l, m')
             ∧ hlist m' h []).
Proof.
  intros Hh Hf. pose proof (hlist_head_first _ _ _ Hh) as Hfi.
  split; [|intros off Hc].
  - enough (wp (hlist_for_each_safe fuel hlist_del h) m
              (λ v m', v = l ∧ hlist m' h []
                 ∧ (∀ n, n ∈ l → ppv m' n = Some (Raw LIST_POISON2))
                 ∧ (∀ a, a ∉ l → ppv m' a = ppv m a)))
      as (v & m' & ? & -> & ? & ? & _) by eauto.
    unfold hlist_for_each_safe. hsteps. by apply hlist_for_each_safe_del.
  - enough (wp (hlist_for_each_entry_safe fuel off
                  (λ pos, hlist_del (DList.member_of off pos)) h) m
              (λ v m', v = DList.container_of off <$> l ∧ hlist m' h []))
      as (v & m' & ? & -> & ?) by eauto.
    unfold hlist_for_each_entry_safe. hsteps.
    by apply hlist_for_each_entry_safe_del.
Qed.


(** X22: with fuel above the length, [hlist_for_each] with a body that
    does nothing visits the nodes in order and writes nothing;
    [hlist_for_each_safe] with the body [hlist_del] visits them all in
    order, poisons each and leaves the head empty.  The same holds for
    [hlist_for_each_entry] and [hlist_for_each_entry_safe] on the containing
    structures, when none of them is at the null address. *)
Theorem hlist_iteration m h l fuel :
  hlist m h l → (length l < fuel)%nat →
  hlist_for_each fuel (λ _, mret tt) h m = Some (l, m)
  ∧ (∃ m', hlist_for_each_safe fuel hlist_del h m = Some (l, m')
           ∧ hlist m' h []
           ∧ ∀ n, n ∈ l → ppv m' n = Some (Raw LIST_POISON2))
  ∧ ∀ off, (∀ n, n ∈ l → DList.container_of off n ≠ NULL) →
      hlist_for_each_entry fuel off (λ _, mret tt) h m
      = Some (DList.container_of off <$> l, m)
      ∧ ∃ m', hlist_for_each_entry_safe fuel off
                (λ pos, hlist_del (DList.member_of off pos)) h m
              = Some (DList.container_of off <$> l, m')
              ∧ hlist m' h [].
Proof.
  intros Hh Hf.
  destruct (hlist_for_each_visits _ _ _ _ Hh Hf) as [Hv Hve].
  destruct (hlist_for_each_safe_delete_spec _ _ _ _ Hh Hf) as [Hs Hse].
  split_and!; [done..|]. intros off Hc. split; [by apply Hve|by apply Hse].
Qed.

(** *** Round trips *)

Lemma wp_conj {St A} (c : M St A) s (Q1 Q2 : A → St → Prop) :
  wp c s Q1 → wp c s Q2 → wp c s (λ a s', Q1 a s' ∧ Q2 a s').
Proof.
  intros (a & s' & Hc & H1) (a' & s'' & Hc' & H2).
  assert (a' = a ∧ s'' = s') as [-> ->] by (split; congruence).
  by exists a, s'.
Qed.

(** The fields [hlist_add_head] leaves alone. *)
Lemma wp_hlist_add_head_frame m h l n Q :
  hlist m h l → n ∉ l → n ≠ NULL → valid m (NextOf n) →
  (∀ m', hlist m' h (n :: l) →
         (∀ s, s ≠ FirstOf h → s ≠ NextOf n →
               load_slot m' s = load_slot m s) →
         (∀ a, a ≠ n → head l ≠ Some a → ppv m' a = ppv m a) →
         Q tt m') →
  wp (hlist_add_head n h) m Q.
Proof.
  intros Hh Hnl Hn0 Hv HQ.
  eapply wp_mono.
  { apply wp_conj.
    - by apply (wp_hlist_add_head m h l n (λ _ m', hlist m' h (n :: l))).
    - instantiate (1 := λ _ m',
        (∀ s, s ≠ FirstOf h → s ≠ NextOf n → load_slot m' s = load_slot m s)
        ∧ (∀ a, a ≠ n → head l ≠ Some a → ppv m' a = ppv m a)).
      pose proof (hlist_head_first _ _ _ Hh) as Hf.
      destruct Hh as (Hnd & Hl & He). unfold hlist_add_head.
      destruct l as [|y l]; simpl in Hf.
      + hsteps. rewrite decide_False by naive_solver. hsteps. split.
        * intros s ? ?. hother.
        * intros a ? ?. hother.
      + destruct Hl as (Hy0 & _ & Hpy & Hl).
        hsteps. rewrite decide_True by done. hsteps. split.
        * intros s ? ?. hother.
        * intros a ? Ha. simpl in Ha. hother. }
  intros [] m' (? & ? & ?). by apply HQ.
Qed.

(** X23: [hlist_add_head(n, h)] followed by [hlist_del(n)] restores every
    pointer field of every head and node but [n] to its value before the
    insertion; [n] holds the two poison values. *)
Theorem hlist_add_del_roundtrip m h l n :
  hlist m h l → n ∉ l → n ≠ NULL → valid m (NextOf n) →
  ∃ m', (hlist_add_head n h ;; hlist_del n) m = Some (tt, m')
        ∧ hlist m' h l
        ∧ (∀ s, s ≠ NextOf n → load_slot m' s = load_slot m s)
        ∧ (∀ a, a ≠ n → ppv m' a = ppv m a)
        ∧ load_slot m' (NextOf n) = Some LIST_POISON1
        ∧ ppv m' n = Some (Raw LIST_POISON2).
Proof.
  intros Hh Hnl Hn0 Hv.
  enough (wp (hlist_add_head n h ;; hlist_del n) m (λ _ m',
            (∀ s, s ≠ NextOf n → load_slot m' s = load_slot m s)
            ∧ (∀ a, a ≠ n → ppv m' a = ppv m a)
            ∧ load_slot m' (NextOf n) = Some LIST_POISON1
            ∧ ppv m' n = Some (Raw LIST_POISON2)))
    as ([] & m' & Hrun & Hs & Ha & Hn1 & Hn2).
  { exists m'. split_and!; [done| |done..].
    eapply hlist_frame; [done| |].
    - by apply Hs.
    - intros a Hal. assert (a ≠ n) by (by intros ->).
      split; [apply Hs; congruence|by apply Ha]. }
  pose proof (hlist_head_first _ _ _ Hh) as Hf.
  destruct Hh as (Hnd & Hl & He).
  unfold hlist_add_head, hlist_del, __hlist_del.
  destruct l as [|y l]; simpl in Hf.
  - hsteps. rewrite decide_False by naive_solver. hsteps.
    rewrite decide_False by naive_solver. hsteps. split_and!.
    + intros s Hs. hsimpl. repeat case_decide; simplify_eq; done.
    + intros a Ha. hother.
    + hread.
    + hread.
  - destruct Hl as (Hy0 & _ & Hpy & Hl).
    assert (y ≠ n).
    { intros ->. apply Hnl, list_elem_of_here. }
    hsteps. rewrite decide_True by done. hsteps.
    rewrite decide_True by done. hsteps. split_and!.
    + intros s Hs. hsimpl. repeat case_decide; simplify_eq; done.
    + intros a Ha. hsimpl. repeat case_decide; simplify_eq; done.
    + hread.
    + hread.
Qed.

(** X24: [hlist_del_init(n)] followed by [hlist_add_head(n, h2)], for a
    node [n] of the list [h] and the head [h2] of a second, disjoint list,
    moves [n] to the front of [h2]: [h] keeps its other nodes in order, and
    both lists are well formed. *)
Theorem hlist_rehash_move m h l1 n l2 h2 l' :
  hlist m h (l1 ++ n :: l2) → hlist m h2 l' → h ≠ h2 →
  (∀ c, c ∈ l1 ++ n :: l2 → c ∉ l') →
  ∃ m', (hlist_del_init n ;; hlist_add_head n h2) m = Some (tt, m')
        ∧ hlist m' h (l1 ++ l2) ∧ hlist m' h2 (n :: l').
Proof.
  intros Hh Hh2 Hne Hdis.
  destruct (hlist_split _ _ _ _ _ Hh)
    as (Hnd1 & Hnd2 & Hn1 & Hn2 & H12 & Hn0 & H01 & H02 & Hl1 & Hl2 & Hsl
        & Hpn & Hnn & Hend & Hsn & Hs2).
  assert (n ∉ l') as Hnl'.
  { apply Hdis. apply elem_of_app. right. apply list_elem_of_here. }
  assert (∀ a, a ∈ l' → last_slot (FirstOf h) l1 ≠ NextOf a) as Hsl'.
  { intros a Ha Heq. unfold last_slot in Heq.
    destruct (last l1) as [z|] eqn:Hz; [|done]. simplify_eq.
    apply last_Some_elem_of in Hz. apply (Hdis a); [|done].
    apply elem_of_app. by left. }
  assert (last_slot (FirstOf h) l1 ≠ FirstOf h2) as Hslh.
  { unfold last_slot. destruct (last l1); congruence. }
  enough (wp (hlist_del_init n ;; hlist_add_head n h2) m (λ _ m',
            hlist m' h (l1 ++ l2) ∧ hlist m' h2 (n :: l')))
    as ([] & m' & ? & ?) by eauto.
  hstep. unfold hlist_del_init, hlist_unhashed. hsteps.
  rewrite bool_decide_eq_false_2.
  2:{ unfold last_slot. by destruct (last l1). }
  hstep. eapply wp___hlist_del; [done|].
  intros m1 Hh1 Hp1 Hn1' Hs1 Ha1 Hv1.
  apply wp_INIT_HLIST_NODE. { apply Hv1. by eapply ppv_valid. }
  intros m2 Hp2 Hn2' Hs2' Ha2.
  assert (hlist m2 h (l1 ++ l2)) as Hh2a.
  { eapply hlist_frame; [done|by apply Hs2'|]. intros a Ha.
    assert (a ≠ n).
    { intros ->. apply elem_of_app in Ha as [?|?]; done. }
    split; [apply Hs2'; congruence|by apply Ha2]. }
  assert (hlist m2 h2 l') as Hh2b.
  { eapply hlist_frame; [done| |].
    - rewrite Hs2' by done. apply Hs1. congruence.
    - intros a Ha. assert (a ≠ n) by (by intros ->).
      split.
      + rewrite Hs2' by congruence. apply Hs1.
        intros Heq. by apply (Hsl' a).
      + rewrite Ha2 by done. apply Ha1.
        intros Hhd%head_Some_elem_of. apply (Hdis a); [|done].
        apply elem_of_app. right. by apply list_elem_of_further. }
  eapply wp_hlist_add_head_frame; [done|done|done| |].
  { eapply ppv_valid. exact Hp2. }
  intros m3 Hh3 Hs3 Ha3. split; [|done].
  eapply hlist_frame; [done| |].
  - apply Hs3; congruence.
  - intros a Ha.
    assert (a ≠ n).
    { intros ->. apply elem_of_app in Ha as [?|?]; done. }
    split.
    + apply Hs3; congruence.
    + apply Ha3; [done|]. intros Hhd%head_Some_elem_of.
      apply (Hdis a); [|done]. apply elem_of_app.
      apply elem_of_app in Ha as [?|?]; [by left|].
      right. by apply list_elem_of_further.
Qed.


(** *** The theorems on a concrete heap *)

Lemma ex_hmem_list1_split : hlist ex_hmem 1 ([10] ++ 20 :: [30]).
Proof. apply ex_hmem_list1. Qed.

Lemma ex_hmem_valid40 : valid ex_hmem (NextOf 40).
Proof. by eexists. Qed.

Lemma ex_hmem_fresh40 : 40 ∉ [10; 20; 30].
Proof. set_solver. Qed.

(** X18 on an example: [hlist_add_head(40, 1)] on [ex_hmem]. *)
Lemma hlist_add_position_witness :
  ∃ m', hlist_add_head 40 1 ex_hmem = Some (tt, m')
        ∧ hlist m' 1 [40; 10; 20; 30].
Proof.
  destruct (hlist_add_position ex_hmem 1 [10; 20; 30] 40) as [H _].
  - apply ex_hmem_list1.
  - apply ex_hmem_fresh40.
  - done.
  - apply ex_hmem_valid40.
  - exact H.
Defined.

(** X19 on an example: [hlist_empty(1)] on [ex_hmem]. *)
Lemma hlist_tests_witness :
  hlist_empty 1 ex_hmem = Some (bool_decide ([10; 20; 30] = []), ex_hmem).
Proof.
  destruct (hlist_tests ex_hmem 1 [10; 20; 30]) as [H _].
  - apply ex_hmem_list1.
  - exact H.
Defined.

(** X20 on an example: [hlist_move_list(1, 2)] on [ex_hmem]. *)
Lemma hlist_move_list_correct_witness :
  ∃ m', hlist_move_list 1 2 ex_hmem = Some (tt, m')
        ∧ hlist m' 2 [10; 20; 30] ∧ hlist m' 1 [].
Proof.
  destruct (hlist_move_list_correct ex_hmem 1 [10; 20; 30]) as [H _].
  - apply ex_hmem_list1.
  - apply (H 2); [lia|by eexists].
Defined.

(** X21 on an example: [INIT_HLIST_NODE(40); hlist_del(40)] on [ex_hmem]. *)
Lemma hlist_fake_del_witness :
  (INIT_HLIST_NODE 40 ;; hlist_del 40) ex_hmem = None.
Proof.
  destruct (hlist_fake_del ex_hmem 40) as [H _].
  - apply ex_hmem_valid40.
  - exact H.
Defined.

(** X22 on an example: [hlist_for_each] on [ex_hmem]. *)
Lemma hlist_iteration_witness :
  hlist_for_each 4 (λ _, mret tt) 1 ex_hmem = Some ([10; 20; 30], ex_hmem).
Proof.
  destruct (hlist_iteration ex_hmem 1 [10; 20; 30] 4) as [H _].
  - apply ex_hmem_list1.
  - simpl. lia.
  - exact H.
Defined.

(** X23 on an example: [hlist_add_head(40, 1); hlist_del(40)] on [ex_hmem]. *)
Lemma hlist_add_del_roundtrip_witness :
  ∃ m', (hlist_add_head 40 1 ;; hlist_del 40) ex_hmem = Some (tt, m')
        ∧ hlist m' 1 [10; 20; 30].
Proof.
  destruct (hlist_add_del_roundtrip ex_hmem 1 [10; 20; 30] 40)
    as (m' & H1 & H2 & _).
  - apply ex_hmem_list1.
  - apply ex_hmem_fresh40.
  - done.
  - apply ex_hmem_valid40.
  - exists m'. split; [exact H1|exact H2].
Defined.

(** X24 on an example: [hlist_del_init(20); hlist_add_head(20, 2)] on [ex_hmem]. *)
Lemma hlist_rehash_move_witness :
  ∃ m', (hlist_del_init 20 ;; hlist_add_head 20 2) ex_hmem = Some (tt, m')
        ∧ hlist m' 1 ([10] ++ [30]) ∧ hlist m' 2 [20].
Proof.
  apply (hlist_rehash_move ex_hmem 1 [10] 20 [30] 2 []).
  - apply ex_hmem_list1_split.
  - apply ex_hmem_list2.
  - lia.
  - intros c _. apply not_elem_of_nil.
Defined.

End HListProps.

(** ** Further properties of hash.h *)

Module HashProps.
Import Hash HashSpec HashPtr.

(** X25: for [bits] an [unsigned int], the shift of [hash_32(val, bits)]
    is defined exactly when [1 <= bits <= 32]; that of [hash_64] exactly then
    with a 32-bit [long], and exactly when [1 <= bits <= 64] with a 64-bit
    [long].  In particular [bits == 0] is undefined. *)
Theorem hash_defined_iff (val bits : Z) :
  0 ≤ bits < 2 ^ 32 →
  (is_Some (hash_32 val bits) ↔ 1 ≤ bits ≤ 32)
  ∧ (is_Some (hash_64 32 val bits) ↔ 1 ≤ bits ≤ 32)
  ∧ (is_Some (hash_64 64 val bits) ↔ 1 ≤ bits ≤ 64).
Proof.
  intros Hb.
  assert (∀ v, is_Some (hash_32 v bits) ↔ 1 ≤ bits ≤ 32) as H32.
  { intros v. unfold hash_32, shr, u32.
    destruct (decide (bits ≤ 32)) as [Hle|Hgt].
    - rewrite (Z.mod_small (32 - bits)) by lia. case_decide.
      + split; [lia|eauto].
      + split; [by intros [? ?]|lia].
    - replace ((32 - bits) mod 2 ^ 32) with (2 ^ 32 + 32 - bits).
      2:{ apply Z.mod_unique_pos with (q := -1); lia. }
      rewrite decide_False by lia. split; [by intros [? ?]|lia]. }
  split_and!; [apply H32| |].
  - unfold hash_64. rewrite decide_False by lia. apply H32.
  - unfold hash_64. rewrite decide_True by done. unfold shr, u32.
    destruct (decide (bits ≤ 64)) as [Hle|Hgt].
    + rewrite (Z.mod_small (64 - bits)) by lia. case_decide.
      * split; [lia|]. intros _. simpl. eauto.
      * split; [by intros [? ?]|lia].
    + replace ((64 - bits) mod 2 ^ 32) with (2 ^ 32 + 64 - bits).
      2:{ apply Z.mod_unique_pos with (q := -1); lia. }
      rewrite decide_False by lia. split; [by intros [? ?]|lia].
Qed.

(** X26: for [1 <= b1 <= b2 <= 32], [hash_32(val, b1)] is
    [hash_32(val, b2)] shifted right by [b2 - b1]: a hash on fewer bits is a
    prefix of the hash on more bits.  [hash_32(0, bits)] is [0]. *)
Theorem hash_32_prefix (val b1 b2 : Z) :
  1 ≤ b1 ≤ b2 → b2 ≤ 32 →
  ∃ r1 r2, hash_32 val b1 = Some r1 ∧ hash_32 val b2 = Some r2
           ∧ r1 = Z.shiftr r2 (b2 - b1)
           ∧ (val = 0 → r2 = 0).
Proof.
  intros Hb1 Hb2. unfold hash_32, shr, u32.
  rewrite (Z.mod_small (32 - b1)), (Z.mod_small (32 - b2)) by lia.
  rewrite !decide_True by lia. eexists _, _. split_and!; [done|done| |].
  - rewrite Z.shiftr_shiftr by lia. f_equal. lia.
  - intros ->. unfold __hash_32, u32. simpl. apply Z.shiftr_0_l.
Qed.

Lemma hash_32_range v bits :
  1 ≤ bits ≤ 32 → ∃ r, hash_32 v bits = Some r ∧ 0 ≤ r < 2 ^ bits.
Proof.
  intros Hb. unfold hash_32, shr, __hash_32, u32.
  rewrite (Z.mod_small (32 - bits)) by lia.
  rewrite decide_True by lia. eexists; split; [done|].
  pose proof (shr_bound 32 ((v * GOLDEN_RATIO_32) mod 2 ^ 32) (32 - bits))
    as Hs.
  replace (32 - (32 - bits)) with bits in Hs by lia.
  apply Hs; [apply Z.mod_pos_bound; lia | lia].
Qed.

Lemma hash_64_range v bits :
  1 ≤ bits ≤ 32 → ∃ r, hash_64 64 v bits = Some r ∧ 0 ≤ r < 2 ^ bits.
Proof.
  intros Hb. unfold hash_64. rewrite decide_True by done. unfold shr, u64.
  replace (u32 (64 - bits)) with (64 - bits)
    by (unfold u32; rewrite Z.mod_small; lia).
  rewrite decide_True by lia. simpl.
  pose proof (shr_bound 64 ((v * GOLDEN_RATIO_64) mod 2 ^ 64) (64 - bits))
    as Hs.
  replace (64 - (64 - bits)) with bits in Hs by lia.
  destruct Hs as [Hs0 Hs1]; [apply Z.mod_pos_bound; lia | lia |].
  assert (2 ^ bits ≤ 2 ^ 32) by (apply Z.pow_le_mono_r; lia).
  eexists; split; [done|]. unfold u32. rewrite Z.mod_small by lia. lia.
Qed.

(** X27: with a [long] of 32 or 64 bits and [1 <= bits <= 32],
    [hash_ptr(ptr, bits)] is defined and below [2^bits]; [fold32_ptr(ptr)]
    is below [2^32], and is [ptr] itself for a pointer below [2^32]. *)
Theorem hash_ptr_bound (BITS_PER_LONG ptr bits : Z) :
  BITS_PER_LONG = 32 ∨ BITS_PER_LONG = 64 → 1 ≤ bits ≤ 32 →
  (∃ r, hash_ptr BITS_PER_LONG ptr bits = Some r ∧ 0 ≤ r < 2 ^ bits)
  ∧ 0 ≤ fold32_ptr BITS_PER_LONG ptr < 2 ^ 32
  ∧ (0 ≤ ptr < 2 ^ 32 → fold32_ptr BITS_PER_LONG ptr = ptr).
Proof.
  intros Hbpl Hb. split; [|split].
  - unfold hash_ptr, hash_long, ulong. destruct Hbpl as [-> | ->].
    + rewrite decide_True by done. by apply hash_32_range.
    + rewrite decide_False by lia. by apply hash_64_range.
  - unfold fold32_ptr, u32. apply Z.mod_pos_bound. lia.
  - intros Hp. unfold fold32_ptr, ulong, u32. destruct Hbpl as [-> | ->].
    + rewrite decide_False by lia. by rewrite !(Z.mod_small ptr) by lia.
    + rewrite decide_True by done.
      assert (2 ^ 32 < 2 ^ 64) by (apply Z.pow_lt_mono_r; lia).
      rewrite (Z.mod_small ptr) by lia.
      rewrite (Z.shiftr_div_pow2 ptr 32) by lia.
      rewrite (Z.div_small ptr) by lia. rewrite Z.lxor_0_r.
      by rewrite Z.mod_small by lia.
Qed.


(** X25 on an example: [hash_32(12345, 0)]. *)
Lemma hash_defined_iff_witness :
  is_Some (hash_32 12345 0) ↔ 1 ≤ 0 ≤ 32.
Proof.
  destruct (hash_defined_iff 12345 0) as [H _]; [done|exact H].
Defined.

(** X26 on an example: [hash_32(12345, 8)] and [hash_32(12345, 16)]. *)
Lemma hash_32_prefix_witness :
  ∃ r1 r2, hash_32 12345 8 = Some r1 ∧ hash_32 12345 16 = Some r2
           ∧ r1 = Z.shiftr r2 (16 - 8) ∧ (12345 = 0 → r2 = 0).
Proof. apply (hash_32_prefix 12345 8 16); lia. Defined.

(** X27 on an example: [hash_ptr(4096, 8)] with a 64-bit [long]. *)
Lemma hash_ptr_bound_witness :
  ∃ r, hash_ptr 64 4096 8 = Some r ∧ 0 ≤ r < 2 ^ 8.
Proof.
  destruct (hash_ptr_bound 64 4096 8) as [H _]; [by right|lia|exact H].
Defined.

End HashProps.

(** ** Proofs about the conversions of module-string *)

Module ZoroStrSpec.
Import ZoroStr.

Ltac early_case :=
  eexists _, _, _; (split; [done|]); left; (split_and!; [|done..]);
  eauto 6.

Lemma narrowing_cases wide (parse : cstring → Z * cstring * option Z)
    out_of_range cast s res endptr st :
  (∀ s res (endptr : bool) st,
     ∃ r out st', wide s res endptr st = Some ((r, out), st')
       ∧ ((r = -1 ∧ out = None)
          ∨ (∃ str v rest err, s = Some str ∧ parse str = (v, rest, err)
               ∧ r = 0 ∧ out = Some v
               ∧ (if endptr then endp st' = rest else True)))) →
  ∃ r out st', narrowing wide out_of_range cast s res endptr st
               = Some ((r, out), st')
    ∧ ((r = -1 ∧ out = None)
       ∨ (∃ str v rest err, s = Some str ∧ parse str = (v, rest, err)
            ∧ r = 0 ∧ out = Some (cast v) ∧ out_of_range v = false)).
Proof.
  intros Hwide. unfold narrowing.
  destruct s as [str|]; simpl; [|by eauto 10].
  rewrite ?bool_decide_eq_false_2 by done. simpl.
  destruct res; simpl; [|by eauto 10].
  destruct (Hwide (Some str) true endptr st) as (r & out & st' & Hrun & Hc).
  unfold mbind, M_bind. rewrite Hrun. simpl.
  destruct Hc as [(-> & ->)|(? & v & rest & err & ? & Hp & -> & -> & _)].
  - rewrite bool_decide_eq_true_2 by done. by eauto 10.
  - simplify_eq. rewrite bool_decide_eq_false_2 by naive_solver. simpl.
    destruct (out_of_range v) eqn:Hr; [by eauto 10|].
    eexists _, _, _. split; [done|]. right. by eexists _, _, _, _.
Qed.

Lemma narrowing_refused wide out_of_range cast s res endptr st :
  wide s true endptr st = Some ((-1, None), st) →
  narrowing wide out_of_range cast s res endptr st = Some ((-1, None), st).
Proof.
  intros Hw. unfold narrowing.
  destruct (bool_decide (s = None) || negb res); [done|].
  unfold mbind, M_bind. by rewrite Hw.
Qed.

Lemma to_signed_id w z :
  0 < w → - 2 ^ (w - 1) ≤ z ≤ 2 ^ (w - 1) - 1 → to_signed w z = z.
Proof.
  intros Hw Hz. unfold to_signed.
  assert (2 ^ w = 2 * 2 ^ (w - 1)) as Hpow.
  { rewrite <- Z.pow_succ_r by lia. f_equal. lia. }
  rewrite Z.mod_small by lia. lia.
Qed.

Lemma to_unsigned_id w z : 0 ≤ z ≤ 2 ^ w - 1 → to_unsigned w z = z.
Proof. intros Hz. unfold to_unsigned. apply Z.mod_small. lia. Qed.

Section SignedSpec.

Variable BITS_PER_LONG : Z.
Variable char_is_signed : bool.
Variable strtol : cstring → Z * cstring * option Z.

Lemma strtol_cases s res endptr st :
  ∃ r out st',
    __zorostr_strtol BITS_PER_LONG strtol s res endptr st
    = Some ((r, out), st')
    ∧ ((early s res ∧ r = -1 ∧ out = None ∧ st' = st)
       ∨ (∃ str v rest err,
            s = Some str ∧ str ≠ [] ∧ res = true
            ∧ strtol str = (v, rest, err)
            ∧ errno st' = default 0 err
            ∧ ((r = -1 ∧ out = None ∧ endp st' = endp st)
               ∨ (r = 0 ∧ out = Some v
                  ∧ (if endptr then endp st' = rest
                     else rest = [] ∧ endp st' = endp st))))).
Proof.
  unfold __zorostr_strtol, early. destruct s as [str|]; [|early_case].
  destruct res; simpl; [|early_case].
  case_bool_decide as Hstr; [subst; early_case|].
  unfold mbind, M_bind, clear_errno, call_strtol, get_errno, set_endptr,
    mret, M_ret. simpl.
  destruct (strtol str) as [[v rest] err] eqn:Hs. simpl.
  set (chk := _ && _ || _). destruct chk.
  { eexists _, _, _. split; [done|]. right.
    eexists _, _, _, _. split_and!; [done..|]. by left. }
  destruct endptr; simpl.
  - eexists _, _, _. split; [done|]. right.
    eexists _, _, _, _. split_and!; [done..|]. by right.
  - case_bool_decide as Hrest.
    + eexists _, _, _. split; [done|]. right.
      eexists _, _, _, _. split_and!; [done..|]. by left.
    + eexists _, _, _. split; [done|]. right.
      eexists _, _, _, _. split_and!; [done..|]. right.
      split_and!; [done..| |done].
      destruct rest; [done|]. by destruct Hrest.
Qed.

(** X28: whatever the library's [strtol] does, [__zorostr_strtol] returns
    [0] or [-1]; it stores in [*res] exactly when it returns [0]; when it
    returns [-1] it has not written [*endptr]; with a null or empty [s] or a
    null [res] it returns [-1] and writes nothing, [errno] included.  When
    it returns [0], [*res] is the value [strtol] gave, and [*endptr] is the
    rest of the string or, with a null [endptr], the string was consumed
    whole.  If [strtol] converts nothing and sets no error, a call with
    [endptr] returns [0] and stores [0], one without returns [-1]. *)
Theorem zorostr_strtol_contract s res endptr st :
  ∃ r out st',
    __zorostr_strtol BITS_PER_LONG strtol s res endptr st
    = Some ((r, out), st')
    ∧ (r = 0 ∨ r = -1)
    ∧ (r = 0 ↔ is_Some out)
    ∧ (r = -1 → endp st' = endp st)
    ∧ (s = None ∨ s = Some [] ∨ res = false → r = -1 ∧ st' = st)
    ∧ (r = 0 →
       ∃ str v rest err,
         s = Some str ∧ str ≠ [] ∧ strtol str = (v, rest, err)
         ∧ out = Some v
         ∧ (if endptr then endp st' = rest
            else rest = [] ∧ endp st' = endp st))
    ∧ (∀ str, str ≠ [] → strtol str = (0, str, None) →
         __zorostr_strtol BITS_PER_LONG strtol (Some str) true true st
         = Some ((0, Some 0), mk_cstate 0 str)
         ∧ __zorostr_strtol BITS_PER_LONG strtol (Some str) true false st
           = Some ((-1, None), mk_cstate 0 (endp st))).
Proof.
  destruct (strtol_cases s res endptr st) as (r & out & st' & Hrun & Hc).
  exists r, out, st'. split; [done|].
  assert (∀ str, str ≠ [] → strtol str = (0, str, None) →
            (__zorostr_strtol BITS_PER_LONG strtol) (Some str) true true st
            = Some ((0, Some 0), mk_cstate 0 str)
            ∧ (__zorostr_strtol BITS_PER_LONG strtol) (Some str) true false st
              = Some ((-1, None), mk_cstate 0 (endp st))) as Hnodigits.
  { intros str Hstr Hs. unfold __zorostr_strtol. simpl.
    rewrite (bool_decide_eq_false_2 (str = [])) by done.
    unfold mbind, M_bind, clear_errno, call_strtol, get_errno, set_endptr,
      mret, M_ret. simpl. rewrite Hs. simpl.
    by rewrite (bool_decide_eq_true_2 (str ≠ [])). }
  destruct Hc as [(He & -> & -> & ->)
                 |(str & v & rest & err & -> & Hstr & -> & Hs & Herr & Hc)].
  - split_and!; [by right| |done|done|done|done].
    split; [done|by intros [? ?]].
  - destruct Hc as [(-> & -> & Hend)|(-> & -> & Hend)].
    + split_and!; [by right| |done| |done|done].
      * split; [done|by intros [? ?]].
      * intros [?|[?|?]]; by simplify_eq.
    + split_and!; [by left|by split; eauto|done| | |done].
      * intros [?|[?|?]]; by simplify_eq.
      * intros _. by eexists _, _, _, _.
Qed.

Lemma strtol_wide_cases s res endptr st :
  ∃ r out st',
    __zorostr_strtol BITS_PER_LONG strtol s res endptr st
    = Some ((r, out), st')
    ∧ ((r = -1 ∧ out = None)
       ∨ (∃ str v rest err, s = Some str ∧ strtol str = (v, rest, err)
            ∧ r = 0 ∧ out = Some v
            ∧ (if endptr then endp st' = rest else True))).
Proof.
  destruct (strtol_cases s res endptr st) as (r & out & st' & Hrun & Hc).
  exists r, out, st'. split; [done|].
  destruct Hc as [(_ & -> & -> & _)|(str & v & rest & err & -> & _ & _ & Hs
                                     & _ & [(-> & -> & _)|(-> & -> & He)])];
    [by left..|].
  right. eexists _, _, _, _. split_and!; [done..|]. by destruct endptr.
Qed.

(** X29: [__zorostr_strtoi], [__zorostr_strtos] and [__zorostr_strtoc]
    return [-1] and store nothing in [*res], or return [0] and store the
    very value [strtol] gave, which is within the bounds of [int], [short]
    and [char]: the cast loses nothing.  A value out of the bounds of [int]
    is refused after [*endptr] was written. *)
Theorem zorostr_signed_narrowing s res endptr st :
  (∃ r out st',
     __zorostr_strtoi BITS_PER_LONG strtol s res endptr st
     = Some ((r, out), st')
     ∧ ((r = -1 ∧ out = None)
        ∨ (∃ str v rest err, s = Some str ∧ strtol str = (v, rest, err)
             ∧ r = 0 ∧ out = Some v ∧ INT_MIN ≤ v ≤ INT_MAX)))
  ∧ (∃ r out st',
       __zorostr_strtos BITS_PER_LONG strtol s res endptr st
       = Some ((r, out), st')
       ∧ ((r = -1 ∧ out = None)
          ∨ (∃ str v rest err, s = Some str ∧ strtol str = (v, rest, err)
               ∧ r = 0 ∧ out = Some v ∧ SHRT_MIN ≤ v ≤ SHRT_MAX)))
  ∧ (∃ r out st',
       __zorostr_strtoc BITS_PER_LONG char_is_signed strtol s res endptr st
       = Some ((r, out), st')
       ∧ ((r = -1 ∧ out = None)
          ∨ (∃ str v rest err, s = Some str ∧ strtol str = (v, rest, err)
               ∧ r = 0 ∧ out = Some v
               ∧ CHAR_MIN char_is_signed ≤ v ≤ CHAR_MAX char_is_signed)))
  ∧ (∀ str v rest,
       str ≠ [] → strtol str = (v, rest, None) →
       v > INT_MAX ∨ v < INT_MIN →
       __zorostr_strtoi BITS_PER_LONG strtol (Some str) true true st
       = Some ((-1, None), mk_cstate 0 rest)).
Proof.
  split_and!.
  - destruct (narrowing_cases (__zorostr_strtol BITS_PER_LONG strtol) strtol
                (λ t, bool_decide (t > INT_MAX) || bool_decide (t < INT_MIN))
                (to_signed 32) s res endptr st strtol_wide_cases)
      as (r & out & st' & Hrun & Hc).
    exists r, out, st'. split; [exact Hrun|].
    destruct Hc as [?|(str & v & rest & err & -> & Hs & -> & -> & Hr)];
      [by left|right].
    apply orb_false_iff in Hr as [Hr1 Hr2].
    apply bool_decide_eq_false in Hr1, Hr2.
    eexists _, _, _, _. split_and!; [done..| |lia|lia].
    f_equal. apply to_signed_id; [lia|]. unfold INT_MAX, INT_MIN in *.
    simpl. lia.
  - destruct (narrowing_cases (__zorostr_strtol BITS_PER_LONG strtol) strtol
                (λ t, bool_decide (t > SHRT_MAX) || bool_decide (t < SHRT_MIN))
                (to_signed 16) s res endptr st strtol_wide_cases)
      as (r & out & st' & Hrun & Hc).
    exists r, out, st'. split; [exact Hrun|].
    destruct Hc as [?|(str & v & rest & err & -> & Hs & -> & -> & Hr)];
      [by left|right].
    apply orb_false_iff in Hr as [Hr1 Hr2].
    apply bool_decide_eq_false in Hr1, Hr2.
    eexists _, _, _, _. split_and!; [done..| |lia|lia].
    f_equal. apply to_signed_id; [lia|]. unfold SHRT_MAX, SHRT_MIN in *.
    simpl. lia.
  - destruct (narrowing_cases (__zorostr_strtol BITS_PER_LONG strtol) strtol
                (λ t, bool_decide (t > CHAR_MAX char_is_signed)
                      || bool_decide (t < CHAR_MIN char_is_signed))
                (if char_is_signed then to_signed 8 else to_unsigned 8)
                s res endptr st strtol_wide_cases)
      as (r & out & st' & Hrun & Hc).
    exists r, out, st'. split.
    { rewrite <- Hrun. unfold __zorostr_strtoc, narrowing.
      by destruct char_is_signed. }
    destruct Hc as [?|(str & v & rest & err & -> & Hs & -> & -> & Hr)];
      [by left|right].
    apply orb_false_iff in Hr as [Hr1 Hr2].
    apply bool_decide_eq_false in Hr1, Hr2.
    eexists _, _, _, _. split_and!; [done..| |lia|lia].
    f_equal. unfold CHAR_MAX, CHAR_MIN in *. destruct char_is_signed.
    + apply to_signed_id; [lia|]. simpl. lia.
    + apply to_unsigned_id. lia.
  - intros str v rest Hstr Hs Hv.
    unfold __zorostr_strtoi, __zorostr_strtol. simpl.
    rewrite (bool_decide_eq_false_2 (str = [])) by done. simpl.
    unfold mbind, M_bind, clear_errno, call_strtol, get_errno, set_endptr,
      mret, M_ret. simpl. rewrite Hs. simpl.
    destruct Hv.
    + by rewrite (bool_decide_eq_true_2 (v > INT_MAX)).
    + rewrite (bool_decide_eq_true_2 (v < INT_MIN)) by done.
      by rewrite orb_true_r.
Qed.

End SignedSpec.

Section UnsignedSpec.

Variable BITS_PER_LONG : Z.
Variable strtoul : cstring → Z * cstring * option Z.

Lemma strtoul_cases s res endptr st :
  ∃ r out st',
    __zorostr_strtoul BITS_PER_LONG strtoul s res endptr st
    = Some ((r, out), st')
    ∧ (((early s res ∨ ∃ str, s = Some str ∧ head str = Some "-"%char)
        ∧ r = -1 ∧ out = None ∧ st' = st)
       ∨ (∃ str v rest err,
            s = Some str ∧ str ≠ [] ∧ res = true
            ∧ strtoul str = (v, rest, err)
            ∧ errno st' = default 0 err
            ∧ ((r = -1 ∧ out = None ∧ endp st' = endp st)
               ∨ (r = 0 ∧ out = Some v
                  ∧ (if endptr then endp st' = rest
                     else rest = [] ∧ endp st' = endp st))))).
Proof.
  unfold __zorostr_strtoul, early. destruct s as [str|]; [|early_case].
  destruct res; simpl; [|early_case].
  case_bool_decide as Hstr; [subst; early_case|]. simpl.
  case_bool_decide as Hminus; [early_case|].
  unfold mbind, M_bind, clear_errno, call_strtoul, get_errno, set_endptr,
    mret, M_ret. simpl.
  destruct (strtoul str) as [[v rest] err] eqn:Hs. simpl.
  set (chk := _ && _ || _). destruct chk.
  { eexists _, _, _. split; [done|]. right.
    eexists _, _, _, _. split_and!; [done..|]. by left. }
  destruct endptr; simpl.
  - eexists _, _, _. split; [done|]. right.
    eexists _, _, _, _. split_and!; [done..|]. by right.
  - case_bool_decide as Hrest.
    + eexists _, _, _. split; [done|]. right.
      eexists _, _, _, _. split_and!; [done..|]. by left.
    + eexists _, _, _. split; [done|]. right.
      eexists _, _, _, _. split_and!; [done..|]. right.
      split_and!; [done..| |done].
      destruct rest; [done|]. by destruct Hrest.
Qed.

Lemma strtoul_wide_cases s res endptr st :
  ∃ r out st',
    __zorostr_strtoul BITS_PER_LONG strtoul s res endptr st
    = Some ((r, out), st')
    ∧ ((r = -1 ∧ out = None)
       ∨ (∃ str v rest err, s = Some str ∧ strtoul str = (v, rest, err)
            ∧ r = 0 ∧ out = Some v
            ∧ (if endptr then endp st' = rest else True))).
Proof.
  destruct (strtoul_cases s res endptr st) as (r & out & st' & Hrun & Hc).
  exists r, out, st'. split; [done|].
  destruct Hc as [(_ & -> & -> & _)|(str & v & rest & err & -> & _ & _ & Hs
                                     & _ & [(-> & -> & _)|(-> & -> & He)])];
    [by left..|].
  right. eexists _, _, _, _. split_and!; [done..|]. by destruct endptr.
Qed.

(** X30: when [strtoul] gives no negative value, the unsigned conversions
    refuse a string that starts with ['-'] without calling the library or
    writing anything; [__zorostr_strtoui], [__zorostr_strtous] and
    [__zorostr_strtouc] return [-1] and store nothing, or return [0] and
    store the very value [strtoul] gave, at most [UINT_MAX], [USHRT_MAX] and
    [UCHAR_MAX]. *)
Theorem zorostr_unsigned_conversions s res endptr st :
  (∀ str, 0 ≤ (strtoul str).1.1) →
  (∀ str, s = Some str → head str = Some "-"%char →
     __zorostr_strtoul BITS_PER_LONG strtoul s res endptr st
     = Some ((-1, None), st)
     ∧ __zorostr_strtoui BITS_PER_LONG strtoul s res endptr st
       = Some ((-1, None), st)
     ∧ __zorostr_strtous BITS_PER_LONG strtoul s res endptr st
       = Some ((-1, None), st)
     ∧ __zorostr_strtouc BITS_PER_LONG strtoul s res endptr st
       = Some ((-1, None), st))
  ∧ (∃ r out st',
       __zorostr_strtoui BITS_PER_LONG strtoul s res endptr st
       = Some ((r, out), st')
       ∧ ((r = -1 ∧ out = None)
          ∨ (∃ str v rest err, s = Some str ∧ strtoul str = (v, rest, err)
               ∧ r = 0 ∧ out = Some v ∧ 0 ≤ v ≤ UINT_MAX)))
  ∧ (∃ r out st',
       __zorostr_strtous BITS_PER_LONG strtoul s res endptr st
       = Some ((r, out), st')
       ∧ ((r = -1 ∧ out = None)
          ∨ (∃ str v rest err, s = Some str ∧ strtoul str = (v, rest, err)
               ∧ r = 0 ∧ out = Some v ∧ 0 ≤ v ≤ USHRT_MAX)))
  ∧ (∃ r out st',
       __zorostr_strtouc BITS_PER_LONG strtoul s res endptr st
       = Some ((r, out), st')
       ∧ ((r = -1 ∧ out = None)
          ∨ (∃ str v rest err, s = Some str ∧ strtoul str = (v, rest, err)
               ∧ r = 0 ∧ out = Some v ∧ 0 ≤ v ≤ UCHAR_MAX))).
Proof.
  intros Hpos.
  assert (∀ hi w,
    ∃ r out st',
      narrowing (__zorostr_strtoul BITS_PER_LONG strtoul)
        (λ t, bool_decide (t > hi)) (to_unsigned w)
        s res endptr st = Some ((r, out), st')
      ∧ ((r = -1 ∧ out = None)
         ∨ (∃ str v rest err, s = Some str ∧ strtoul str = (v, rest, err)
              ∧ r = 0 ∧ out = Some (to_unsigned w v) ∧ 0 ≤ v ≤ hi)))
    as Hnarrow.
  { intros hi w.
    destruct (narrowing_cases (__zorostr_strtoul BITS_PER_LONG strtoul) strtoul
                (λ t, bool_decide (t > hi)) (to_unsigned w)
                s res endptr st strtoul_wide_cases)
      as (r & out & st' & Hrun & Hc).
    exists r, out, st'. split; [exact Hrun|].
    destruct Hc as [?|(str & v & rest & err & -> & Hs & -> & -> & Hr)];
      [by left|right].
    apply bool_decide_eq_false in Hr. pose proof (Hpos str) as Hv.
    rewrite Hs in Hv. simpl in Hv.
    eexists _, _, _, _. split_and!; [done..|lia]. }
  split_and!.
  - intros str -> Hminus.
    assert (str ≠ []) as Hstr by (by intros ->).
    assert (__zorostr_strtoul BITS_PER_LONG strtoul (Some str) res endptr st
            = Some ((-1, None), st))
      as Hwide.
    { unfold __zorostr_strtoul.
      rewrite (bool_decide_eq_true_2 (head str = Some "-"%char)) by done.
      by rewrite orb_true_r. }
    assert (__zorostr_strtoul BITS_PER_LONG strtoul (Some str) true endptr st
            = Some ((-1, None), st))
      as Hwide'.
    { unfold __zorostr_strtoul.
      rewrite (bool_decide_eq_true_2 (head str = Some "-"%char)) by done.
      by rewrite orb_true_r. }
    split_and!; [done|..].
    + by apply (narrowing_refused (__zorostr_strtoul BITS_PER_LONG strtoul)
                  (λ t, bool_decide (t > UINT_MAX)) (to_unsigned 32)).
    + by apply (narrowing_refused (__zorostr_strtoul BITS_PER_LONG strtoul)
                  (λ t, bool_decide (t > USHRT_MAX)) (to_unsigned 16)).
    + by apply (narrowing_refused (__zorostr_strtoul BITS_PER_LONG strtoul)
                  (λ t, bool_decide (t > UCHAR_MAX)) (to_unsigned 8)).
  - destruct (Hnarrow UINT_MAX 32) as (r & out & st' & Hrun & Hc).
    exists r, out, st'. split; [exact Hrun|].
    destruct Hc as [?|(str & v & rest & err & -> & Hs & -> & -> & Hr)];
      [by left|right].
    eexists _, _, _, _. split_and!; [done..| |lia|lia].
    f_equal. apply to_unsigned_id. unfold UINT_MAX in *. lia.
  - destruct (Hnarrow USHRT_MAX 16) as (r & out & st' & Hrun & Hc).
    exists r, out, st'. split; [exact Hrun|].
    destruct Hc as [?|(str & v & rest & err & -> & Hs & -> & -> & Hr)];
      [by left|right].
    eexists _, _, _, _. split_and!; [done..| |lia|lia].
    f_equal. apply to_unsigned_id. unfold USHRT_MAX in *. lia.
  - destruct (Hnarrow UCHAR_MAX 8) as (r & out & st' & Hrun & Hc).
    exists r, out, st'. split; [exact Hrun|].
    destruct Hc as [?|(str & v & rest & err & -> & Hs & -> & -> & Hr)];
      [by left|right].
    eexists _, _, _, _. split_and!; [done..| |lia|lia].
    f_equal. apply to_unsigned_id. unfold UCHAR_MAX in *. lia.
Qed.

End UnsignedSpec.

(** X30 on an example: [__zorostr_strtoui] with a library function that converts every string to [7]. *)
Lemma zorostr_unsigned_conversions_witness :
  ∃ r out st',
    __zorostr_strtoui 64 ex_strtoul (Some ["7"%char]) true false
      (mk_cstate 0 [])
    = Some ((r, out), st')
    ∧ ((r = -1 ∧ out = None)
       ∨ (∃ str v rest err,
            Some ["7"%char] = Some str ∧ ex_strtoul str = (v, rest, err)
            ∧ r = 0 ∧ out = Some v ∧ 0 ≤ v ≤ UINT_MAX)).
Proof.
  destruct (zorostr_unsigned_conversions 64 ex_strtoul
              (Some ["7"%char]) true false (mk_cstate 0 [])) as (_ & H & _).
  - intros str. simpl. lia.
  - exact H.
Defined.

End ZoroStrSpec.
